(** * MulticopterSim: the vehicle pawn's board interface and the joystick glue

    A shallow embedding of the parts of [VehiclePawn.cpp] and
    [JoystickLinux.cpp] that implement the firmware's board abstraction:
    motor values to angular forces, the emulated sensors, the 100 Hz clock,
    the serial port over a socket, and joystick identification; and of the
    loop of the threaded worker of [ThreadedWorker.hpp].  The calls into
    the game engine (meshes, sound, camera, collision) and the
    trigonometry of the thrust vector are not part of it.

    Integers.  C++ [int] members are integers of [Z]; no operation below
    takes them outside the [int] range as long as they start inside a
    buffer's bounds.  The narrowing to [uint8_t] on return is written out
    as [mod 256].

    Floating point.  The program is written once, over the operations on
    [float] that the sources use ([FloatOps]).  Two arithmetics implement
    them.  In the exact one a [float] is the rational number it denotes
    and no operation rounds; the algebraic statements are proved there.
    In the other one a [float] is an IEEE 754 binary32 value and every
    operation rounds to nearest, ties to even, as the compiled program
    does; it computes, the statements that speak of exact values are
    tested there, and what survives the rounding is proved there.
    Statements that do not depend on the arithmetic are proved for both at
    once. *)

From Stdlib Require Import ZArith QArith Qpower Qcanon Qcabs Lia.
From Stdlib Require Import Strings.Byte Sorting.Sorted Floats.SpecFloat.
From Stdlib Require Strings.String.
From stdpp Require Import base list numbers.
Import String.StringSyntax.

Local Open Scope Z_scope.

(** ** Arithmetic on [float] *)

Class FloatOps (float : Type) : Type := mkFloatOps {
  (** an [int] converted to [float] *)
  of_int : Z -> float;
  (** the decimal literal [num/den] stored in a [float] *)
  of_literal : Z -> positive -> float;
  fadd : float -> float -> float;
  fsub : float -> float -> float;
  fmul : float -> float -> float;
  fdiv : float -> float -> float;
  (** unary minus *)
  fneg : float -> float;
  (** [fabs] *)
  fabs : float -> float;
  (** [x < y] *)
  fltb : float -> float -> bool;
  (** [x + num/den] with a [double] literal: the sum is formed in [double]
      and stored back into a [float] *)
  fadd_double : float -> Z -> positive -> float
}.

Declare Scope float_scope.
Delimit Scope float_scope with F.
Infix "+" := fadd : float_scope.
Infix "-" := fsub : float_scope.
Infix "*" := fmul : float_scope.
Infix "/" := fdiv : float_scope.
Notation "- x" := (fneg x) : float_scope.

(** *** Exact arithmetic: rational numbers *)

#[export] Instance exact_float : FloatOps Qc := {|
  of_int n := Q2Qc (inject_Z n);
  of_literal num den := Q2Qc (num # den);
  fadd := Qcplus;
  fsub := Qcminus;
  fmul := Qcmult;
  fdiv := Qcdiv;
  fneg := Qcopp;
  fabs := Qcabs;
  fltb x y := bool_decide (x < y)%Qc;
  fadd_double x num den := (x + Q2Qc (num # den))%Qc
|}.

(** *** IEEE 754: binary32, with the one [double] sum that the sources form

    A [spec_float] is a zero, an infinity, NaN or [(-1)^s * m * 2^e]; the
    operations of [SpecFloat] round the exact result to [prec] bits. *)

Module Binary32.

Definition prec : Z := 24.
Definition emax : Z := 128.

Definition of_int (n : Z) : spec_float := binary_normalize prec emax n 0 false.

Definition of_literal (num : Z) (den : positive) : spec_float :=
  SFdiv prec emax (of_int num) (of_int (Zpos den)).

(** The [double] nearest to [num/den]. *)
Definition double_literal (num : Z) (den : positive) : spec_float :=
  SFdiv 53 1024 (binary_normalize 53 1024 num 0 false)
                (binary_normalize 53 1024 (Zpos den) 0 false).

(** The conversion of a [double] to [float]. *)
Definition of_double (x : spec_float) : spec_float :=
  match x with
  | S754_finite s m e => binary_normalize prec emax (cond_Zopp s (Zpos m)) e s
  | _ => x
  end.

(** Every [float] is a [double] as it stands. *)
Definition fadd_double (x : spec_float) (num : Z) (den : positive)
    : spec_float :=
  of_double (SFadd 53 1024 x (double_literal num den)).

(** A zero or a finite value other than zero. *)
Definition is_finite (x : spec_float) : bool :=
  match x with
  | S754_zero _ | S754_finite _ _ _ => true
  | _ => false
  end.

(** A number other than zero: finite or infinite, not NaN. *)
Definition is_nonzero (x : spec_float) : bool :=
  match x with
  | S754_infinity _ | S754_finite _ _ _ => true
  | _ => false
  end.

(** A canonical binary32 value, as every result of an operation is. *)
Definition valid (x : spec_float) : bool := valid_binary prec emax x.

(** Positive and of magnitude at least one: the positive infinity, or a
    positive finite value with at least one digit before the binary
    point. *)
Definition at_least_one (x : spec_float) : bool :=
  match x with
  | S754_infinity false => true
  | S754_finite false m e => 1 <=? Z.pos (digits2_pos m) + e
  | _ => false
  end.

(** The rational number that a zero or a finite value denotes. *)
Definition to_Q (x : spec_float) : Q :=
  match x with
  | S754_finite s m e => (inject_Z (cond_Zopp s (Zpos m)) * Qpower 2 e)%Q
  | _ => 0%Q
  end.

End Binary32.

#[export] Instance binary32_float : FloatOps spec_float := {|
  of_int := Binary32.of_int;
  of_literal := Binary32.of_literal;
  fadd := SFadd Binary32.prec Binary32.emax;
  fsub := SFsub Binary32.prec Binary32.emax;
  fmul := SFmul Binary32.prec Binary32.emax;
  fdiv := SFdiv Binary32.prec Binary32.emax;
  fneg := SFopp;
  fabs := SFabs;
  fltb := SFltb;
  fadd_double := Binary32.fadd_double
|}.

(** ** The motor command vector

    [float _motorvals[4]], written by the firmware through [writeMotor] and
    read back by [Tick].  A cell outside the array is not part of the
    object; reading one is given the value 0 here and writing one is
    dropped. *)

Section Motors.
Context {float : Type} `{FloatOps float}.

Definition motorval (m : list float) (k : Z) : float :=
  if k <? 0 then of_int 0 else default (of_int 0) (m !! Z.to_nat k).

(** The constructor's loop [_motorvals[k] = 0]. *)
Definition motors_init : list float := replicate 4 (of_int 0).

(** [void AVehiclePawn::writeMotor(uint8_t index, float value)] *)
Definition writeMotor (index : Z) (value : float) (m : list float)
    : list float :=
  <[Z.to_nat (index mod 256) := value]> m.

(** [float AVehiclePawn::motorsToAngularForce(int a, int b, int c, int d)] *)
Definition motorsToAngularForce (m : list float) (a b c d : Z) : float :=
  let v := ((motorval m a + motorval m b)
            - (motorval m c + motorval m d))%F in
  ((if fltb v (of_int 0) then of_int (-1) else of_int 1) * fabs v)%F.

(** The expression before the sign and the magnitude are separated. *)
Definition signed_difference (m : list float) (a b c d : Z) : float :=
  ((motorval m a + motorval m b) - (motorval m c + motorval m d))%F.

End Motors.

(** ** Engine value types

    [FVector] and [FQuat] are the engine's value types; the pawn uses their
    fields, the difference of two vectors and the quotient of a vector by a
    scalar.  The engine is outside the sources: the two operations are
    taken component by component, each component as the arithmetic gives
    it. *)

Module FVector.

Record t (float : Type) : Type := mk { X : float; Y : float; Z : float }.
Arguments mk {float} _ _ _.
Arguments X {float} _.
Arguments Y {float} _.
Arguments Z {float} _.

Section Ops.
Context {float : Type} `{FloatOps float}.

Definition zero : t float := mk (of_int 0) (of_int 0) (of_int 0).

Definition sub (a b : t float) : t float :=
  mk (X a - X b)%F (Y a - Y b)%F (Z a - Z b)%F.

Definition div (a : t float) (scale : float) : t float :=
  mk (X a / scale)%F (Y a / scale)%F (Z a / scale)%F.

End Ops.

End FVector.

Module FQuat.

Record t (float : Type) : Type :=
  mk { W : float; X : float; Y : float; Z : float }.
Arguments mk {float} _ _ _ _.
Arguments W {float} _.
Arguments X {float} _.
Arguments Y {float} _.
Arguments Z {float} _.

End FQuat.

(** ** The socket server

    Modelled from the spec: class [ThreadedSocketServer] is declared and
    defined outside the sources at hand.  The spec gives it a non-blocking
    poll of the session state, a receive that fills the caller's buffer and
    returns the number of bytes received (zero or negative when nothing was
    received) and a send.  The network decides what a receive delivers:
    [srv_incoming k] is the return value and the buffer contents that the
    [k]-th receive of the session leaves behind.  [srv_connected] is what
    [connected()] reports at the time of a call; no call of the pawn
    changes it, the socket does when it accepts or drops a client (the
    events [ClientAccepted] and [ClientDropped] of a session below). *)

Record Server := mkServer {
  srv_connected : bool;
  srv_incoming : nat -> Z * list byte;
  srv_receives : nat;
  srv_sent : list byte
}.

Module ThreadedSocketServer.

Definition connected (srv : Server) : bool := srv_connected srv.

Definition receiveBuffer (srv : Server) : Z * list byte * Server :=
  (srv_incoming srv (srv_receives srv),
   mkServer (srv_connected srv) (srv_incoming srv)
            (S (srv_receives srv)) (srv_sent srv)).

Definition sendBuffer (srv : Server) (buf : list byte) : Server :=
  mkServer (srv_connected srv) (srv_incoming srv)
           (srv_receives srv) (srv_sent srv ++ buf).

End ThreadedSocketServer.

(** ** Gaussian sensor noise

    [GaussianNoise] owns a generator and a normal distribution.  Each
    evaluation of [_dist(_generator)] yields the next sample and advances
    the generator; [_dist k] is the [k]-th sample of the run and
    [_generator] counts the samples drawn so far.  [_size] and [_noise]
    are the constructor's arguments. *)

Record GaussianNoise (float : Type) : Type := mkNoise {
  _size : Z;
  _noise : float;
  _dist : nat -> float;
  _generator : nat
}.
Arguments mkNoise {float} _ _ _ _.
Arguments _size {float} _.
Arguments _noise {float} _.
Arguments _dist {float} _ _.
Arguments _generator {float} _.

(** ** The pawn

    The members of [AVehiclePawn] that the board methods and [Tick] read
    and write.  Their declarations are in a header outside the sources.
    [_serverAvailableBytes] and [_serverByteIndex] are taken as [int]:
    [serialAvailableBytes] stores the [int] result of the receive in the
    former and tests it against zero from below.  [_elapsedTime] is taken
    as [float], the type in which [getTime] returns it. *)

Record Pawn (float : Type) : Type := mkPawn {
  _motorvals : list float;
  _quat : FQuat.t float;
  _eulerPrev : FVector.t float;
  _gyro : FVector.t float;
  _varioPrev : float;
  _accelZ : float;
  _elapsedTime : float;
  _quatNoise : GaussianNoise float;
  _serverRunning : bool;
  _serverAvailableBytes : Z;
  _serverByteIndex : Z;
  _serverBuffer : list byte
}.
Arguments mkPawn {float} _ _ _ _ _ _ _ _ _ _ _ _.
Arguments _motorvals {float} _.
Arguments _quat {float} _.
Arguments _eulerPrev {float} _.
Arguments _gyro {float} _.
Arguments _varioPrev {float} _.
Arguments _accelZ {float} _.
Arguments _elapsedTime {float} _.
Arguments _quatNoise {float} _.
Arguments _serverRunning {float} _.
Arguments _serverAvailableBytes {float} _.
Arguments _serverByteIndex {float} _.
Arguments _serverBuffer {float} _.

(** What the engine hands to [Tick] besides [DeltaSeconds]: the actor's
    quaternion, its Euler angles in radians ([getEulerAngles]) and the
    vertical component of its velocity. *)
Record Host (float : Type) : Type := mkHost {
  actorQuat : FQuat.t float;
  eulerAngles : FVector.t float;
  velocityZ : float
}.
Arguments mkHost {float} _ _ _.
Arguments actorQuat {float} _.
Arguments eulerAngles {float} _.
Arguments velocityZ {float} _.

(** What [Tick] computes from the motor values: the locals [forces] and
    [motorSum].  What it hands to the engine from them is not part of the
    model: the rotation [DeltaSeconds * FRotator(forces[1], forces[2],
    forces[0]) * (180 / M_PI)] and the thrust [motorSum * THRUST_FACTOR *
    FVector(-x, -y, z)], which depend on the frame time and the Euler
    angles as well, and the propeller sound. *)
Record Actuation (float : Type) : Type := mkActuation {
  forces : list float;
  motorSum : float
}.
Arguments mkActuation {float} _ _.
Arguments forces {float} _.
Arguments motorSum {float} _.

(** A run of the firmware is a sequence of calls of the [Hackflight::Board]
    methods that the pawn implements; the firmware reaches the simulated
    vehicle through them only. *)
Inductive BoardCall (float : Type) : Type :=
| GetQuaternion
| GetGyrometer
| WriteMotor (index : Z) (value : float)
| GetTime
| SerialAvailableBytes
| SerialReadByte
| SerialWriteByte (c : byte).
Arguments GetQuaternion {float}.
Arguments GetGyrometer {float}.
Arguments WriteMotor {float} _ _.
Arguments GetTime {float}.
Arguments SerialAvailableBytes {float}.
Arguments SerialReadByte {float}.
Arguments SerialWriteByte {float} _.

Inductive BoardReturn (float : Type) : Type :=
| RetQuaternion (ok : bool) (q : list float)
| RetGyrometer (ok : bool) (gyroRates : list float)
| RetVoid
| RetTime (t : float)
| RetCount (n : Z)
| RetByte (b : byte).
Arguments RetQuaternion {float} _ _.
Arguments RetGyrometer {float} _ _.
Arguments RetVoid {float}.
Arguments RetTime {float} _.
Arguments RetCount {float} _.
Arguments RetByte {float} _.

(** A frame is one call of [Tick]: the board calls of the firmware update,
    what the engine reports, and the frame time. *)
Definition Frame (float : Type) : Type :=
  list (BoardCall float) * Host float * float.

Section Vehicle.
Context {float : Type} `{FloatOps float}.

Definition set_motorvals (m : list float) (s : Pawn float) : Pawn float :=
  mkPawn m (_quat s) (_eulerPrev s) (_gyro s) (_varioPrev s) (_accelZ s)
         (_elapsedTime s) (_quatNoise s) (_serverRunning s)
         (_serverAvailableBytes s) (_serverByteIndex s) (_serverBuffer s).

Definition set_elapsedTime (t : float) (s : Pawn float) : Pawn float :=
  mkPawn (_motorvals s) (_quat s) (_eulerPrev s) (_gyro s) (_varioPrev s)
         (_accelZ s) t (_quatNoise s) (_serverRunning s)
         (_serverAvailableBytes s) (_serverByteIndex s) (_serverBuffer s).

Definition set_quatNoise (gn : GaussianNoise float) (s : Pawn float)
    : Pawn float :=
  mkPawn (_motorvals s) (_quat s) (_eulerPrev s) (_gyro s) (_varioPrev s)
         (_accelZ s) (_elapsedTime s) gn (_serverRunning s)
         (_serverAvailableBytes s) (_serverByteIndex s) (_serverBuffer s).

Definition set_serial (avail index : Z) (buf : list byte) (s : Pawn float)
    : Pawn float :=
  mkPawn (_motorvals s) (_quat s) (_eulerPrev s) (_gyro s) (_varioPrev s)
         (_accelZ s) (_elapsedTime s) (_quatNoise s) (_serverRunning s)
         avail index buf.

Definition set_sensors (q : FQuat.t float) (eulerPrev gyro : FVector.t float)
    (varioPrev accelZ : float) (s : Pawn float) : Pawn float :=
  mkPawn (_motorvals s) q eulerPrev gyro varioPrev accelZ
         (_elapsedTime s) (_quatNoise s) (_serverRunning s)
         (_serverAvailableBytes s) (_serverByteIndex s) (_serverBuffer s).

(** The loop of [addNoise]: [n] more rounds, the next one on cell [k] with
    sample number [g].  A cell beyond the end of [vals] is left alone. *)
Fixpoint addNoise_loop (dist : nat -> float) (g k : nat) (n : nat)
    (vals : list float) : list float :=
  match n with
  | O => vals
  | S n' => addNoise_loop dist (S g) (S k) n'
              (alter (fun x => (x + dist g)%F) k vals)
  end.

(** [void AVehiclePawn::GaussianNoise::addNoise(float vals[])] *)
Definition addNoise (gn : GaussianNoise float) (vals : list float)
    : list float * GaussianNoise float :=
  let n := Z.to_nat (_size gn mod 256) in
  (addNoise_loop (_dist gn) (_generator gn) 0 n vals,
   mkNoise (_size gn) (_noise gn) (_dist gn) (_generator gn + n)%nat).

(** [void AVehiclePawn::BeginPlay()]; [started] is what [server.start()]
    returned.  [_quat] and [_gyro] are not touched. *)
Definition BeginPlay (started : bool) (s : Pawn float) : Pawn float :=
  mkPawn (_motorvals s) (_quat s)
         FVector.zero                      (* _eulerPrev = FVector(0, 0, 0) *)
         (_gyro s)
         (of_int 0)                        (* _varioPrev = 0 *)
         (of_int 0)                        (* _accelZ = 0 *)
         (of_literal 1 1)                  (* _elapsedTime = 1.0 *)
         (_quatNoise s)
         started                           (* _serverRunning *)
         0                                 (* _serverAvailableBytes = 0 *)
         (_serverByteIndex s) (_serverBuffer s).

(** [bool AVehiclePawn::getQuaternion(float q[4])] *)
Definition getQuaternion (s : Pawn float)
    : bool * list float * Pawn float :=
  let q := [ FQuat.W (_quat s);
             (- FQuat.X (_quat s))%F;
             (- FQuat.Y (_quat s))%F;
             FQuat.Z (_quat s) ] in
  let '(q', gn) := addNoise (_quatNoise s) q in
  (true, q', set_quatNoise gn s).

(** [bool AVehiclePawn::getGyrometer(float gyroRates[3])] *)
Definition getGyrometer (s : Pawn float) : bool * list float :=
  (true, [ FVector.X (_gyro s); FVector.Y (_gyro s); of_int 0 ]).

(** [float AVehiclePawn::getTime(void)] *)
Definition getTime (s : Pawn float) : float * Pawn float :=
  let t := fadd_double (_elapsedTime s) 1 100 in
  (t, set_elapsedTime t s).

(** [uint8_t AVehiclePawn::serialAvailableBytes(void)] *)
Definition serialAvailableBytes (srv : Server) (s : Pawn float)
    : Z * Server * Pawn float :=
  if 0 <? _serverAvailableBytes s then
    (_serverAvailableBytes s mod 256, srv, s)
  else if ThreadedSocketServer.connected srv then
    let '(r, buf, srv') := ThreadedSocketServer.receiveBuffer srv in
    let avail := if r <? 0 then 0 else r in
    (avail mod 256, srv', set_serial avail 0 buf s)
  else
    (0, srv, s).

(** The cell of [_serverBuffer] at a signed index; a cell outside the array
    reads as zero here (the C++ read is undefined there). *)
Definition buffer_at (buf : list byte) (i : Z) : byte :=
  if i <? 0 then x00 else default x00 (buf !! Z.to_nat i).

(** [uint8_t AVehiclePawn::serialReadByte(void)] *)
Definition serialReadByte (s : Pawn float) : byte * Pawn float :=
  let byte := buffer_at (_serverBuffer s) (_serverByteIndex s) in
  (byte, set_serial (_serverAvailableBytes s - 1) (_serverByteIndex s + 1)
                    (_serverBuffer s) s).

(** [void AVehiclePawn::serialWriteByte(uint8_t c)] *)
Definition serialWriteByte (c : byte) (srv : Server) : Server :=
  if ThreadedSocketServer.connected srv
  then ThreadedSocketServer.sendBuffer srv [c]
  else srv.

(** [n] successive calls of [serialReadByte]: the bytes returned, oldest
    first, and the pawn afterwards. *)
Fixpoint serialReadBytes (n : nat) (s : Pawn float)
    : list byte * Pawn float :=
  match n with
  | O => ([], s)
  | S n' => let '(b, s1) := serialReadByte s in
            let '(bs, s2) := serialReadBytes n' s1 in
            (b :: bs, s2)
  end.

Definition board_call (c : BoardCall float) (w : Server * Pawn float)
    : BoardReturn float * (Server * Pawn float) :=
  let '(srv, s) := w in
  match c with
  | GetQuaternion =>
      let '(ok, q, s') := getQuaternion s in (RetQuaternion ok q, (srv, s'))
  | GetGyrometer =>
      let '(ok, g) := getGyrometer s in (RetGyrometer ok g, (srv, s))
  | WriteMotor index value =>
      (RetVoid, (srv, set_motorvals (writeMotor index value (_motorvals s)) s))
  | GetTime =>
      let '(t, s') := getTime s in (RetTime t, (srv, s'))
  | SerialAvailableBytes =>
      let '(n, srv', s') := serialAvailableBytes srv s in
      (RetCount n, (srv', s'))
  | SerialReadByte =>
      let '(b, s') := serialReadByte s in (RetByte b, (srv, s'))
  | SerialWriteByte c =>
      (RetVoid, (serialWriteByte c srv, s))
  end.

Fixpoint board_calls (cs : list (BoardCall float)) (w : Server * Pawn float)
    : list (BoardReturn float) * (Server * Pawn float) :=
  match cs with
  | [] => ([], w)
  | c :: cs' => let '(r, w1) := board_call c w in
                let '(rs, w2) := board_calls cs' w1 in
                (r :: rs, w2)
  end.

(** The values that the [getTime] calls of a run returned, oldest first. *)
Fixpoint times_of (rs : list (BoardReturn float)) : list float :=
  match rs with
  | [] => []
  | RetTime t :: rs' => t :: times_of rs'
  | _ :: rs' => times_of rs'
  end.

(** [void AVehiclePawn::Tick(float DeltaSeconds)], with the calls that
    [hackflight.update()] makes into the board given by [update].  The
    joystick poll at its start feeds the receiver, which is outside the
    pawn. *)
Definition Tick (update : list (BoardCall float)) (host : Host float)
    (DeltaSeconds : float) (w : Server * Pawn float)
    : Actuation float * (Server * Pawn float) :=
  let '(srv, s) := snd (board_calls update w) in
  let m := _motorvals s in
  let forces := [ motorsToAngularForce m 2 3 0 1;
                  motorsToAngularForce m 1 3 0 2;
                  motorsToAngularForce m 1 2 0 3 ] in
  let motorSum := (of_int 0 + motorval m 0 + motorval m 1 + motorval m 2
                     + motorval m 3)%F in
  let euler := eulerAngles host in
  let gyro := FVector.div (FVector.sub euler (_eulerPrev s)) DeltaSeconds in
  let vario := (velocityZ host / of_int 100)%F in
  let accelZ := ((vario - _varioPrev s) / DeltaSeconds)%F in
  (mkActuation forces motorSum,
   (srv, set_sensors (actorQuat host) euler gyro vario accelZ s)).

(** A session is a sequence of frames played in order; its result lists
    what the board calls returned. *)
Fixpoint session (frames : list (Frame float)) (w : Server * Pawn float)
    : list (BoardReturn float) * (Server * Pawn float) :=
  match frames with
  | [] => ([], w)
  | (update, host, DeltaSeconds) :: frames' =>
      let rs := fst (board_calls update w) in
      let '(rs', w') :=
        session frames' (snd (Tick update host DeltaSeconds w)) in
      (rs ++ rs', w')
  end.

End Vehicle.

(** ** Joystick identification (Windows)

    [SimReceiver] is defined outside the sources at hand; the record holds
    what [joystickInit] passes to its constructor: the five cells of each
    map and the three flags. *)

Record SimReceiver := mkSimReceiver {
  axismap : list Z;
  buttonmap : list Z;
  reversedVerticals : bool;
  springyThrottle : bool;
  useButtonForAux : bool
}.

(** The loop [for (_joyid=0; _joyid<16; _joyid++)] of [joystickInit]:
    [joyGetDevCaps id] is [Some (wMid, wPid)] when the call for [id]
    returns [JOYERR_NOERROR].  [n] identifiers are still to be tried. *)
Fixpoint first_joystick (joyGetDevCaps : Z -> option (Z * Z)) (joyid : Z)
    (n : nat) : Z * option (Z * Z) :=
  match n with
  | O => (joyid, None)
  | S n' => match joyGetDevCaps joyid with
            | Some caps => (joyid, Some caps)
            | None => first_joystick joyGetDevCaps (joyid + 1) n'
            end
  end.

Section JoystickInit.

(** The vendor and product identifiers are constants of a header that is
    not among the sources. *)
Variables VENDOR_STM PRODUCT_TARANIS : Z.
Variables PRODUCT_PS3_CLONE PRODUCT_PS4 PRODUCT_XBOX360_CLONE : Z.
Variables PRODUCT_EXTREMEPRO3D PRODUCT_F310 : Z.

(** [void AVehiclePawn::joystickInit(void)].  [axismap] and [buttonmap]
    are declared without an initialiser: their cells start with whatever
    the stack holds, here [axismap0] and [buttonmap0].  The result is
    [_joyid] and the receiver. *)
Definition joystickInit (joyGetDevCaps : Z -> option (Z * Z))
    (axismap0 buttonmap0 : list Z) : Z * SimReceiver :=
  let '(joyid, found) := first_joystick joyGetDevCaps 0 16 in
  let receiver :=
    match found with
    | Some (vendorId, productId) =>
        if joyid <? 16 then
          if vendorId =? VENDOR_STM then
            if productId =? PRODUCT_TARANIS then
              mkSimReceiver
                (<[4%nat:=3]> (<[3%nat:=5]> (<[2%nat:=2]> (<[1%nat:=1]>
                   (<[0%nat:=0]> axismap0)))))
                buttonmap0 false false false
            else (* Spektrum *)
              mkSimReceiver
                (<[4%nat:=4]> (<[3%nat:=0]> (<[2%nat:=5]> (<[1%nat:=2]>
                   (<[0%nat:=1]> axismap0)))))
                buttonmap0 false false false
          else
            (* reversedVerticals = true *)
            if (productId =? PRODUCT_PS3_CLONE) || (productId =? PRODUCT_PS4)
            then
              mkSimReceiver
                (<[3%nat:=0]> (<[2%nat:=3]> (<[1%nat:=2]>
                   (<[0%nat:=1]> axismap0))))
                (<[2%nat:=4]> (<[1%nat:=2]> (<[0%nat:=1]> buttonmap0)))
                true true true
            else if productId =? PRODUCT_XBOX360_CLONE then
              mkSimReceiver
                (<[3%nat:=0]> (<[2%nat:=3]> (<[1%nat:=4]>
                   (<[0%nat:=1]> axismap0))))
                (<[2%nat:=1]> (<[1%nat:=2]> (<[0%nat:=8]> buttonmap0)))
                true true true
            else if productId =? PRODUCT_EXTREMEPRO3D then
              mkSimReceiver
                (<[3%nat:=3]> (<[2%nat:=1]> (<[1%nat:=0]>
                   (<[0%nat:=2]> axismap0))))
                (<[2%nat:=4]> (<[1%nat:=2]> (<[0%nat:=1]> buttonmap0)))
                true false true
            else if productId =? PRODUCT_F310 then
              mkSimReceiver
                (<[3%nat:=0]> (<[2%nat:=3]> (<[1%nat:=4]>
                   (<[0%nat:=1]> axismap0))))
                (<[2%nat:=1]> (<[1%nat:=2]> (<[0%nat:=8]> buttonmap0)))
                true true true
            else
              mkSimReceiver axismap0 buttonmap0 true false false
        else mkSimReceiver axismap0 buttonmap0 false false false
    | None => mkSimReceiver axismap0 buttonmap0 false false false
    end in
  (joyid, receiver).

End JoystickInit.

(** ** Joystick events (Linux) *)

Module JoystickLinux.

Definition AX_THR : Z := 0.
Definition AX_ROL : Z := 1.
Definition AX_PIT : Z := 2.
Definition AX_YAW : Z := 3.
Definition AX_AU1 : Z := 4.
Definition AX_AU2 : Z := 5.
Definition AX_NIL : Z := 6.

(** The identity of an opened device, as the constructor leaves it. *)
Record Joystick := mkJoystick {
  _joystickId : Z;
  _productId : Z;
  _isRcTransmitter : bool
}.

(** [struct js_event] of [linux/joystick.h], without its time stamp, and
    the three event types of that header. *)
Record js_event := mk_js_event {
  js_type : Z;
  js_number : Z;
  js_value : Z
}.

Definition JS_EVENT_BUTTON : Z := 1.
Definition JS_EVENT_AXIS : Z := 2.
Definition JS_EVENT_INIT : Z := 128.

Inductive error_t := ERROR_NOERROR | ERROR_PRODUCT.

Definition F310_MAP : list Z :=
  [AX_YAW; AX_THR; AX_ROL; AX_PIT; AX_NIL; AX_NIL; AX_NIL; AX_NIL].
Definition SPEKTRUM_MAP : list Z :=
  [AX_YAW; AX_THR; AX_ROL; AX_PIT; AX_AU2; AX_NIL; AX_AU1; AX_NIL].
Definition XBOX360_WIRELESS_MAP : list Z :=
  [AX_YAW; AX_THR; AX_NIL; AX_ROL; AX_PIT; AX_NIL; AX_NIL; AX_NIL].
Definition REALFLIGHT_INTERLINK_MAP : list Z :=
  [AX_ROL; AX_PIT; AX_THR; AX_NIL; AX_YAW; AX_AU1; AX_NIL; AX_NIL].

Section Events.
Context {float : Type} `{FloatOps float}.

(** Writing [axes[k]]; a cell outside the array is dropped. *)
Definition store (axes : list float) (k : Z) (v : float) : list float :=
  if k <? 0 then axes else <[Z.to_nat k := v]> axes.

(** [static void handleRealflightInterlinkButtons(uint8_t number,
    int16_t value, float axes[6])] *)
Definition handleRealflightInterlinkButtons (number value : Z)
    (axes : list float) : list float :=
  let axes := if (number =? 3) && (value =? 1)
              then store axes AX_AU1 (of_literal 0 1) else axes in
  let axes := if (number =? 3) && (value =? 0)
              then store axes AX_AU1 (of_literal 1 2) else axes in
  let axes := if (number =? 4) && (value =? 0)
              then store axes AX_AU1 (of_literal 1 2) else axes in
  let axes := if (number =? 4) && (value =? 1)
              then store axes AX_AU1 (of_literal 1 1) else axes in
  axes.

(** The loop [for (k=0; k<6; ++k) axes[k] = _axes[k]]. *)
Definition copy_axes (_axes axes : list float) : list float :=
  foldl (fun dst k => <[k := default (of_int 0) (_axes !! k)]> dst)
        axes (seq 0 6).

(** Product identifiers, constants of a header outside the sources. *)
Variables PRODUCT_F310 PRODUCT_SPEKTRUM : Z.
Variables PRODUCT_XBOX360_WIRELESS PRODUCT_REALFLIGHT_INTERLINK : Z.

(** [Joystick::error_t Joystick::poll(float axes[6], uint8_t &
    buttonState)].  [js] is the event that [read] delivered, [_axes] the
    function's static array and [axes] the caller's array; the result is
    the error code and both arrays after the call. *)
Definition poll (j : Joystick) (js : js_event) (_axes axes : list float)
    : error_t * list float * list float :=
  if _joystickId j <=? 0 then (ERROR_PRODUCT, _axes, axes)
  else if negb (Z.land (js_type js) JS_EVENT_INIT =? 0)
  then (ERROR_NOERROR, _axes, axes)
  else
    let axisMap :=
      if _productId j =? PRODUCT_F310 then Some F310_MAP
      else if _productId j =? PRODUCT_SPEKTRUM then Some SPEKTRUM_MAP
      else if _productId j =? PRODUCT_XBOX360_WIRELESS
           then Some XBOX360_WIRELESS_MAP
      else if _productId j =? PRODUCT_REALFLIGHT_INTERLINK
           then Some REALFLIGHT_INTERLINK_MAP
      else None in
    match axisMap with
    | None => (ERROR_PRODUCT, _axes, axes)
    | Some axisMap =>
        let _axes :=
          if js_type js =? JS_EVENT_AXIS then
            store _axes
              (default AX_NIL (axisMap !! Z.to_nat (js_number js)))
              (of_int (js_value js) / of_int 32768)%F
          else if js_type js =? JS_EVENT_BUTTON then
            if _productId j =? PRODUCT_REALFLIGHT_INTERLINK
            then handleRealflightInterlinkButtons
                   (js_number js) (js_value js) _axes
            else _axes
          else _axes in
        let axes := copy_axes _axes axes in
        let axes :=
          if (_productId j =? PRODUCT_REALFLIGHT_INTERLINK)
             || negb (_isRcTransmitter j)
          then alter fneg 2%nat (alter fneg 0%nat axes)
          else axes in
        (ERROR_NOERROR, _axes, axes)
    end.

End Events.

End JoystickLinux.

(** ** Reference values

    The values that the statements below compare the code with. *)

Section Reference.
Context {float : Type} `{FloatOps float}.

(** Test vectors of the motor command. *)
Definition motors_1010 : list float := [of_int 1; of_int 0; of_int 1; of_int 0].
Definition motors_0101 : list float := [of_int 0; of_int 1; of_int 0; of_int 1].

(** The members from which [Tick] derives the emulated sensors. *)
Definition sensor_members (s : Pawn float)
    : FVector.t float * FVector.t float * float * float :=
  (_eulerPrev s, _gyro s, _varioPrev s, _accelZ s).

(** The host report of a frame with other Euler angles. *)
Definition with_eulerAngles (euler : FVector.t float) (host : Host float)
    : Host float :=
  mkHost (actorQuat host) euler (velocityZ host).

(** The host report of a frame with its vertical velocity scaled by [k]. *)
Definition scale_velocityZ (k : float) (host : Host float) : Host float :=
  mkHost (actorQuat host) (eulerAngles host) (k * velocityZ host)%F.

(** The vertical acceleration after two successive ticks. *)
Definition accelZ_after (f1 f2 : Frame float) (w : Server * Pawn float)
    : float :=
  let '(u1, h1, dt1) := f1 in
  let '(u2, h2, dt2) := f2 in
  _accelZ (snd (snd (Tick u2 h2 dt2 (snd (Tick u1 h1 dt1 w))))).

(** Cell [k] of an array after [addNoise]: the [k]-th sample of the draw
    added to it, and the cell as it was once [k] reaches [_size]. *)
Definition add_sample (gn : GaussianNoise float) (k : nat) (x : float)
    : float :=
  if Z.of_nat k <? _size gn mod 256
  then (x + _dist gn (_generator gn + k)%nat)%F
  else x.

(** A clock that starts at [t] and goes up by 0.01 per reading: its first
    [n] readings. *)
Fixpoint clock_readings (t : float) (n : nat) : list float :=
  match n with
  | O => []
  | S n' => let t' := fadd_double t 1 100 in t' :: clock_readings t' n'
  end.

(** The value such a clock holds after [n] readings. *)
Fixpoint clock_after (t : float) (n : nat) : float :=
  match n with
  | O => t
  | S n' => clock_after (fadd_double t 1 100) n'
  end.

(** A pawn at rest and variations of it. *)
Definition pawn_at_rest : Pawn float :=
  mkPawn motors_init (FQuat.mk (of_int 1) (of_int 0) (of_int 0) (of_int 0))
         FVector.zero FVector.zero (of_int 0) (of_int 0) (of_literal 1 1)
         (mkNoise 0 (of_int 0) (fun _ => of_int 0) 0)
         true 0 0 [].

(** A noise object of size 4 whose generator yields the sample 1/100. *)
Definition noisy_quat_pawn : Pawn float :=
  set_quatNoise (mkNoise 4 (of_literal 1 100) (fun _ => of_literal 1 100) 0)
                pawn_at_rest.

(** A pawn with [avail] unread bytes in [buf], the cursor at [index]. *)
Definition pawn_with_serial (avail index : Z) (buf : list byte)
    : Pawn float :=
  set_serial avail index buf pawn_at_rest.

(** A pawn whose clock shows [t]. *)
Definition pawn_at_time (t : float) : Pawn float :=
  set_elapsedTime t pawn_at_rest.

(** A host report with a vertical velocity only. *)
Definition host_climbing (vz : float) : Host float :=
  mkHost (FQuat.mk (of_int 1) (of_int 0) (of_int 0) (of_int 0))
         FVector.zero vz.

End Reference.

(** A socket without a client. *)
Definition server_idle : Server :=
  mkServer false (fun _ => (-1, [])) 0 [].

(** A socket with a client whose next receive returns [r] and leaves
    [buf] in the buffer. *)
Definition server_delivering (r : Z) (buf : list byte) : Server :=
  mkServer true (fun _ => (r, buf)) 0 [].

(** No joystick answers [joyGetDevCaps]. *)
Definition no_joystick : Z -> option (Z * Z) := fun _ => None.

(** Two binary32 values are the same number when they are equal or are
    the two zeros. *)
Definition same_number (x y : spec_float) : Prop :=
  x = y \/ (exists s t, x = S754_zero s /\ y = S754_zero t).

(** What a rounding to [prec] bits, with exponents up to [emax], returns
    for a number of sign [s] and magnitude [k] (digits plus exponent) whose
    mantissa, cut to the precision, is [lo]: a canonical value, and in the
    normal range the infinity or a finite number of that magnitude at
    least, whose mantissa is no less than [lo] when its exponent is the one
    of [k]. *)
Definition rounded (prec emax : Z) (s : bool) (k lo : Z) (r : spec_float)
    : Prop :=
  valid_binary prec emax r = true
  /\ (SpecFloat.emin prec emax + prec <= k ->
      r = S754_infinity s
      \/ exists m e, r = S754_finite s m e
                     /\ k <= Z.pos (digits2_pos m) + e
                     /\ k - prec <= e
                     /\ (e = k - prec -> lo <= Z.pos m)).

(** The order of IEEE 754 on two binary32 values. *)
Definition binary32_le (x y : spec_float) : Prop := SFleb x y = true.

(** * The rest of the code

    The functions of the sources that the statements above do not reach,
    and the values that the further properties below compare them with. *)

Section Runs.
Context {float : Type} `{FloatOps float}.

(** The motor vector after the [writeMotor] calls of a run, applied in
    order. *)
Fixpoint motor_writes (cs : list (BoardCall float)) (m : list float)
    : list float :=
  match cs with
  | [] => m
  | WriteMotor index value :: cs' => motor_writes cs' (writeMotor index value m)
  | _ :: cs' => motor_writes cs' m
  end.

(** The arguments of the [serialWriteByte] calls of a run, in order. *)
Fixpoint written_bytes (cs : list (BoardCall float)) : list byte :=
  match cs with
  | [] => []
  | SerialWriteByte c :: cs' => c :: written_bytes cs'
  | _ :: cs' => written_bytes cs'
  end.

(** The board calls of all the frames of a session, in order. *)
Definition session_calls (frames : list (Frame float))
    : list (BoardCall float) :=
  flat_map (fun f => fst (fst f)) frames.

End Runs.

Section Readings.
Context {float : Type} `{FloatOps float}.

(** The noise object after [j] calls of [addNoise]. *)
Definition noise_after (gn : GaussianNoise float) (j : nat)
    : GaussianNoise float :=
  mkNoise (_size gn) (_noise gn) (_dist gn)
          (_generator gn + j * Z.to_nat (_size gn mod 256))%nat.

(** The quaternion in the board frame, before the noise. *)
Definition board_frame (q : FQuat.t float) : list float :=
  [ FQuat.W q; (- FQuat.X q)%F; (- FQuat.Y q)%F; FQuat.Z q ].

(** What [getQuaternion] hands out: the board frame with the samples of
    the draw added. *)
Definition board_reading (gn : GaussianNoise float) (q : FQuat.t float)
    : list float :=
  [ add_sample gn 0 (FQuat.W q);
    add_sample gn 1 (- FQuat.X q)%F;
    add_sample gn 2 (- FQuat.Y q)%F;
    add_sample gn 3 (FQuat.Z q) ].

End Readings.

Section SessionEvents.
Context {float : Type} `{FloatOps float}.

(** What the [getGyrometer] calls of a run returned, oldest first. *)
Fixpoint gyros_of (rs : list (BoardReturn float))
    : list (bool * list float) :=
  match rs with
  | [] => []
  | RetGyrometer ok gyroRates :: rs' => (ok, gyroRates) :: gyros_of rs'
  | _ :: rs' => gyros_of rs'
  end.

(** The number of [getGyrometer] calls that a firmware update makes. *)
Fixpoint gyro_calls (cs : list (BoardCall float)) : nat :=
  match cs with
  | [] => O
  | GetGyrometer :: cs' => S (gyro_calls cs')
  | _ :: cs' => gyro_calls cs'
  end.

(** A pawn whose [_gyro] holds [g], as an earlier session or the memory
    of the object left it. *)
Definition pawn_with_gyro (g : FVector.t float) : Pawn float :=
  set_sensors (_quat pawn_at_rest) FVector.zero g (of_int 0) (of_int 0)
              pawn_at_rest.

(** A host report with the Euler angles [euler]. *)
Definition host_turned (euler : FVector.t float) : Host float :=
  with_eulerAngles euler (host_climbing (of_int 0)).

(** What happens in a session, in order: a board call of the firmware,
    the rest of a [Tick] once the firmware update is through, and the two
    events of the socket that change what [connected()] reports, a client
    accepted and the client dropped.

    Modelled from the spec: the socket server is outside the sources; the
    spec has its connection state change on accept and drop events. *)
Inductive SessionEvent : Type :=
| Call (c : BoardCall float)
| EndOfTick (host : Host float) (DeltaSeconds : float)
| ClientAccepted
| ClientDropped.

Definition set_connected (connected : bool) (srv : Server) : Server :=
  mkServer connected (srv_incoming srv) (srv_receives srv) (srv_sent srv).

Definition session_event (ev : SessionEvent) (w : Server * Pawn float)
    : Server * Pawn float :=
  match ev with
  | Call c => snd (board_call c w)
  | EndOfTick host DeltaSeconds => snd (Tick [] host DeltaSeconds w)
  | ClientAccepted => (set_connected true (fst w), snd w)
  | ClientDropped => (set_connected false (fst w), snd w)
  end.

Fixpoint session_events (evs : list SessionEvent) (w : Server * Pawn float)
    : Server * Pawn float :=
  match evs with
  | [] => w
  | ev :: evs' => session_events evs' (session_event ev w)
  end.

(** The events of a session in which no client comes or goes. *)
Definition events_of_frames (frames : list (Frame float))
    : list SessionEvent :=
  flat_map (fun f => map Call (fst (fst f)) ++ [EndOfTick (snd (fst f)) (snd f)])
           frames.

(** The arguments of the [serialWriteByte] calls made while a client is
    connected, in order; [connected] tells whether one is at the start. *)
Fixpoint written_while_connected (evs : list SessionEvent) (connected : bool)
    : list byte :=
  match evs with
  | [] => []
  | Call (SerialWriteByte c) :: evs' =>
      (if connected then [c] else []) ++ written_while_connected evs' connected
  | ClientAccepted :: evs' => written_while_connected evs' true
  | ClientDropped :: evs' => written_while_connected evs' false
  | _ :: evs' => written_while_connected evs' connected
  end.

End SessionEvents.
Arguments SessionEvent : clear implicits.
Arguments ClientAccepted {float}.
Arguments ClientDropped {float}.

(** [strstr(haystack, needle)] of the C library, as the test the
    constructor makes of it: whether [needle] occurs in [haystack]. *)
Fixpoint strstr (haystack needle : String.string) : bool :=
  String.prefix needle haystack
  || match haystack with
     | String.EmptyString => false
     | String.String _ rest => strstr rest needle
     end.

Section Identify.
Local Open Scope string_scope.

(** Product identifiers, constants of a header outside the sources. *)
Variables PRODUCT_TARANIS PRODUCT_SPEKTRUM PRODUCT_REALFLIGHT_INTERLINK : Z.
Variables PRODUCT_EXTREMEPRO3D PRODUCT_XBOX360_CLONE PRODUCT_F310 : Z.
Variables PRODUCT_XBOX360_WIRELESS : Z.

(** [Joystick::Joystick(const char * devname)].  [fd] is what [open]
    returned and [productName] the name that the [JSIOCGNAME] request left
    in the buffer, [None] when the request failed; [j0] holds the members
    as they are when the body starts. *)
Definition Joystick_new (fd : Z) (productName : option String.string)
    (j0 : JoystickLinux.Joystick) : JoystickLinux.Joystick :=
  let keep := JoystickLinux.mkJoystick fd (JoystickLinux._productId j0)
                (JoystickLinux._isRcTransmitter j0) in
  if 0 <? fd then
    match productName with
    | None => keep
    | Some productName =>
        if strstr productName "Taranis"
           || strstr productName "DeviationTx Deviation GamePad"
        then JoystickLinux.mkJoystick fd PRODUCT_TARANIS true
        else if strstr productName "Horizon Hobby SPEKTRUM"
        then JoystickLinux.mkJoystick fd PRODUCT_SPEKTRUM true
        else if strstr productName "GREAT PLANES InterLink Elite"
        then JoystickLinux.mkJoystick fd PRODUCT_REALFLIGHT_INTERLINK true
        else if strstr productName "Extreme 3D"
        then JoystickLinux.mkJoystick fd PRODUCT_EXTREMEPRO3D
               (JoystickLinux._isRcTransmitter j0)
        else if strstr productName "Generic X-Box pad"
        then JoystickLinux.mkJoystick fd PRODUCT_XBOX360_CLONE
               (JoystickLinux._isRcTransmitter j0)
        else if strstr productName "Logitech Logitech Dual Action"
        then JoystickLinux.mkJoystick fd PRODUCT_F310
               (JoystickLinux._isRcTransmitter j0)
        else if strstr productName "Xbox 360 Wireless Receiver"
        then JoystickLinux.mkJoystick fd PRODUCT_XBOX360_WIRELESS
               (JoystickLinux._isRcTransmitter j0)
        else keep
    end
  else keep.

(** The axis map that [poll] selects for a product, [None] in the default
    case of its switch. *)
Definition axisMap_of (productId : Z) : option (list Z) :=
  if productId =? PRODUCT_F310 then Some JoystickLinux.F310_MAP
  else if productId =? PRODUCT_SPEKTRUM then Some JoystickLinux.SPEKTRUM_MAP
  else if productId =? PRODUCT_XBOX360_WIRELESS
       then Some JoystickLinux.XBOX360_WIRELESS_MAP
  else if productId =? PRODUCT_REALFLIGHT_INTERLINK
       then Some JoystickLinux.REALFLIGHT_INTERLINK_MAP
  else None.

End Identify.

(** The sign change that [poll] applies to the axes 0 and 2 of its
    output. *)
Definition invert_verticals {float : Type} `{FloatOps float}
    (axes : list float) : list float :=
  alter fneg 2%nat (alter fneg 0%nat axes).

(** Whether [f] holds of the [n] integers from [start] on. *)
Fixpoint all_from (f : Z -> bool) (start : Z) (n : nat) : bool :=
  match n with
  | O => true
  | S n' => f start && all_from f (start + 1) n'
  end.

(** Whether binary32 divides the 16-bit value [v] by 32768 without
    rounding: the quotient has the sign of [v] and a mantissa and an
    exponent that give [|v| / 32768]. *)
Definition axis_value_exact (v : Z) : bool :=
  match (of_int v / of_int 32768 : spec_float)%F with
  | S754_zero false => v =? 0
  | S754_finite s m e =>
      (e <=? -15) && (Z.pos m =? Z.abs v * 2 ^ (- (e + 15)))
      && Bool.eqb s (v <? 0)
  | _ => false
  end.

(** [JOYINFOEX] of the Windows joystick API: the six positions and the
    button mask, each a [DWORD]. *)
Record JOYINFOEX := mkJOYINFOEX {
  dwXpos : Z;
  dwYpos : Z;
  dwZpos : Z;
  dwRpos : Z;
  dwUpos : Z;
  dwVpos : Z;
  dwButtons : Z
}.

(** The conversion of a [DWORD] to [int32_t]. *)
Definition to_int32 (x : Z) : Z := (x + 2 ^ 31) mod 2 ^ 32 - 2 ^ 31.

(** [void AVehiclePawn::joystickPoll(void)]: what it passes to
    [receiver->update], the six axes and the buttons.  [joyGetPosEx] is
    [Some] state when the call fills the structure; its return value is not
    looked at, and when it fills nothing the structure holds what the stack
    held, [stack]. *)
Definition joystickPoll (joyGetPosEx : option JOYINFOEX) (stack : JOYINFOEX)
    : list Z * Z :=
  let joyState := default stack joyGetPosEx in
  ([ to_int32 (dwXpos joyState); to_int32 (dwYpos joyState);
     to_int32 (dwZpos joyState); to_int32 (dwRpos joyState);
     to_int32 (dwUpos joyState); to_int32 (dwVpos joyState) ],
   dwButtons joyState mod 256).

(** ** The threaded worker

    [FThreadedWorker] of [ThreadedWorker.hpp].  [Run] executes on the
    worker's thread and [Stop] on the thread of the caller; the two meet in
    the member [_running], a plain [bool].  The model takes the reads and
    writes of [_running] one at a time, in the order in which the two
    threads make them: a schedule lists the steps, and [step] is defined
    where the worker's thread stands at the point of [Run] that the step
    names. *)

Module FThreadedWorker.

(** Where the worker's thread stands in [Run]: in the initial wait, at the
    test of the [while], before the call of [performTask], or past the
    loop. *)
Inductive point := InitialWait | AtWhile | InBody | Returned.

(** The members [_running], [_startTime] and [_count], the point of [Run]
    reached, and the arguments of the calls of [performTask] so far. *)
Record t (time : Type) : Type := mk {
  _running : bool;
  _startTime : time;
  _count : Z;
  at_point : point;
  performed : list time
}.
Arguments mk {time} _ _ _ _ _.
Arguments _running {time} _.
Arguments _startTime {time} _.
Arguments _count {time} _.
Arguments at_point {time} _.
Arguments performed {time} _.

(** The steps of a schedule: the end of the initial wait
    ([_running = true]), the test [while (_running)], the body of the loop
    with [FPlatformTime::Seconds()] returning [now], and a call of [Stop]
    from outside. *)
Inductive step_t (time : Type) : Type :=
| EndOfWait
| WhileTest
| RunBody (now : time)
| CallStop.
Arguments EndOfWait {time}.
Arguments WhileTest {time}.
Arguments RunBody {time} _.
Arguments CallStop {time}.

Section Run.
Context {time : Type}.

(** The subtraction of [double]. *)
Variable minus : time -> time -> time.

(** [virtual bool Init()]: the thread starts with [_running = false] and
    goes on to [Run], whose first statement is the initial wait. *)
Definition Init (w : t time) : t time :=
  mk false (_startTime w) (_count w) InitialWait (performed w).

(** One step of a schedule; [None] when the worker's thread is not at the
    point of the step. *)
Definition step (ev : step_t time) (w : t time) : option (t time) :=
  match ev, at_point w with
  | CallStop, _ =>
      (* _running = false *)
      Some (mk false (_startTime w) (_count w) (at_point w) (performed w))
  | EndOfWait, InitialWait =>
      (* _running = true *)
      Some (mk true (_startTime w) (_count w) AtWhile (performed w))
  | WhileTest, AtWhile =>
      (* while (_running) *)
      Some (mk (_running w) (_startTime w) (_count w)
               (if _running w then InBody else Returned) (performed w))
  | RunBody now, InBody =>
      (* performTask(FPlatformTime::Seconds() - _startTime); _count++ *)
      Some (mk (_running w) (_startTime w) ((_count w + 1) mod 2 ^ 32)
               AtWhile (performed w ++ [minus now (_startTime w)]))
  | _, _ => None
  end.

Fixpoint run (evs : list (step_t time)) (w : t time) : option (t time) :=
  match evs with
  | [] => Some w
  | ev :: evs' => match step ev w with
                  | Some w' => run evs' w'
                  | None => None
                  end
  end.

(** The values of the clock at the loop bodies of a schedule. *)
Fixpoint clock_of (evs : list (step_t time)) : list time :=
  match evs with
  | [] => []
  | RunBody now :: evs' => now :: clock_of evs'
  | _ :: evs' => clock_of evs'
  end.

(** [n] rounds of the loop, the clock showing [nows] at the bodies. *)
Definition rounds (nows : list time) : list (step_t time) :=
  flat_map (fun now => [WhileTest; RunBody now]) nows.

End Run.

End FThreadedWorker.

(** * Properties *)

(** ** Scalars *)

Ltac exact_arith :=
  cbn [fadd fsub fmul fdiv fneg fabs fltb of_int of_literal fadd_double
       exact_float] in *.

Lemma Qc_of_Z_1 : Q2Qc (inject_Z 1) = 1%Qc.
Proof. apply Qc_is_canon. reflexivity. Qed.

Lemma Qc_of_Z_m1 : Q2Qc (inject_Z (-1)) = (- 1)%Qc.
Proof. apply Qc_is_canon. reflexivity. Qed.

Lemma Qc_of_Z_0 : Q2Qc (inject_Z 0) = 0%Qc.
Proof. apply Qc_is_canon. reflexivity. Qed.

Lemma Qc_of_Z_100_nonzero : Q2Qc (inject_Z 100) <> 0%Qc.
Proof. intros H. apply (f_equal this) in H. vm_compute in H. discriminate H. Qed.

(** ** Rounding

    What [SpecFloat] rounds to, at any precision: a canonical value, of
    the magnitude of the number rounded at least, and with a mantissa no
    less than the one cut from the number. *)

Lemma digits2_pos_bounds (p : positive) :
  2 ^ (Z.pos (digits2_pos p) - 1) <= Z.pos p < 2 ^ Z.pos (digits2_pos p).
Proof.
  induction p as [p IH | p IH |]; cbn [digits2_pos].
  - rewrite Pos2Z.inj_succ.
    replace (Z.succ (Z.pos (digits2_pos p)) - 1)
      with (Z.succ (Z.pos (digits2_pos p) - 1)) by lia.
    rewrite !Z.pow_succ_r by lia. lia.
  - rewrite Pos2Z.inj_succ.
    replace (Z.succ (Z.pos (digits2_pos p)) - 1)
      with (Z.succ (Z.pos (digits2_pos p) - 1)) by lia.
    rewrite !Z.pow_succ_r by lia. lia.
  - cbn. lia.
Qed.

Lemma digits2_pos_le (q : positive) (k : Z) :
  Z.pos q < 2 ^ k -> Z.pos (digits2_pos q) <= k.
Proof.
  intros Hq. pose proof (digits2_pos_bounds q) as [Blo _].
  destruct (Z.leb_spec (Z.pos (digits2_pos q)) k) as [|Hgt]; [assumption|].
  assert (2 ^ k <= 2 ^ (Z.pos (digits2_pos q) - 1))
    by (apply Z.pow_le_mono_r; lia).
  lia.
Qed.

Lemma digits2_pos_ge (q : positive) (k : Z) :
  2 ^ (k - 1) <= Z.pos q -> k <= Z.pos (digits2_pos q).
Proof.
  intros Hq. pose proof (digits2_pos_bounds q) as [_ Bhi].
  destruct (Z.leb_spec k (Z.pos (digits2_pos q))) as [|Hgt]; [assumption|].
  assert (2 ^ Z.pos (digits2_pos q) <= 2 ^ (k - 1))
    by (apply Z.pow_le_mono_r; lia).
  lia.
Qed.

Lemma digits2_pos_mono (p q : positive) :
  (p <= q)%positive -> Z.pos (digits2_pos p) <= Z.pos (digits2_pos q).
Proof.
  intros Hpq. apply digits2_pos_ge.
  pose proof (digits2_pos_bounds p) as [Blo _]. lia.
Qed.

Lemma digits2_pos_iter_xO (m d : positive) :
  Z.pos (digits2_pos (Pos.iter xO m d)) = Z.pos (digits2_pos m) + Z.pos d.
Proof.
  induction d as [|d IH] using Pos.peano_ind.
  - cbn. lia.
  - rewrite Pos.iter_succ. cbn [digits2_pos]. lia.
Qed.

Lemma shr_1_m (mrs : shr_record) :
  0 <= shr_m mrs -> shr_m (shr_1 mrs) = shr_m mrs / 2.
Proof.
  destruct mrs as [m r s]. cbn [shr_m]. intros Hm.
  destruct m as [|p|p]; [reflexivity| |lia].
  destruct p as [p|p|]; cbn [shr_1 shr_m].
  - rewrite Pos2Z.inj_xI. apply Z.div_unique with 1; lia.
  - rewrite Pos2Z.inj_xO. apply Z.div_unique with 0; lia.
  - reflexivity.
Qed.

Lemma iter_pos_shr_1_m (p : positive) (mrs : shr_record) :
  0 <= shr_m mrs ->
  shr_m (SpecFloat.iter_pos shr_1 p mrs) = shr_m mrs / 2 ^ Z.pos p.
Proof.
  assert (Hdiv : forall a b, 0 <= a -> 0 < b -> 0 <= a / b)
    by (intros; apply Z.div_pos; lia).
  revert mrs. induction p as [p IH | p IH |]; intros mrs Hm;
    cbn [SpecFloat.iter_pos].
  - assert (H1 : 0 <= shr_m (shr_1 mrs))
      by (rewrite shr_1_m by lia; apply Hdiv; lia).
    assert (H2 : 0 <= shr_m (SpecFloat.iter_pos shr_1 p (shr_1 mrs)))
      by (rewrite IH by lia; apply Hdiv; lia).
    rewrite IH, IH, shr_1_m by assumption.
    rewrite !Z.div_div by lia. f_equal.
    replace (Z.pos p~1) with (1 + Z.pos p + Z.pos p) by lia.
    rewrite !Z.pow_add_r by lia. change (2 ^ 1) with 2. lia.
  - assert (H2 : 0 <= shr_m (SpecFloat.iter_pos shr_1 p mrs))
      by (rewrite IH by lia; apply Hdiv; lia).
    rewrite IH, IH by assumption.
    rewrite !Z.div_div by lia. f_equal.
    replace (Z.pos p~0) with (Z.pos p + Z.pos p) by lia.
    rewrite !Z.pow_add_r by lia. reflexivity.
  - rewrite shr_1_m by lia. reflexivity.
Qed.

Lemma round_nearest_even_cases (m : Z) (l : location) :
  round_nearest_even m l = m \/ round_nearest_even m l = m + 1.
Proof.
  destruct l as [|[| |]]; cbn; auto. destruct (Z.even m); auto.
Qed.

Lemma iter_xO_pow2 (m d : positive) :
  Z.pos (Pos.iter xO m d) = Z.pos m * 2 ^ Z.pos d.
Proof.
  induction d as [|d IH] using Pos.peano_ind.
  - cbn. lia.
  - rewrite Pos.iter_succ, Pos2Z.inj_xO, IH, Pos2Z.inj_succ.
    rewrite Z.pow_succ_r by lia. lia.
Qed.

Section Rounding.
Variables prec emax : Z.
Hypothesis prec_pos : 0 < prec.

Let emin := SpecFloat.emin prec emax.

Lemma fexp_max (k : Z) : fexp prec emax k = Z.max (k - prec) emin.
Proof. reflexivity. Qed.

Lemma rounded_weaken (s : bool) (k lo lo' : Z) (r : spec_float) :
  rounded prec emax s k lo r -> (emin + prec <= k -> lo' <= lo) ->
  rounded prec emax s k lo' r.
Proof.
  intros [Hvalid Hshape] Hlo. split; [exact Hvalid|]. intros Hk.
  destruct (Hshape Hk) as [Hinf | (m & e & Hfin & Hmag & He & Hm)];
    [left; exact Hinf|].
  right. exists m, e. repeat split; try assumption.
  intros Heq. specialize (Hm Heq). specialize (Hlo Hk). lia.
Qed.

Lemma round_tail (s : bool) (mr f : Z) :
  0 <= mr <= 2 ^ prec -> emin <= f -> (emin < f -> 2 ^ (prec - 1) <= mr) ->
  let r :=
    let '(mrs'', e'') := shr_fexp prec emax mr f loc_Exact in
    match shr_m mrs'' with
    | Z0 => S754_zero s
    | Zpos m => if Z.leb e'' (Z.sub emax prec) then S754_finite s m e''
                else S754_infinity s
    | _ => S754_nan
    end in
  valid_binary prec emax r = true
  /\ (2 ^ (prec - 1) <= mr ->
      r = S754_infinity s
      \/ exists m e, r = S754_finite s m e
                     /\ prec + f <= Z.pos (digits2_pos m) + e
                     /\ f <= e
                     /\ (e = f -> Z.pos m = mr)).
Proof.
  intros [Hlo Hhi] Hf Hbig. unfold shr_fexp. cbn [shr_record_of_loc].
  assert (Hp1 : 0 < 2 ^ (prec - 1)) by (apply Z.pow_pos_nonneg; lia).
  assert (Hpp : 2 ^ prec = 2 * 2 ^ (prec - 1)).
  { replace prec with (Z.succ (prec - 1)) at 1 by lia.
    rewrite Z.pow_succ_r by lia. reflexivity. }
  destruct mr as [|q|q]; [| |lia].
  - cbn [Zdigits2]. rewrite fexp_max.
    destruct (Z.max (0 + f - prec) emin - f) as [|p|p] eqn:En; [|lia|];
      cbn; (split; [reflexivity|lia]).
  - cbn [Zdigits2]. rewrite fexp_max.
    set (dq := Z.pos (digits2_pos q)).
    pose proof (digits2_pos_bounds q) as [Qlo Qhi]. fold dq in Qlo, Qhi.
    destruct (Z.eq_dec (Z.pos q) (2 ^ prec)) as [Hq | Hq].
    + assert (Hdq : dq = prec + 1).
      { apply Z.le_antisymm.
        - apply digits2_pos_le. rewrite Hq.
          apply Z.pow_lt_mono_r; lia.
        - apply digits2_pos_ge. rewrite Hq.
          replace (prec + 1 - 1) with prec by lia. lia. }
      rewrite Hdq.
      replace (Z.max (prec + 1 + f - prec) emin - f) with 1 by lia.
      cbn [shr SpecFloat.iter_pos].
      assert (Hhalf : shr_m (shr_1 {| shr_m := Z.pos q; shr_r := false;
                                      shr_s := false |}) = 2 ^ (prec - 1)).
      { rewrite shr_1_m by (cbn; lia). cbn [shr_m]. rewrite Hq, Hpp.
        rewrite Z.mul_comm, Z.div_mul by lia. reflexivity. }
      destruct (shr_m (shr_1 _)) as [|h|h] eqn:Eh; [lia| |lia].
      assert (Hdh : Z.pos (digits2_pos h) = prec).
      { apply Z.le_antisymm.
        - apply digits2_pos_le. rewrite Hhalf. apply Z.pow_lt_mono_r; lia.
        - apply digits2_pos_ge. lia. }
      destruct (Z.leb_spec (f + 1) (emax - prec)) as [Hle|Hgt].
      * split.
        -- cbn [valid_binary]. unfold bounded, canonical_mantissa.
           rewrite Hdh, fexp_max. apply andb_true_intro.
           split; [apply Z.eqb_eq; lia | apply Z.leb_le; exact Hle].
        -- intros _. right. exists h, (f + 1).
           split; [reflexivity|]. lia.
      * split; [reflexivity|]. intros _. left. reflexivity.
    + assert (Hd24 : dq <= prec) by (apply digits2_pos_le; lia).
      assert (Hd23 : 2 ^ (prec - 1) <= Z.pos q -> prec <= dq)
        by (intros Hb; apply digits2_pos_ge; exact Hb).
      assert (Hn : Z.max (dq + f - prec) emin - f = 0).
      { destruct (Z.eq_dec f emin) as [-> | Hne]; [lia|].
        assert (prec <= dq) by (apply Hd23, Hbig; lia). lia. }
      rewrite Hn. cbn [shr shr_m].
      destruct (Z.leb_spec f (emax - prec)) as [Hle|Hgt].
      * split.
        -- cbn [valid_binary]. unfold bounded, canonical_mantissa. fold dq.
           rewrite fexp_max. apply andb_true_intro.
           split; [apply Z.eqb_eq; lia | apply Z.leb_le; exact Hle].
        -- intros Hb. right. exists q, f. split; [reflexivity|].
           fold dq. specialize (Hd23 Hb). lia.
      * split; [reflexivity|]. intros _. left. reflexivity.
Qed.

Lemma shr_fexp_first (m : positive) (e : Z) (mrs1 : shr_record) (e1 : Z) :
  e <= fexp prec emax (Z.pos (digits2_pos m) + e) ->
  shr_fexp prec emax (Z.pos m) e loc_Exact = (mrs1, e1) ->
  e1 = fexp prec emax (Z.pos (digits2_pos m) + e)
  /\ shr_m mrs1 = Z.pos m / 2 ^ (e1 - e)
  /\ 0 <= shr_m mrs1 < 2 ^ prec
  /\ (emin < e1 -> 2 ^ (prec - 1) <= shr_m mrs1)
  /\ (emin + prec <= Z.pos (digits2_pos m) + e -> 2 ^ (prec - 1) <= shr_m mrs1).
Proof.
  intros HP. unfold shr_fexp. cbn [Zdigits2 shr_record_of_loc].
  set (d := Z.pos (digits2_pos m)) in *.
  pose proof (digits2_pos_bounds m) as [Dlo Dhi]. fold d in Dlo, Dhi.
  rewrite fexp_max in *.
  destruct (Z.max (d + e - prec) emin - e) as [|p|p] eqn:En; [| |lia];
    cbn [shr]; intros Heq; injection Heq as <- <-.
  - cbn [shr_m]. split; [lia|].
    split; [rewrite Z.sub_diag; change (2 ^ 0) with 1; rewrite Z.div_1_r;
            reflexivity|].
    split; [split; [lia|]|split].
    + eapply Z.lt_le_trans; [exact Dhi|]. apply Z.pow_le_mono_r; lia.
    + intros Hb. eapply Z.le_trans; [|exact Dlo]. apply Z.pow_le_mono_r; lia.
    + intros Hb. eapply Z.le_trans; [|exact Dlo]. apply Z.pow_le_mono_r; lia.
  - assert (Hpow : 0 < 2 ^ Z.pos p) by (apply Z.pow_pos_nonneg; lia).
    rewrite iter_pos_shr_1_m by (cbn; lia). cbn [shr_m].
    split; [lia|].
    split; [replace (e + Z.pos p - e) with (Z.pos p) by lia; reflexivity|].
    split; [split|split].
    + apply Z.div_pos; lia.
    + apply Z.div_lt_upper_bound; [lia|].
      rewrite <- Z.pow_add_r by lia.
      eapply Z.lt_le_trans; [exact Dhi|]. apply Z.pow_le_mono_r; lia.
    + intros Hb. apply Z.div_le_lower_bound; [lia|].
      rewrite <- Z.pow_add_r by lia.
      eapply Z.le_trans; [|exact Dlo]. apply Z.pow_le_mono_r; lia.
    + intros Hb. apply Z.div_le_lower_bound; [lia|].
      rewrite <- Z.pow_add_r by lia.
      eapply Z.le_trans; [|exact Dlo]. apply Z.pow_le_mono_r; lia.
Qed.

Lemma binary_round_aux_rounded (s : bool) (m : positive) (e : Z) :
  e <= fexp prec emax (Z.pos (digits2_pos m) + e) ->
  rounded prec emax s (Z.pos (digits2_pos m) + e)
          (Z.pos m / 2 ^ (fexp prec emax (Z.pos (digits2_pos m) + e) - e))
          (binary_round_aux prec emax s (Z.pos m) e loc_Exact).
Proof.
  intros HP. unfold binary_round_aux.
  destruct (shr_fexp prec emax (Z.pos m) e loc_Exact) as [mrs1 e1] eqn:E1.
  destruct (shr_fexp_first m e mrs1 e1 HP E1)
    as (He1 & Hval & [Hlo Hhi] & Hbig & Hnormal).
  rewrite <- He1, <- Hval. rewrite fexp_max in He1.
  set (mr := round_nearest_even (shr_m mrs1) (loc_of_shr_record mrs1)).
  assert (Hmr : mr = shr_m mrs1 \/ mr = shr_m mrs1 + 1)
    by apply round_nearest_even_cases.
  destruct (round_tail s mr e1) as [Hvalid Hshape].
  - lia.
  - lia.
  - intros Hb. specialize (Hbig Hb). lia.
  - split; [exact Hvalid|]. intros Hk.
    destruct Hshape as [Hinf | (m' & e' & Hfin & Hmag & He' & Hm')].
    + specialize (Hnormal Hk). lia.
    + left. exact Hinf.
    + right. exists m', e'. split; [exact Hfin|].
      split; [lia|]. split; [lia|]. intros Heq.
      rewrite Hm' by lia. lia.
Qed.

Lemma binary_round_rounded (s : bool) (m : positive) (e : Z) :
  rounded prec emax s (Z.pos (digits2_pos m) + e)
          (Z.shiftl (Z.pos m) (prec - Z.pos (digits2_pos m)))
          (binary_round prec emax s m e).
Proof.
  unfold binary_round, shl_align.
  set (d := Z.pos (digits2_pos m)). rewrite fexp_max.
  assert (Hcut : forall n, n = d - prec -> prec - d <= 0 ->
            Z.shiftl (Z.pos m) (prec - d) <= Z.pos m / 2 ^ n).
  { intros n -> Hle. rewrite Z.shiftl_div_pow2 by lia.
    replace (- (prec - d)) with (d - prec) by lia. lia. }
  destruct (Z.max (d + e - prec) emin - e) as [|p|p] eqn:En.
  - eapply rounded_weaken.
    + apply binary_round_aux_rounded. fold d. rewrite fexp_max. lia.
    + intros Hk. fold d. rewrite fexp_max.
      destruct (Z.le_gt_cases (prec - d) 0) as [Hle | Hgt]; [|lia].
      apply Hcut; lia.
  - eapply rounded_weaken.
    + apply binary_round_aux_rounded. fold d. rewrite fexp_max. lia.
    + intros Hk. fold d. rewrite fexp_max.
      destruct (Z.le_gt_cases (prec - d) 0) as [Hle | Hgt]; [|lia].
      apply Hcut; lia.
  - assert (Hk : Z.pos (digits2_pos (Pos.iter xO m p))
                 + Z.max (d + e - prec) emin = d + e)
      by (rewrite digits2_pos_iter_xO; fold d; lia).
    pose proof (binary_round_aux_rounded s (Pos.iter xO m p)
                  (Z.max (d + e - prec) emin)) as R.
    rewrite Hk in R. eapply rounded_weaken.
    + apply R. rewrite fexp_max. lia.
    + intros Hn. rewrite fexp_max.
      replace (Z.max (d + e - prec) emin - Z.max (d + e - prec) emin)
        with 0 by lia.
      rewrite Z.div_1_r, iter_xO_pow2.
      rewrite Z.shiftl_mul_pow2 by lia.
      replace (prec - d) with (Z.pos p) by lia. lia.
Qed.

Lemma binary_normalize_valid (m e : Z) (sz : bool) :
  valid_binary prec emax (binary_normalize prec emax m e sz) = true.
Proof.
  destruct m; cbn [binary_normalize]; [reflexivity| |];
    apply binary_round_rounded.
Qed.

Lemma SFadd_valid (x y : spec_float) :
  valid_binary prec emax x = true -> valid_binary prec emax y = true ->
  valid_binary prec emax (SFadd prec emax x y) = true.
Proof.
  intros Hx Hy.
  destruct x as [sx|sx| |sx mx ex], y as [sy|sy| |sy my ey];
    try assumption; try reflexivity;
    try (destruct sx, sy; reflexivity).
  apply binary_normalize_valid.
Qed.

Lemma SFsub_valid (x y : spec_float) :
  valid_binary prec emax x = true -> valid_binary prec emax y = true ->
  valid_binary prec emax (SFsub prec emax x y) = true.
Proof.
  intros Hx Hy.
  destruct x as [sx|sx| |sx mx ex], y as [sy|sy| |sy my ey];
    try assumption; try reflexivity;
    try (destruct sx, sy; reflexivity).
  apply binary_normalize_valid.
Qed.

End Rounding.

(** The sums and differences of binary32 are canonical binary32 values. *)
Lemma binary32_add_valid (x y : spec_float) :
  Binary32.valid x = true -> Binary32.valid y = true ->
  Binary32.valid (SFadd Binary32.prec Binary32.emax x y) = true.
Proof. apply SFadd_valid. reflexivity. Qed.

Lemma binary32_sub_valid (x y : spec_float) :
  Binary32.valid x = true -> Binary32.valid y = true ->
  Binary32.valid (SFsub Binary32.prec Binary32.emax x y) = true.
Proof. apply SFsub_valid. reflexivity. Qed.

(** ** Sign and magnitude *)

(** In exact arithmetic the sign times the magnitude is the number. *)
Lemma exact_sign_times_fabs (v : Qc) :
  ((if fltb v (of_int 0) then of_int (-1) else of_int 1) * fabs v)%F = v.
Proof.
  exact_arith. rewrite Qc_of_Z_1, Qc_of_Z_m1, Qc_of_Z_0.
  case_bool_decide as Hv.
  - rewrite Qcabs_neg by (apply Qclt_le_weak; exact Hv). ring.
  - rewrite Qcabs_pos by (apply Qcnot_lt_le; exact Hv). ring.
Qed.

Lemma digits2_pos_shift_23 (m : positive) :
  Z.pos (digits2_pos
           (m~0~0~0~0~0~0~0~0~0~0~0~0~0~0~0~0~0~0~0~0~0~0~0)%positive)
  = Z.pos (digits2_pos m) + 23.
Proof. cbn [digits2_pos]. lia. Qed.

Lemma shr_1_23_times (m : positive) :
  SpecFloat.iter_pos shr_1 23
    {| shr_m := Z.pos (m~0~0~0~0~0~0~0~0~0~0~0~0~0~0~0~0~0~0~0~0~0~0~0);
       shr_r := false; shr_s := false |}
  = {| shr_m := Z.pos m; shr_r := false; shr_s := false |}.
Proof. reflexivity. Qed.

(** In binary32 the product of a canonical magnitude with plus or minus one
    is that magnitude with the sign of the unit: nothing is rounded. *)
Lemma binary32_times_one (s : bool) (m : positive) (e : Z) :
  valid_binary Binary32.prec Binary32.emax (S754_finite false m e) = true ->
  SFmul Binary32.prec Binary32.emax
        (S754_finite s 8388608 (-23)) (S754_finite false m e)
  = S754_finite s m e.
Proof.
  cbn [valid_binary]. unfold bounded, canonical_mantissa.
  intros Hv. apply andb_prop in Hv. destruct Hv as [Hc He].
  apply Z.eqb_eq in Hc. apply Z.leb_le in He.
  unfold SFmul, binary_round_aux, shr_fexp.
  change (PosDef.Pos.mul 8388608 m)
    with (m~0~0~0~0~0~0~0~0~0~0~0~0~0~0~0~0~0~0~0~0~0~0~0)%positive.
  cbn [Zdigits2]. rewrite digits2_pos_shift_23.
  replace (Z.pos (digits2_pos m) + 23 + (-23 + e))
    with (Z.pos (digits2_pos m) + e) by lia.
  rewrite Hc. replace (e - (-23 + e)) with 23 by lia.
  cbn [shr shr_record_of_loc]. rewrite shr_1_23_times.
  cbn [shr_m loc_of_shr_record round_nearest_even Zdigits2].
  replace (-23 + e + 23) with e by lia.
  rewrite Hc, Z.sub_diag. cbn [shr shr_m].
  destruct (Z.leb_spec e (Binary32.emax - Binary32.prec)); [|lia].
  destruct s; reflexivity.
Qed.

(** In binary32 the sign times the magnitude is the same number as the
    value: the value itself, except that the negative zero comes back as
    the positive one. *)
Lemma binary32_sign_times_fabs (v : spec_float) :
  Binary32.valid v = true ->
  same_number
    ((if fltb v (of_int 0) then of_int (-1) else of_int 1) * fabs v)%F v.
Proof.
  intros Hv. destruct v as [s | s | | s m e].
  - right. exists false, s. split; [destruct s|]; reflexivity.
  - left. destruct s; reflexivity.
  - left. reflexivity.
  - left. destruct s.
    + change (SFmul Binary32.prec Binary32.emax
                (S754_finite true 8388608 (-23)) (S754_finite false m e)
              = S754_finite true m e).
      apply (binary32_times_one true). exact Hv.
    + change (SFmul Binary32.prec Binary32.emax
                (S754_finite false 8388608 (-23)) (S754_finite false m e)
              = S754_finite false m e).
      apply (binary32_times_one false). exact Hv.
Qed.

(** ** Motors to angular forces *)

Lemma motorsToAngularForce_exact (m : list Qc) (a b c d : Z) :
  motorsToAngularForce m a b c d = signed_difference m a b c d.
Proof.
  unfold motorsToAngularForce, signed_difference. cbv zeta.
  apply exact_sign_times_fabs.
Qed.

Lemma motorval_valid (m : list spec_float) (k : Z) :
  Forall (fun x => Binary32.valid x = true) m ->
  Binary32.valid (motorval m k) = true.
Proof.
  intros Hm. unfold motorval. destruct (k <? 0); [reflexivity|].
  destruct (m !! Z.to_nat k) as [x|] eqn:Hx; [|reflexivity].
  cbn [default]. rewrite Forall_forall in Hm. apply Hm.
  apply list_elem_of_In. eapply list_elem_of_lookup_2. exact Hx.
Qed.

Lemma signed_difference_valid (m : list spec_float) (a b c d : Z) :
  Forall (fun x => Binary32.valid x = true) m ->
  Binary32.valid (signed_difference m a b c d) = true.
Proof.
  intros Hm. unfold signed_difference.
  apply binary32_sub_valid; apply binary32_add_valid; apply motorval_valid;
    exact Hm.
Qed.

Lemma motorsToAngularForce_binary32 (m : list spec_float) (a b c d : Z) :
  Forall (fun x => Binary32.valid x = true) m ->
  same_number (motorsToAngularForce m a b c d) (signed_difference m a b c d).
Proof.
  intros Hm. pose proof (signed_difference_valid m a b c d Hm) as Hv.
  unfold motorsToAngularForce, signed_difference in *. cbv zeta.
  apply binary32_sign_times_fabs. exact Hv.
Qed.

(** C10: for every motor command vector and all indices,
    [motorsToAngularForce] returns the plain signed difference
    [(motor[a] + motor[b]) - (motor[c] + motor[d])]: multiplying the
    magnitude by the extracted sign gives the value back.  In exact
    arithmetic the two are equal.  In binary32, for every vector of
    binary32 values, the product rounds nothing and the two are the same
    number: the difference itself, and the positive zero where the
    difference is the negative one. *)
Theorem motorsToAngularForce_is_signed_difference :
  (forall (m : list Qc) (a b c d : Z),
     motorsToAngularForce m a b c d = signed_difference m a b c d)
  /\ (forall (m : list spec_float) (a b c d : Z),
        Forall (fun x => Binary32.valid x = true) m ->
        same_number (motorsToAngularForce m a b c d)
                    (signed_difference m a b c d)).
Proof.
  split.
  - exact motorsToAngularForce_exact.
  - exact motorsToAngularForce_binary32.
Qed.

Lemma motorsToAngularForce_is_signed_difference_witness :
  same_number
    (motorsToAngularForce
       ([of_int 1; of_int 0; of_int 0; of_int 0] : list spec_float) 2 3 0 1)
    (of_int (-1)).
Proof.
  refine (proj2 motorsToAngularForce_is_signed_difference
            ([of_int 1; of_int 0; of_int 0; of_int 0] : list spec_float)
            2 3 0 1 _).
  repeat constructor.
Defined.

(** C1, as stated, fails: the call [motorsToAngularForce(2, 3, 0, 1)]
    returns neither [+1] on [[1,0,1,0]] nor [-1] on [[0,1,0,1]], be the
    arithmetic exact or binary32. *)
Lemma motorsToAngularForce_1010_not_unit :
  (motorsToAngularForce (motors_1010 : list Qc) 2 3 0 1 <> of_int 1
   /\ motorsToAngularForce (motors_0101 : list Qc) 2 3 0 1 <> of_int (-1))
  /\ (motorsToAngularForce (motors_1010 : list spec_float) 2 3 0 1 <> of_int 1
      /\ motorsToAngularForce (motors_0101 : list spec_float) 2 3 0 1
         <> of_int (-1)).
Proof.
  split; split; intros H.
  - apply (f_equal this) in H; vm_compute in H; discriminate H.
  - apply (f_equal this) in H; vm_compute in H; discriminate H.
  - vm_compute in H; discriminate H.
  - vm_compute in H; discriminate H.
Qed.

(** C1, amended: on [[1,0,1,0]] and on [[0,1,0,1]] the call
    [motorsToAngularForce(2, 3, 0, 1)] returns 0, since motors 2 and 3
    together spin as much as motors 0 and 1; in binary32 it is the
    positive zero. *)
Theorem motorsToAngularForce_1010_0101 :
  (motorsToAngularForce (motors_1010 : list Qc) 2 3 0 1 = 0%Qc
   /\ motorsToAngularForce (motors_0101 : list Qc) 2 3 0 1 = 0%Qc)
  /\ (motorsToAngularForce (motors_1010 : list spec_float) 2 3 0 1
      = S754_zero false
      /\ motorsToAngularForce (motors_0101 : list spec_float) 2 3 0 1
         = S754_zero false).
Proof.
  split; split; try (apply Qc_is_canon); vm_compute; reflexivity.
Qed.

(** The asymmetry of these two vectors is seen by the call that [Tick]
    makes for its second force. *)
Lemma motorsToAngularForce_1010_0101_second :
  motorsToAngularForce (motors_1010 : list spec_float) 1 3 0 2 = of_int (-2)
  /\ motorsToAngularForce (motors_0101 : list spec_float) 1 3 0 2 = of_int 2.
Proof. split; vm_compute; reflexivity. Qed.

(** ** Board calls and the sensor history

    No board method writes the members from which [Tick] derives the
    emulated sensors, whatever the arithmetic. *)

Section SensorHistory.
Context {float : Type} `{FloatOps float}.

Lemma board_call_sensor_members (c : BoardCall float)
    (w : Server * Pawn float) :
  sensor_members (snd (snd (board_call c w))) = sensor_members (snd w).
Proof.
  destruct w as [srv s]. destruct c; cbn; try reflexivity.
  unfold serialAvailableBytes.
  destruct (0 <? _serverAvailableBytes s); [reflexivity|].
  destruct (ThreadedSocketServer.connected srv); [|reflexivity].
  unfold ThreadedSocketServer.receiveBuffer.
  destruct (srv_incoming srv (srv_receives srv)) as [r buf]. reflexivity.
Qed.

Lemma board_calls_sensor_members (cs : list (BoardCall float))
    (w : Server * Pawn float) :
  sensor_members (snd (snd (board_calls cs w))) = sensor_members (snd w).
Proof.
  revert w. induction cs as [|c cs IH]; intros w; [reflexivity|].
  cbn [board_calls].
  pose proof (board_call_sensor_members c w) as Hc.
  destruct (board_call c w) as [r w1]. specialize (IH w1).
  destruct (board_calls cs w1) as [rs w2]. cbn in *. congruence.
Qed.

Lemma board_calls_eulerPrev (cs : list (BoardCall float))
    (w : Server * Pawn float) :
  _eulerPrev (snd (snd (board_calls cs w))) = _eulerPrev (snd w).
Proof.
  pose proof (board_calls_sensor_members cs w) as Hm.
  unfold sensor_members in Hm. congruence.
Qed.

Lemma board_calls_varioPrev (cs : list (BoardCall float))
    (w : Server * Pawn float) :
  _varioPrev (snd (snd (board_calls cs w))) = _varioPrev (snd w).
Proof.
  pose proof (board_calls_sensor_members cs w) as Hm.
  unfold sensor_members in Hm. congruence.
Qed.

(** What one [Tick] leaves in the sensor members. *)
Lemma Tick_sensors (update : list (BoardCall float)) (host : Host float)
    (dt : float) (w : Server * Pawn float) :
  let s' := snd (snd (Tick update host dt w)) in
  _gyro s' = FVector.div (FVector.sub (eulerAngles host) (_eulerPrev (snd w))) dt
  /\ _eulerPrev s' = eulerAngles host
  /\ _accelZ s' = ((velocityZ host / of_int 100 - _varioPrev (snd w)) / dt)%F
  /\ _varioPrev s' = (velocityZ host / of_int 100)%F
  /\ _quat s' = actorQuat host.
Proof.
  unfold Tick.
  pose proof (board_calls_eulerPrev update w) as He.
  pose proof (board_calls_varioPrev update w) as Hv.
  destruct (board_calls update w) as [rs [srv s]]. cbn in *.
  rewrite He, Hv. repeat split; reflexivity.
Qed.

End SensorHistory.

(** ** Emulated gyrometer *)

Lemma Tick_getGyrometer_any {float : Type} `{FloatOps float}
    (update : list (BoardCall float)) (host : Host float)
    (DeltaSeconds : float) (w : Server * Pawn float) :
  let prev := _eulerPrev (snd w) in
  let euler := eulerAngles host in
  let s' := snd (snd (Tick update host DeltaSeconds w)) in
  getGyrometer s'
  = (true, [ ((FVector.X euler - FVector.X prev) / DeltaSeconds)%F;
             ((FVector.Y euler - FVector.Y prev) / DeltaSeconds)%F;
             of_int 0 ])
  /\ _eulerPrev s' = euler.
Proof.
  intros prev euler s'.
  destruct (Tick_sensors update host DeltaSeconds w) as (Hg & He & _).
  fold s' in Hg, He. unfold getGyrometer. rewrite Hg. split; [|exact He].
  reflexivity.
Qed.

Lemma binary32_sub_diag (x : spec_float) :
  Binary32.is_finite x = true -> (x - x)%F = S754_zero false.
Proof.
  destruct x as [s | s | | s m e]; try discriminate; intros _.
  - destruct s; reflexivity.
  - cbn [fsub binary32_float]. unfold SFsub, shl_align.
    rewrite Z.min_id. rewrite (Z.sub_diag e). cbn [fst].
    rewrite Z.sub_diag. reflexivity.
Qed.

Lemma binary32_zero_div (s : bool) (dt : spec_float) :
  Binary32.is_nonzero dt = true ->
  exists s', (S754_zero s / dt)%F = S754_zero s'.
Proof.
  destruct dt as [t | t | | t m e]; try discriminate; intros _;
    eexists; reflexivity.
Qed.

Section GyroSession.
Context {float : Type} `{FloatOps float}.

Lemma session_app (fs1 fs2 : list (Frame float)) (w : Server * Pawn float) :
  session (fs1 ++ fs2) w
  = (fst (session fs1 w) ++ fst (session fs2 (snd (session fs1 w))),
     snd (session fs2 (snd (session fs1 w)))).
Proof.
  revert w. induction fs1 as [|[[u h] dt] fs1 IH]; intros w.
  - cbn. destruct (session fs2 w). reflexivity.
  - cbn [app session]. rewrite IH.
    destruct (session fs1 (snd (Tick u h dt w))) as [rs1 w1].
    cbn [fst snd]. rewrite app_assoc. reflexivity.
Qed.

Lemma session_two (u1 u2 : list (BoardCall float)) (h1 h2 : Host float)
    (dt1 dt2 : float) (w : Server * Pawn float) :
  fst (session [(u1, h1, dt1); (u2, h2, dt2)] w)
  = fst (board_calls u1 w) ++ fst (board_calls u2 (snd (Tick u1 h1 dt1 w))).
Proof. cbn. rewrite app_nil_r. reflexivity. Qed.

Lemma board_calls_gyro (cs : list (BoardCall float))
    (w : Server * Pawn float) :
  _gyro (snd (snd (board_calls cs w))) = _gyro (snd w).
Proof.
  pose proof (board_calls_sensor_members cs w) as Hm.
  unfold sensor_members in Hm. congruence.
Qed.

Lemma board_call_gyros (c : BoardCall float) (w : Server * Pawn float) :
  gyros_of [fst (board_call c w)]
  = replicate (gyro_calls [c]) (getGyrometer (snd w)).
Proof.
  destruct w as [srv s]. destruct c; cbn [board_call]; try reflexivity.
  unfold serialAvailableBytes.
  destruct (0 <? _serverAvailableBytes s); [reflexivity|].
  destruct (ThreadedSocketServer.connected srv); [|reflexivity].
  unfold ThreadedSocketServer.receiveBuffer.
  destruct (srv_incoming srv (srv_receives srv)). reflexivity.
Qed.

Lemma gyros_of_app (rs1 rs2 : list (BoardReturn float)) :
  gyros_of (rs1 ++ rs2) = gyros_of rs1 ++ gyros_of rs2.
Proof.
  induction rs1 as [|r rs1 IH]; [reflexivity|].
  destruct r; cbn [app gyros_of]; rewrite IH; reflexivity.
Qed.

(** Within an update every [getGyrometer] returns the [_gyro] that the
    update found. *)
Lemma board_calls_gyros (cs : list (BoardCall float))
    (w : Server * Pawn float) :
  gyros_of (fst (board_calls cs w))
  = replicate (gyro_calls cs) (getGyrometer (snd w)).
Proof.
  revert w. induction cs as [|c cs IH]; intros w; [reflexivity|].
  cbn [board_calls].
  pose proof (board_call_gyros c w) as Hc.
  pose proof (board_calls_gyro [c] w) as Hg. cbn [board_calls] in Hg.
  destruct (board_call c w) as [r w1]. cbn [fst snd] in Hc, Hg.
  specialize (IH w1).
  destruct (board_calls cs w1) as [rs w2]. cbn [fst snd] in *.
  change (r :: rs) with ([r] ++ rs). rewrite gyros_of_app, Hc, IH.
  unfold getGyrometer. rewrite Hg.
  assert (Hn : gyro_calls (c :: cs) = (gyro_calls [c] + gyro_calls cs)%nat)
    by (destruct c; reflexivity).
  rewrite Hn, replicate_add. reflexivity.
Qed.

End GyroSession.

(** C4, as stated, fails: the firmware calls [getGyrometer] inside
    [hackflight.update()], which [Tick] runs before it computes [_gyro].
    In a session of two ticks with frame time 1 and Euler angles (1, 2, 3)
    and then (2.5, 2, 3), started by [BeginPlay] on a pawn at rest, the
    call in the first tick returns (0, 0, 0), where the difference of that
    tick is (1, 2, 0), and the call in the second tick returns (1, 2, 0),
    where the difference of that tick is (1.5, 0, 0). *)
Lemma getGyrometer_reads_last_tick :
  let e1 : FVector.t spec_float :=
    FVector.mk (of_int 1) (of_int 2) (of_int 3) in
  let e2 : FVector.t spec_float :=
    FVector.mk (of_literal 5 2) (of_int 2) (of_int 3) in
  let dt : spec_float := of_int 1 in
  let difference (euler prev : FVector.t spec_float) :=
    (true, [ ((FVector.X euler - FVector.X prev) / dt)%F;
             ((FVector.Y euler - FVector.Y prev) / dt)%F;
             of_int 0 ]) in
  gyros_of (fst (session [ ([GetGyrometer], host_turned e1, dt);
                           ([GetGyrometer], host_turned e2, dt) ]
                         (server_idle, BeginPlay true pawn_at_rest)))
  = [ (true, [of_int 0; of_int 0; of_int 0]);
      (true, [of_int 1; of_int 2; of_int 0]) ]
  /\ (true, [of_int 0; of_int 0; of_int 0]) <> difference e1 FVector.zero
  /\ difference e1 FVector.zero = (true, [of_int 1; of_int 2; of_int 0])
  /\ (true, [of_int 1; of_int 2; of_int 0]) <> difference e2 e1
  /\ difference e2 e1 = (true, [of_literal 3 2; of_int 0; of_int 0]).
Proof.
  vm_compute. repeat split; discriminate.
Qed.

(** C4, amended: [getGyrometer] returns [_gyro.X], [_gyro.Y] and the
    constant 0, so that the yaw rate is zero whatever the history.  [Tick]
    runs the firmware update first and then sets [_gyro] to the difference
    of the current and the previous Euler angles over the frame time and
    retains the current angles.  Hence in every tick of every session, in
    any arithmetic, each [getGyrometer] call of the firmware returns the
    roll and pitch of the [_gyro] that the tick found: in a tick that
    follows another, the difference that the tick before computed from its
    own angles, the angles before those and its own frame time; in the
    first tick, what [_gyro] held before, which [BeginPlay] does not reset
    (it zeroes the previous angles only).  When the angles of a tick equal
    the retained ones, the calls of the next tick return the zero vector
    for every frame time other than zero: in exact arithmetic, and in
    binary32 where the retained roll and pitch are finite and the frame
    time is a number other than zero (the zeros may carry a sign). *)
Theorem getGyrometer_session :
  (forall (float : Type) (ops : FloatOps float) (pre : list (Frame float))
          (u1 u2 : list (BoardCall float)) (h1 h2 : Host float)
          (dt1 dt2 : float) (w0 : Server * Pawn float),
     let w1 := snd (session pre w0) in
     let w2 := snd (Tick u1 h1 dt1 w1) in
     let found := _gyro (snd w1) in
     let prev := _eulerPrev (snd w1) in
     let euler := eulerAngles h1 in
     let rates := [ ((FVector.X euler - FVector.X prev) / dt1)%F;
                    ((FVector.Y euler - FVector.Y prev) / dt1)%F;
                    of_int 0 ] in
     fst (session (pre ++ [(u1, h1, dt1); (u2, h2, dt2)]) w0)
     = fst (session pre w0)
       ++ fst (board_calls u1 w1) ++ fst (board_calls u2 w2)
     /\ gyros_of (fst (board_calls u1 w1))
        = replicate (gyro_calls u1)
            (true, [FVector.X found; FVector.Y found; of_int 0])
     /\ getGyrometer (snd w2) = (true, rates)
     /\ gyros_of (fst (board_calls u2 w2))
        = replicate (gyro_calls u2) (true, rates)
     /\ _eulerPrev (snd w2) = euler)
  /\ (forall (float : Type) (ops : FloatOps float) (started : bool)
             (s0 : Pawn float),
        _eulerPrev (BeginPlay started s0) = FVector.zero
        /\ _gyro (BeginPlay started s0) = _gyro s0)
  /\ (forall (u1 u2 : list (BoardCall Qc)) (h1 : Host Qc) (dt1 : Qc)
             (w1 : Server * Pawn Qc),
        dt1 <> 0%Qc ->
        eulerAngles h1 = _eulerPrev (snd w1) ->
        gyros_of (fst (board_calls u2 (snd (Tick u1 h1 dt1 w1))))
        = replicate (gyro_calls u2) (true, [0%Qc; 0%Qc; 0%Qc]))
  /\ (forall (u1 u2 : list (BoardCall spec_float)) (h1 : Host spec_float)
             (dt1 : spec_float) (w1 : Server * Pawn spec_float),
        Binary32.is_finite (FVector.X (_eulerPrev (snd w1))) = true ->
        Binary32.is_finite (FVector.Y (_eulerPrev (snd w1))) = true ->
        Binary32.is_nonzero dt1 = true ->
        eulerAngles h1 = _eulerPrev (snd w1) ->
        exists sx sy,
          gyros_of (fst (board_calls u2 (snd (Tick u1 h1 dt1 w1))))
          = replicate (gyro_calls u2)
              (true, [S754_zero sx; S754_zero sy; S754_zero false])).
Proof.
  split; [|split; [|split]].
  - intros float ops pre u1 u2 h1 h2 dt1 dt2 w0 w1 w2 found prev euler rates.
    destruct (Tick_getGyrometer_any u1 h1 dt1 w1) as [Hg He].
    fold w2 prev euler rates in Hg, He.
    split; [|split; [|split; [|split]]].
    + rewrite session_app, session_two. reflexivity.
    + rewrite board_calls_gyros. reflexivity.
    + exact Hg.
    + rewrite board_calls_gyros, Hg. reflexivity.
    + exact He.
  - intros float ops started s0. split; reflexivity.
  - intros u1 u2 h1 dt1 w1 Hdt Heq.
    destruct (Tick_getGyrometer_any u1 h1 dt1 w1) as [Hg _].
    rewrite board_calls_gyros, Hg, Heq. f_equal.
    exact_arith. rewrite Qc_of_Z_0. repeat f_equal; field; exact Hdt.
  - intros u1 u2 h1 dt1 w1 Hx Hy Hdt Heq.
    destruct (Tick_getGyrometer_any u1 h1 dt1 w1) as [Hg _].
    destruct (binary32_zero_div false dt1 Hdt) as [s' Hs'].
    exists s', s'. rewrite board_calls_gyros, Hg, Heq.
    rewrite (binary32_sub_diag _ Hx), (binary32_sub_diag _ Hy), Hs'.
    reflexivity.
Qed.

Lemma getGyrometer_session_witness :
  let e : FVector.t Qc := FVector.mk (Q2Qc 1) (Q2Qc 2) (Q2Qc 3) in
  let w1 : Server * Pawn Qc :=
    snd (session [([GetGyrometer], host_turned e, Q2Qc 1)]
           (server_idle,
            BeginPlay true
              (pawn_with_gyro (FVector.mk (Q2Qc 5) (Q2Qc 6) (Q2Qc 7))))) in
  gyros_of (fst (board_calls [GetGyrometer; GetTime; GetGyrometer]
                   (snd (Tick [GetTime] (host_turned e) (Q2Qc (1 # 50)) w1))))
  = [(true, [0%Qc; 0%Qc; 0%Qc]); (true, [0%Qc; 0%Qc; 0%Qc])].
Proof.
  intros e w1.
  refine (proj1 (proj2 (proj2 getGyrometer_session))
            [GetTime] [GetGyrometer; GetTime; GetGyrometer]
            (host_turned e) (Q2Qc (1 # 50)) w1 _ _).
  - intros E. apply (f_equal this) in E. vm_compute in E. discriminate E.
  - reflexivity.
Defined.

(** ** Emulated vertical acceleration *)

(** C9, as stated, fails in binary32.  With the vertical velocity 0 in one
    tick and 3 in the next and a frame time of 1, the acceleration is
    12079595 * 2^-27; with both velocities tripled it is 12079596 * 2^-27,
    which is not three times the former. *)
Lemma Tick_accelZ_not_linear_binary32 :
  let k : spec_float := of_int 3 in
  let f1 : Frame spec_float := ([], host_climbing (of_int 0), of_int 1) in
  let f2 : Frame spec_float := ([], host_climbing (of_int 3), of_int 1) in
  let f1' : Frame spec_float :=
    ([], scale_velocityZ k (host_climbing (of_int 0)), of_int 1) in
  let f2' : Frame spec_float :=
    ([], scale_velocityZ k (host_climbing (of_int 3)), of_int 1) in
  accelZ_after f1' f2' (server_idle, pawn_at_rest)
  = S754_finite false 12079596 (-27)
  /\ (k * accelZ_after f1 f2 (server_idle, pawn_at_rest))%F
     = S754_finite false 12079595 (-27)
  /\ accelZ_after f1' f2' (server_idle, pawn_at_rest)
     <> (k * accelZ_after f1 f2 (server_idle, pawn_at_rest))%F.
Proof. vm_compute. repeat split; discriminate. Qed.

Lemma accelZ_after_any {float : Type} `{FloatOps float}
    (u1 u2 : list (BoardCall float)) (h1 h2 : Host float) (dt1 dt2 : float)
    (w : Server * Pawn float) :
  accelZ_after (u1, h1, dt1) (u2, h2, dt2) w
  = ((velocityZ h2 / of_int 100 - velocityZ h1 / of_int 100) / dt2)%F.
Proof.
  unfold accelZ_after.
  destruct (Tick_sensors u2 h2 dt2 (snd (Tick u1 h1 dt1 w))) as (_ & _ & Ha & _).
  destruct (Tick_sensors u1 h1 dt1 w) as (_ & _ & _ & Hb & _).
  cbv zeta in *. rewrite Ha, Hb. reflexivity.
Qed.

(** C9, amended: the vertical acceleration that a tick computes is the
    first difference of the vertical velocities (in m/s) of this tick and
    the one before over the frame time, in either arithmetic.  In exact
    arithmetic it is linear in the two velocity samples: with both scaled
    by [k], and the frame time fixed and not zero, the acceleration is [k]
    times the one computed from the unscaled velocities. *)
Theorem Tick_accelZ_linear :
  (forall (float : Type) (ops : FloatOps float)
          (u1 u2 : list (BoardCall float)) (h1 h2 : Host float)
          (dt1 dt2 : float) (w : Server * Pawn float),
     accelZ_after (u1, h1, dt1) (u2, h2, dt2) w
     = ((velocityZ h2 / of_int 100 - velocityZ h1 / of_int 100) / dt2)%F)
  /\ (forall (k : Qc) (u1 u2 : list (BoardCall Qc)) (h1 h2 : Host Qc)
             (dt1 dt2 : Qc) (w : Server * Pawn Qc),
        dt2 <> 0%Qc ->
        accelZ_after (u1, scale_velocityZ k h1, dt1)
                     (u2, scale_velocityZ k h2, dt2) w
        = (k * accelZ_after (u1, h1, dt1) (u2, h2, dt2) w)%Qc).
Proof.
  split.
  - intros float ops u1 u2 h1 h2 dt1 dt2 w. apply accelZ_after_any.
  - intros k u1 u2 h1 h2 dt1 dt2 w Hdt. rewrite !accelZ_after_any.
    cbn [scale_velocityZ velocityZ]. exact_arith.
    pose proof Qc_of_Z_100_nonzero. field. split; assumption.
Qed.

Lemma Tick_accelZ_linear_witness :
  accelZ_after
    ([], scale_velocityZ (of_int 3) (host_climbing (of_int 0)), of_int 1)
    ([], scale_velocityZ (of_int 3) (host_climbing (of_int 3)), of_int 1)
    (server_idle, pawn_at_rest)
  = (of_int 3
     * accelZ_after ([]%list, host_climbing (of_int 0), of_int 1)
                    ([]%list, host_climbing (of_int 3), of_int 1)
                    (server_idle, pawn_at_rest))%Qc.
Proof.
  apply (proj2 Tick_accelZ_linear (of_int 3) [] []
           (host_climbing (of_int 0)) (host_climbing (of_int 3))
           (of_int 1) (of_int 1) (server_idle, pawn_at_rest)).
  intros E. apply (f_equal this) in E. vm_compute in E. discriminate E.
Defined.

(** ** Quaternion in the board frame *)

Lemma alter_beyond {A : Type} (f : A -> A) (l : list A) (i : nat) :
  (length l <= i)%nat -> alter f i l = l.
Proof.
  revert i. induction l as [|x l IH]; intros i Hi; [reflexivity|].
  destruct i as [|i]; cbn in *; [lia|]. f_equal. apply IH. lia.
Qed.

Section BoardFrame.
Context {float : Type} `{FloatOps float}.

Lemma addNoise_loop_beyond (dist : nat -> float) (n g k : nat)
    (vals : list float) :
  (length vals <= k)%nat -> addNoise_loop dist g k n vals = vals.
Proof.
  revert g k vals. induction n as [|n IH]; intros g k vals Hk; [reflexivity|].
  cbn [addNoise_loop]. rewrite IH.
  - apply alter_beyond. exact Hk.
  - rewrite length_alter. lia.
Qed.

Lemma addNoise_four (dist : nat -> float) (g n : nat) (q0 q1 q2 q3 : float) :
  addNoise_loop dist g 0 n [q0; q1; q2; q3]
  = [ if (0 <? n)%nat then (q0 + dist g)%F else q0;
      if (1 <? n)%nat then (q1 + dist (g + 1)%nat)%F else q1;
      if (2 <? n)%nat then (q2 + dist (g + 2)%nat)%F else q2;
      if (3 <? n)%nat then (q3 + dist (g + 3)%nat)%F else q3 ].
Proof.
  replace (g + 1)%nat with (S g) by lia.
  replace (g + 2)%nat with (S (S g)) by lia.
  replace (g + 3)%nat with (S (S (S g))) by lia.
  destruct n as [|[|[|[|n]]]];
    cbn [addNoise_loop alter list_alter Nat.ltb Nat.leb];
    rewrite ?addNoise_loop_beyond by (cbn; lia);
    reflexivity.
Qed.

Lemma getQuaternion_unfold (s : Pawn float) :
  let gn := _quatNoise s in
  getQuaternion s
  = (true,
     [ add_sample gn 0 (FQuat.W (_quat s));
       add_sample gn 1 (- FQuat.X (_quat s))%F;
       add_sample gn 2 (- FQuat.Y (_quat s))%F;
       add_sample gn 3 (FQuat.Z (_quat s)) ],
     set_quatNoise
       (mkNoise (_size gn) (_noise gn) (_dist gn)
                (_generator gn + Z.to_nat (_size gn mod 256))%nat) s).
Proof.
  intros gn. unfold getQuaternion, addNoise. fold gn.
  rewrite addNoise_four. unfold add_sample.
  assert (Hlt : forall k : nat,
            (k <? Z.to_nat (_size gn mod 256))%nat
            = (Z.of_nat k <? _size gn mod 256)).
  { intros k. pose proof (Z.mod_pos_bound (_size gn) 256 eq_refl).
    destruct (Nat.ltb_spec k (Z.to_nat (_size gn mod 256)));
      destruct (Z.ltb_spec (Z.of_nat k) (_size gn mod 256));
      try reflexivity; lia. }
  rewrite !Hlt. rewrite Nat.add_0_r. reflexivity.
Qed.

(** C5, amended: [getQuaternion] sets the output to (W, -X, -Y, Z) and then
    lets [_quatNoise] add a sample of its generator to each of the first
    [_size] entries; it reports success and advances the generator by the
    number of samples drawn.  Nothing else is applied. *)
Theorem getQuaternion_board_frame (s : Pawn float) :
  let gn := _quatNoise s in
  getQuaternion s
  = (true,
     [ add_sample gn 0 (FQuat.W (_quat s));
       add_sample gn 1 (- FQuat.X (_quat s))%F;
       add_sample gn 2 (- FQuat.Y (_quat s))%F;
       add_sample gn 3 (FQuat.Z (_quat s)) ],
     set_quatNoise
       (mkNoise (_size gn) (_noise gn) (_dist gn)
                (_generator gn + Z.to_nat (_size gn mod 256))%nat) s).
Proof. exact (getQuaternion_unfold s). Qed.

(** With a noise object of size zero the board frame is reached exactly. *)
Lemma getQuaternion_noiseless (s : Pawn float) :
  _size (_quatNoise s) mod 256 = 0 ->
  snd (fst (getQuaternion s))
  = [ FQuat.W (_quat s); (- FQuat.X (_quat s))%F;
      (- FQuat.Y (_quat s))%F; FQuat.Z (_quat s) ].
Proof.
  intros H0. rewrite getQuaternion_unfold. cbn [fst snd].
  unfold add_sample. rewrite H0. reflexivity.
Qed.

End BoardFrame.

(** C5, as stated, fails: with a noise object of size 4 whose generator
    yields the sample 1/100, the quaternion (1, 0, 0, 0) is not delivered
    as (1, -0, -0, 0), be the arithmetic exact or binary32. *)
Lemma getQuaternion_not_exact :
  snd (fst (getQuaternion (noisy_quat_pawn : Pawn Qc)))
  <> [ FQuat.W (_quat (noisy_quat_pawn : Pawn Qc));
       (- FQuat.X (_quat (noisy_quat_pawn : Pawn Qc)))%F;
       (- FQuat.Y (_quat (noisy_quat_pawn : Pawn Qc)))%F;
       FQuat.Z (_quat (noisy_quat_pawn : Pawn Qc)) ]
  /\ snd (fst (getQuaternion (noisy_quat_pawn : Pawn spec_float)))
     <> [ FQuat.W (_quat (noisy_quat_pawn : Pawn spec_float));
          (- FQuat.X (_quat (noisy_quat_pawn : Pawn spec_float)))%F;
          (- FQuat.Y (_quat (noisy_quat_pawn : Pawn spec_float)))%F;
          FQuat.Z (_quat (noisy_quat_pawn : Pawn spec_float)) ].
Proof.
  split; intros E.
  - apply (f_equal (fun q => this (default 0%Qc (q !! 0%nat)))) in E.
    vm_compute in E. discriminate E.
  - vm_compute in E. discriminate E.
Qed.

(** ** The clock *)

Lemma centisecond_positive : (0 < Q2Qc (1 # 100))%Qc.
Proof. reflexivity. Qed.

Lemma clock_step_lt (t : Qc) : (t < fadd_double t 1 100)%Qc.
Proof.
  exact_arith. rewrite <- (Qcplus_0_r t) at 1.
  apply Qcplus_lt_mono_l. exact centisecond_positive.
Qed.

Section Clock.
Context {float : Type} `{FloatOps float}.

Lemma clock_readings_app (t : float) (n m : nat) :
  clock_readings t (n + m)
  = clock_readings t n ++ clock_readings (clock_after t n) m.
Proof.
  revert t. induction n as [|n IH]; intros t; cbn; [reflexivity|].
  rewrite IH. reflexivity.
Qed.

Lemma clock_after_add (t : float) (n m : nat) :
  clock_after t (n + m) = clock_after (clock_after t n) m.
Proof.
  revert t. induction n as [|n IH]; intros t; cbn; [|rewrite IH]; reflexivity.
Qed.

Lemma times_of_app (rs1 rs2 : list (BoardReturn float)) :
  times_of (rs1 ++ rs2) = times_of rs1 ++ times_of rs2.
Proof.
  induction rs1 as [|r rs1 IH]; [reflexivity|].
  destruct r; cbn; rewrite IH; reflexivity.
Qed.

(** Only [getTime] moves the clock, and it moves it by one step. *)
Lemma board_call_clock (c : BoardCall float) (w : Server * Pawn float) :
  let t0 := _elapsedTime (snd w) in
  let n := length (times_of [fst (board_call c w)]) in
  times_of [fst (board_call c w)] = clock_readings t0 n
  /\ _elapsedTime (snd (snd (board_call c w))) = clock_after t0 n.
Proof.
  destruct w as [srv s]. destruct c; cbn; try (split; reflexivity).
  unfold serialAvailableBytes.
  destruct (0 <? _serverAvailableBytes s); [split; reflexivity|].
  destruct (ThreadedSocketServer.connected srv); [|split; reflexivity].
  unfold ThreadedSocketServer.receiveBuffer.
  destruct (srv_incoming srv (srv_receives srv)) as [r buf].
  split; reflexivity.
Qed.

Lemma board_calls_clock (cs : list (BoardCall float))
    (w : Server * Pawn float) :
  let t0 := _elapsedTime (snd w) in
  let n := length (times_of (fst (board_calls cs w))) in
  times_of (fst (board_calls cs w)) = clock_readings t0 n
  /\ _elapsedTime (snd (snd (board_calls cs w))) = clock_after t0 n.
Proof.
  revert w. induction cs as [|c cs IH]; intros w; [split; reflexivity|].
  cbn [board_calls].
  destruct (board_call_clock c w) as [Hr Ht].
  destruct (board_call c w) as [r w1]. specialize (IH w1).
  destruct (board_calls cs w1) as [rs w2]. cbn [fst snd] in *.
  destruct IH as [IHr IHt].
  change (r :: rs) with ([r] ++ rs). rewrite times_of_app.
  rewrite length_app, clock_readings_app, clock_after_add.
  rewrite <- Hr, <- Ht. rewrite <- IHr, <- IHt. split; reflexivity.
Qed.

Lemma Tick_elapsedTime (update : list (BoardCall float)) (host : Host float)
    (dt : float) (w : Server * Pawn float) :
  _elapsedTime (snd (snd (Tick update host dt w)))
  = _elapsedTime (snd (snd (board_calls update w))).
Proof.
  unfold Tick. destruct (board_calls update w) as [rs [srv s]]. reflexivity.
Qed.

(** Over a session the readings of [getTime] are those of the clock. *)
Lemma session_clock (frames : list (Frame float)) (w : Server * Pawn float) :
  let t0 := _elapsedTime (snd w) in
  let n := length (times_of (fst (session frames w))) in
  times_of (fst (session frames w)) = clock_readings t0 n
  /\ _elapsedTime (snd (snd (session frames w))) = clock_after t0 n.
Proof.
  revert w. induction frames as [|[[update host] dt] frames IH]; intros w;
    [split; reflexivity|].
  cbn [session].
  destruct (board_calls_clock update w) as [Hr Ht].
  rewrite <- Tick_elapsedTime with (host := host) (dt := dt) in Ht.
  specialize (IH (snd (Tick update host dt w))).
  destruct (session frames (snd (Tick update host dt w))) as [rs' w'].
  cbn [fst snd] in *. destruct IH as [IHr IHt].
  rewrite times_of_app, length_app, clock_readings_app, clock_after_add.
  rewrite <- Hr, <- Ht. rewrite <- IHr, <- IHt. split; reflexivity.
Qed.

End Clock.

Lemma clock_after_le (t : Qc) (n : nat) : (t <= clock_after t n)%Qc.
Proof.
  revert t. induction n as [|n IH]; intros t; cbn [clock_after];
    [apply Qcle_refl|].
  eapply Qcle_trans; [|apply IH]. apply Qclt_le_weak, clock_step_lt.
Qed.

(** In exact arithmetic the readings go up strictly, and all lie above
    the starting value. *)
Lemma clock_readings_sorted (t : Qc) (n : nat) :
  StronglySorted Qclt (clock_readings t n)
  /\ Forall (fun x => (t < x)%Qc) (clock_readings t n).
Proof.
  revert t. induction n as [|n IH]; intros t; cbn [clock_readings].
  - split; constructor.
  - destruct (IH (fadd_double t 1 100)) as [Hs Hf]. split.
    + constructor; assumption.
    + constructor; [apply clock_step_lt|].
      eapply Forall_impl; [|exact Hf]. cbn. intros x Hx.
      eapply Qclt_trans; [apply clock_step_lt|exact Hx].
Qed.

(** ** The clock in binary32

    A reading of at least one stays so at every call, and no call takes
    the clock back. *)

Lemma shl_align_digits (m : positive) (e ez : Z) :
  ez <= e ->
  Z.pos (digits2_pos (fst (shl_align m e ez))) + ez
  = Z.pos (digits2_pos m) + e.
Proof.
  intros Hle. unfold shl_align.
  destruct (ez - e) as [|p|p] eqn:En; cbn [fst]; [lia|lia|].
  rewrite digits2_pos_iter_xO. lia.
Qed.

(** Adding the [double] 0.01 to a [float] of at least one and rounding the
    sum to [float] gives a canonical [float] of at least one. *)
Lemma fadd_double_at_least_one (t : spec_float) :
  Binary32.at_least_one t = true ->
  Binary32.valid (Binary32.fadd_double t 1 100) = true
  /\ Binary32.at_least_one (Binary32.fadd_double t 1 100) = true.
Proof.
  unfold Binary32.fadd_double.
  change (Binary32.double_literal 1 100)
    with (S754_finite false 5764607523034235 (-59)).
  destruct t as [s | s | | s m e]; try discriminate.
  - destruct s; [discriminate|]. intros _. split; reflexivity.
  - destruct s; [discriminate|]. cbn [Binary32.at_least_one]. intros Hone.
    apply Z.leb_le in Hone.
    unfold SFadd. cbn [cond_Zopp Z.add binary_normalize].
    set (ez := Z.min e (-59)).
    set (a := fst (shl_align m e ez)).
    set (b := fst (shl_align 5764607523034235 (-59) ez)).
    destruct (binary_round_rounded 53 1024 eq_refl false (a + b) ez)
      as [_ Hshape].
    assert (Hmag : Z.pos (digits2_pos m) + e
                   <= Z.pos (digits2_pos (a + b)) + ez).
    { rewrite <- (shl_align_digits m e ez) by (subst ez; lia). fold a.
      pose proof (digits2_pos_mono a (a + b) ltac:(lia)). lia. }
    change (binary_normalize 53 1024 (Z.pos a + Z.pos b) ez false)
      with (binary_round 53 1024 false (a + b) ez).
    destruct Hshape as [-> | (m' & e' & -> & Hm')];
      [change (emin 53 1024 + 53) with (-1021); lia | split; reflexivity |].
    cbn [Binary32.of_double cond_Zopp binary_normalize].
    destruct (binary_round_rounded Binary32.prec Binary32.emax eq_refl
                false m' e') as [Hvalid Hshape].
    split; [exact Hvalid|].
    destruct Hshape as [-> | (m'' & e'' & -> & Hm'')];
      [change (emin Binary32.prec Binary32.emax + Binary32.prec) with (-125);
       lia | reflexivity |].
    cbn [Binary32.at_least_one]. apply Z.leb_le. lia.
Qed.

(** A canonical value of at least one compares as no less than 1.0 and
    as different from zero. *)
Lemma at_least_one_leb (t : spec_float) :
  Binary32.valid t = true ->
  Binary32.at_least_one t = true ->
  SFleb (S754_finite false 8388608 (-23)) t = true
  /\ SFeqb t (S754_zero false) = false.
Proof.
  destruct t as [s | s | | s m e]; try discriminate;
    destruct s; try discriminate.
  - intros _ _. split; reflexivity.
  - cbn [valid_binary Binary32.at_least_one]. intros Hvalid Hone.
    apply Z.leb_le in Hone.
    unfold bounded, canonical_mantissa in Hvalid.
    apply andb_prop in Hvalid as [Hcanon _].
    apply Z.eqb_eq in Hcanon.
    rewrite (fexp_max Binary32.prec Binary32.emax) in Hcanon.
    change (emin Binary32.prec Binary32.emax) with (-149) in Hcanon.
    unfold Binary32.prec in Hcanon.
    split; [|reflexivity].
    unfold SFleb, SFcompare.
    destruct (Z.compare_spec (-23) e) as [He | He | He]; [|reflexivity|lia].
    assert (Hd : Z.pos (digits2_pos m) = 24) by lia.
    pose proof (digits2_pos_bounds m) as [Hlow _].
    rewrite Hd in Hlow. change (2 ^ (24 - 1)) with 8388608 in Hlow.
    rewrite Pos.compare_cont_spec. cbn [Pos.switch_Eq].
    destruct (Pos.compare_spec 8388608 m); [reflexivity|reflexivity|lia].
Qed.

Lemma shl_align_value (m : positive) (e ez : Z) :
  ez <= e -> Z.pos (fst (shl_align m e ez)) = Z.pos m * 2 ^ (e - ez).
Proof.
  intros Hle. unfold shl_align.
  destruct (ez - e) as [|p|p] eqn:En; cbn [fst]; [|lia|].
  - replace (e - ez) with 0 by lia. lia.
  - rewrite iter_xO_pow2. replace (e - ez) with (Z.pos p) by lia. reflexivity.
Qed.

(** The sum is no less than the [float] it was formed from: neither of
    the two roundings goes below a [float] that the exact sum exceeds. *)
Lemma fadd_double_leb (t : spec_float) :
  Binary32.valid t = true ->
  Binary32.at_least_one t = true ->
  SFleb t (Binary32.fadd_double t 1 100) = true.
Proof.
  unfold Binary32.fadd_double.
  change (Binary32.double_literal 1 100)
    with (S754_finite false 5764607523034235 (-59)).
  destruct t as [s | s | | s m e]; try discriminate;
    (destruct s; [discriminate|]); [reflexivity|].
  cbn [valid_binary Binary32.at_least_one]. intros Hvalid Hone.
  apply Z.leb_le in Hone.
  unfold bounded, canonical_mantissa in Hvalid.
  apply andb_prop in Hvalid as [Hcanon _].
  apply Z.eqb_eq in Hcanon.
  rewrite (fexp_max Binary32.prec Binary32.emax) in Hcanon.
  change (emin Binary32.prec Binary32.emax) with (-149) in Hcanon.
  unfold Binary32.prec in Hcanon.
  unfold SFadd. cbn [cond_Zopp Z.add binary_normalize].
  set (ez := Z.min e (-59)).
  set (a := fst (shl_align m e ez)).
  set (b := fst (shl_align 5764607523034235 (-59) ez)).
  destruct (binary_round_rounded 53 1024 eq_refl false (a + b) ez)
    as [Hvalid64 Hshape].
  assert (Hmag : Z.pos (digits2_pos m) + e
                 <= Z.pos (digits2_pos (a + b)) + ez).
  { rewrite <- (shl_align_digits m e ez) by (subst ez; lia). fold a.
    pose proof (digits2_pos_mono a (a + b) ltac:(lia)). lia. }
  assert (Hdb : 53 <= Z.pos (digits2_pos (a + b))).
  { pose proof (shl_align_digits 5764607523034235 (-59) ez
                  ltac:(subst ez; lia)) as Hb.
    fold b in Hb. change (Z.pos (digits2_pos 5764607523034235)) with 53 in Hb.
    pose proof (digits2_pos_mono b (a + b) ltac:(lia)).
    subst ez. lia. }
  assert (Ha : Z.pos a = Z.pos m * 2 ^ (e - ez))
    by (apply shl_align_value; subst ez; lia).
  change (binary_normalize 53 1024 (Z.pos a + Z.pos b) ez false)
    with (binary_round 53 1024 false (a + b) ez) in *.
  destruct Hshape as [-> | (m' & e' & Hr64 & Hm1 & He1 & Hlo1)];
    [change (emin 53 1024 + 53) with (-1021); lia | reflexivity |].
  rewrite Hr64 in Hvalid64 |- *.
  cbn [valid_binary] in Hvalid64.
  unfold bounded, canonical_mantissa in Hvalid64.
  apply andb_prop in Hvalid64 as [Hcanon64 _].
  apply Z.eqb_eq in Hcanon64.
  rewrite (fexp_max 53 1024) in Hcanon64.
  change (emin 53 1024) with (-1074) in Hcanon64.
  cbn [Binary32.of_double cond_Zopp binary_normalize].
  destruct (binary_round_rounded Binary32.prec Binary32.emax eq_refl
              false m' e') as [_ Hshape].
  destruct Hshape as [-> | (m'' & e'' & -> & Hm2 & He2 & Hlo2)];
    [change (emin Binary32.prec Binary32.emax + Binary32.prec) with (-125);
     lia | reflexivity |].
  unfold Binary32.prec in *.
  unfold SFleb, SFcompare.
  destruct (Z.compare_spec e e'') as [He | He | He]; [|reflexivity|lia].
  rewrite Pos.compare_cont_spec. cbn [Pos.switch_Eq].
  assert (Hd' : Z.pos (digits2_pos m') = 53) by lia.
  set (n := Z.pos (digits2_pos (a + b)) - 53) in *.
  assert (Hn : 0 <= n) by lia.
  assert (Hpn : 0 < 2 ^ n) by (apply Z.pow_pos_nonneg; lia).
  assert (Hsplit : Z.pos a = Z.pos m * 2 ^ 29 * 2 ^ n).
  { rewrite Ha. replace (e - ez) with (29 + n) by lia.
    rewrite Z.pow_add_r by lia. lia. }
  assert (H1 : Z.pos m * 2 ^ 29 <= Z.pos m').
  { eapply Z.le_trans; [|apply Hlo1; lia].
    rewrite Z.shiftl_div_pow2 by lia.
    replace (- (53 - Z.pos (digits2_pos (a + b)))) with n by lia.
    apply Z.div_le_lower_bound; [lia|].
    rewrite Pos2Z.inj_add. lia. }
  assert (H2 : Z.pos m <= Z.pos m'').
  { eapply Z.le_trans; [|apply Hlo2; lia].
    rewrite Hd'. change (24 - 53) with (-29).
    rewrite Z.shiftl_div_pow2 by lia. change (- -29) with 29.
    apply Z.div_le_lower_bound; lia. }
  destruct (Pos.compare_spec m m''); [reflexivity|reflexivity|lia].
Qed.

Lemma binary32_le_refl (x : spec_float) :
  Binary32.at_least_one x = true -> binary32_le x x.
Proof.
  unfold binary32_le.
  destruct x as [s | s | | s m e]; try discriminate;
    (destruct s; [discriminate|]); intros _; [reflexivity|].
  unfold SFleb, SFcompare. rewrite Z.compare_refl, Pos.compare_cont_refl.
  reflexivity.
Qed.

Lemma binary32_le_trans (x y z : spec_float) :
  Binary32.at_least_one x = true -> Binary32.at_least_one y = true ->
  Binary32.at_least_one z = true ->
  binary32_le x y -> binary32_le y z -> binary32_le x z.
Proof.
  unfold binary32_le.
  destruct x as [sx | sx | | sx mx ex]; try discriminate;
    (destruct sx; [discriminate|]); intros _;
    (destruct y as [sy | sy | | sy my ey]; try discriminate);
    (destruct sy; [discriminate|]); intros _;
    (destruct z as [sz | sz | | sz mz ez]; try discriminate);
    (destruct sz; [discriminate|]); intros _;
    try reflexivity; try discriminate.
  unfold SFleb, SFcompare. rewrite !Pos.compare_cont_spec.
  cbn [Pos.switch_Eq].
  destruct (Z.compare_spec ex ey), (Z.compare_spec ey ez),
    (Z.compare_spec ex ez); try reflexivity; try discriminate; try lia;
    destruct (Pos.compare_spec mx my), (Pos.compare_spec my mz),
      (Pos.compare_spec mx mz);
    try reflexivity; try discriminate; lia.
Qed.

(** From a reading of at least one, the binary32 clock only shows
    canonical values of at least one, and never an earlier value after a
    later one. *)
Lemma clock_readings_binary32 (t : spec_float) (n : nat) :
  Binary32.valid t = true -> Binary32.at_least_one t = true ->
  StronglySorted binary32_le (clock_readings t n)
  /\ Forall (fun x => (Binary32.valid x = true
                       /\ Binary32.at_least_one x = true)
                      /\ binary32_le t x) (clock_readings t n).
Proof.
  revert t. induction n as [|n IH]; intros t Hv Hone; cbn [clock_readings].
  - split; constructor.
  - destruct (fadd_double_at_least_one t Hone) as [Hv' Hone'].
    pose proof (fadd_double_leb t Hv Hone) as Hle.
    destruct (IH (Binary32.fadd_double t 1 100) Hv' Hone') as [Hs Hf]. split.
    + constructor; [exact Hs|].
      eapply Forall_impl; [|exact Hf]. cbn. intros x [_ Hx]. exact Hx.
    + constructor; [split; [split|]; assumption|].
      eapply Forall_impl; [|exact Hf]. cbn. intros x [[Hxv Hx1] Hx].
      split; [split; assumption|].
      apply (binary32_le_trans t (Binary32.fadd_double t 1 100) x); assumption.
Qed.

Lemma clock_after_binary32 (t : spec_float) (n : nat) :
  Binary32.valid t = true -> Binary32.at_least_one t = true ->
  Binary32.valid (clock_after t n) = true
  /\ Binary32.at_least_one (clock_after t n) = true.
Proof.
  revert t. induction n as [|n IH]; intros t Hv Hone; cbn [clock_after].
  - split; assumption.
  - destruct (fadd_double_at_least_one t Hone) as [Hv' Hone'].
    apply IH; assumption.
Qed.

(** C6, as stated, fails in binary32.  The first reading after
    [BeginPlay] is 8472494 * 2^-23, which is not 1.01; a hundred calls
    after [BeginPlay] the reading is 16777208 * 2^-23, just below 2, where
    a hundred increments of exactly 0.01 would give 2; and a clock that
    shows 262144 returns 262144 again at every call, so that its readings
    no longer increase. *)
Lemma getTime_binary32_not_exact :
  let s0 : Pawn spec_float := BeginPlay true pawn_at_rest in
  let ts := times_of (fst (board_calls (replicate 100 GetTime)
                                       (server_idle, s0))) in
  let s1 : Pawn spec_float := pawn_at_time (of_int 262144) in
  (fst (getTime s0) = S754_finite false 8472494 (-23)
   /\ ~ (Binary32.to_Q (fst (getTime s0)) == 101 # 100)%Q)
  /\ (ts !! 99%nat = Some (S754_finite false 16777208 (-23))
      /\ ts !! 99%nat <> Some (of_int 2))
  /\ (fst (getTime s1) = of_int 262144
      /\ fst (getTime (snd (getTime s1))) = fst (getTime s1)).
Proof.
  split; [split|].
  - vm_compute. reflexivity.
  - unfold Qeq. vm_compute. discriminate.
  - vm_compute. repeat split; discriminate.
Qed.

Lemma getTime_clock_any {float : Type} `{FloatOps float} (started : bool)
    (s0 : Pawn float) (srv : Server) (frames : list (Frame float)) :
  let w0 := (srv, BeginPlay started s0) in
  let ts := times_of (fst (session frames w0)) in
  _elapsedTime (snd w0) = of_literal 1 1
  /\ (forall s : Pawn float,
        getTime s = (fadd_double (_elapsedTime s) 1 100,
                     set_elapsedTime (fadd_double (_elapsedTime s) 1 100) s))
  /\ ts = clock_readings (of_literal 1 1) (length ts)
  /\ _elapsedTime (snd (snd (session frames w0)))
     = clock_after (of_literal 1 1) (length ts).
Proof.
  intros w0 ts. destruct (session_clock frames w0) as [Hr Ht].
  fold ts in Hr, Ht. repeat split; assumption.
Qed.

(** C6, amended: [BeginPlay] seeds the elapsed time with 1.0 and every call
    of [getTime] adds 0.01 to it and returns the sum, so that over the
    frames of any session, whatever board calls the firmware makes in them,
    the values that [getTime] returns are the successive sums; this holds
    in either arithmetic.  In exact arithmetic each call adds exactly 0.01:
    the readings are 1.01, 1.02, ..., they go up strictly, none is below
    1.0, none is zero, and the elapsed time itself is never zero.  In
    binary32 the seed is exactly 1.0 and the sums are rounded: no reading
    is below an earlier one, none is below 1.0, none is zero or NaN, and
    the elapsed time itself is never below 1.0 nor zero. *)
Theorem getTime_strictly_increasing :
  (forall (float : Type) (ops : FloatOps float) (started : bool)
          (s0 : Pawn float) (srv : Server) (frames : list (Frame float)),
     let w0 := (srv, BeginPlay started s0) in
     let ts := times_of (fst (session frames w0)) in
     _elapsedTime (snd w0) = of_literal 1 1
     /\ (forall s : Pawn float,
           getTime s
           = (fadd_double (_elapsedTime s) 1 100,
              set_elapsedTime (fadd_double (_elapsedTime s) 1 100) s))
     /\ ts = clock_readings (of_literal 1 1) (length ts)
     /\ _elapsedTime (snd (snd (session frames w0)))
        = clock_after (of_literal 1 1) (length ts))
  /\ (forall (started : bool) (s0 : Pawn Qc) (srv : Server)
             (frames : list (Frame Qc)),
        let w0 := (srv, BeginPlay started s0) in
        let ts := times_of (fst (session frames w0)) in
        (of_literal 1 1 : Qc) = 1%Qc
        /\ (forall t : Qc, fadd_double t 1 100 = (t + Q2Qc (1 # 100))%Qc)
        /\ StronglySorted Qclt ts
        /\ Forall (fun t => (1 <= t)%Qc /\ t <> 0%Qc) ts
        /\ (1 <= _elapsedTime (snd (snd (session frames w0))))%Qc
        /\ _elapsedTime (snd (snd (session frames w0))) <> 0%Qc)
  /\ (forall (started : bool) (s0 : Pawn spec_float) (srv : Server)
             (frames : list (Frame spec_float)),
        let w0 := (srv, BeginPlay started s0) in
        let ts := times_of (fst (session frames w0)) in
        let final := _elapsedTime (snd (snd (session frames w0))) in
        (of_literal 1 1 : spec_float) = of_int 1
        /\ StronglySorted binary32_le ts
        /\ Forall (fun t => binary32_le (of_int 1) t
                            /\ SFeqb t (of_int 0) = false) ts
        /\ binary32_le (of_int 1) final
        /\ SFeqb final (of_int 0) = false).
Proof.
  split; [|split].
  - intros float ops started s0 srv frames. apply getTime_clock_any.
  - intros started s0 srv frames w0 ts.
    assert (Hpos : forall t : Qc, (1 <= t)%Qc -> t <> 0%Qc).
    { intros t Ht ->. revert Ht. apply Qclt_not_le. reflexivity. }
    assert (Hseed : (of_literal 1 1 : Qc) = 1%Qc).
    { apply Qc_is_canon. reflexivity. }
    destruct (getTime_clock_any started s0 srv frames) as (_ & _ & Hr & Ht).
    fold w0 ts in Hr, Ht. rewrite Hseed in Hr, Ht.
    destruct (clock_readings_sorted 1%Qc (length ts)) as [Hs Hf].
    rewrite <- Hr in Hs, Hf.
    assert (Hend : (1 <= _elapsedTime (snd (snd (session frames w0))))%Qc).
    { rewrite Ht. apply clock_after_le. }
    repeat split; try assumption; try reflexivity.
    + eapply Forall_impl; [|exact Hf]. cbn. intros t Hlt.
      split; [apply Qclt_le_weak; exact Hlt|].
      apply Hpos, Qclt_le_weak, Hlt.
    + apply Hpos, Hend.
  - intros started s0 srv frames w0 ts final.
    assert (Hseed : (of_literal 1 1 : spec_float)
                    = S754_finite false 8388608 (-23)) by reflexivity.
    destruct (getTime_clock_any started s0 srv frames) as (_ & _ & Hr & Ht).
    fold w0 ts in Hr, Ht. fold final in Ht. rewrite Hseed in Hr, Ht.
    destruct (clock_readings_binary32 (S754_finite false 8388608 (-23))
                (length ts) eq_refl eq_refl) as [Hs Hf].
    destruct (clock_after_binary32 (S754_finite false 8388608 (-23))
                (length ts) eq_refl eq_refl) as [Hv Hone].
    rewrite <- Hr in Hs, Hf. rewrite <- Ht in Hv, Hone.
    split; [reflexivity|]. split; [exact Hs|]. split.
    + eapply Forall_impl; [|exact Hf]. cbn. intros t [[Htv Ht1] _].
      apply at_least_one_leb; assumption.
    + apply at_least_one_leb; assumption.
Qed.

(** ** The serial port *)

Section Serial.
Context {float : Type}.

Lemma serialAvailableBytes_unread (srv : Server) (s : Pawn float) :
  0 < _serverAvailableBytes s ->
  serialAvailableBytes srv s = (_serverAvailableBytes s mod 256, srv, s).
Proof.
  intros Hc. unfold serialAvailableBytes.
  destruct (Z.ltb_spec 0 (_serverAvailableBytes s)); [reflexivity|lia].
Qed.

Lemma serialAvailableBytes_receive (srv : Server) (s : Pawn float) :
  _serverAvailableBytes s <= 0 ->
  srv_connected srv = true ->
  serialAvailableBytes srv s
  = let '(r, buf) := srv_incoming srv (srv_receives srv) in
    (Z.max r 0 mod 256,
     mkServer (srv_connected srv) (srv_incoming srv)
              (S (srv_receives srv)) (srv_sent srv),
     set_serial (Z.max r 0) 0 buf s).
Proof.
  intros Hc Hconn. unfold serialAvailableBytes.
  destruct (Z.ltb_spec 0 (_serverAvailableBytes s)); [lia|].
  unfold ThreadedSocketServer.connected, ThreadedSocketServer.receiveBuffer.
  rewrite Hconn. destruct (srv_incoming srv (srv_receives srv)) as [r buf].
  destruct (Z.ltb_spec r 0).
  - rewrite Z.max_r by lia. reflexivity.
  - rewrite Z.max_l by lia. reflexivity.
Qed.

Lemma serialAvailableBytes_no_client (srv : Server) (s : Pawn float) :
  _serverAvailableBytes s <= 0 ->
  srv_connected srv = false ->
  serialAvailableBytes srv s = (0, srv, s).
Proof.
  intros Hc Hconn. unfold serialAvailableBytes.
  destruct (Z.ltb_spec 0 (_serverAvailableBytes s)); [lia|].
  unfold ThreadedSocketServer.connected. rewrite Hconn. reflexivity.
Qed.

Lemma serialAvailableBytes_range (srv : Server) (s : Pawn float) :
  0 <= fst (fst (serialAvailableBytes srv s)) < 256.
Proof.
  unfold serialAvailableBytes.
  destruct (0 <? _serverAvailableBytes s); cbn;
    [apply Z.mod_pos_bound; lia|].
  destruct (ThreadedSocketServer.connected srv); cbn; [|lia].
  unfold ThreadedSocketServer.receiveBuffer.
  destruct (srv_incoming srv (srv_receives srv)); cbn.
  apply Z.mod_pos_bound; lia.
Qed.

(** C2, amended: the value returned is the count as an unsigned byte, so
    it lies between 0 and 255 and is the count itself up to 255.  With a
    positive internal count the call returns it without a receive, leaving
    socket and pawn as they are.  With a count that is not positive and a
    client connected it performs one receive, makes the count the receive
    result with negative results replaced by zero, resets the read cursor
    to zero and returns the new count; without a client it returns zero
    and touches nothing. *)
Theorem serialAvailableBytes_cases (srv : Server) (s : Pawn float) :
  let c := _serverAvailableBytes s in
  let r := fst (srv_incoming srv (srv_receives srv)) in
  let buf := snd (srv_incoming srv (srv_receives srv)) in
  let n := fst (fst (serialAvailableBytes srv s)) in
  let srv' := snd (fst (serialAvailableBytes srv s)) in
  let s' := snd (serialAvailableBytes srv s) in
  0 <= n < 256
  /\ (0 < c -> n = c mod 256 /\ (c < 256 -> n = c) /\ srv' = srv /\ s' = s)
  /\ (c <= 0 -> srv_connected srv = true ->
        srv_receives srv' = S (srv_receives srv)
        /\ _serverAvailableBytes s' = Z.max r 0
        /\ _serverByteIndex s' = 0
        /\ _serverBuffer s' = buf
        /\ n = Z.max r 0 mod 256
        /\ (r < 256 -> n = Z.max r 0))
  /\ (c <= 0 -> srv_connected srv = false -> n = 0 /\ srv' = srv /\ s' = s).
Proof.
  intros c r buf n srv' s'. subst n srv' s'.
  split; [apply serialAvailableBytes_range|]. split; [|split].
  - intros Hc. rewrite serialAvailableBytes_unread by assumption. cbn.
    repeat split. intros Hlt. apply Z.mod_small. fold c. lia.
  - intros Hc Hconn. rewrite serialAvailableBytes_receive by assumption.
    subst r buf. destruct (srv_incoming srv (srv_receives srv)) as [r0 b0].
    cbn. repeat split. intros Hr. apply Z.mod_small. lia.
  - intros Hc Hconn. rewrite serialAvailableBytes_no_client by assumption.
    repeat split.
Qed.

Lemma set_serial_set_serial (a1 i1 a2 i2 : Z) (b1 b2 : list byte)
    (s : Pawn float) :
  set_serial a2 i2 b2 (set_serial a1 i1 b1 s) = set_serial a2 i2 b2 s.
Proof. reflexivity. Qed.

(** [n] successive reads return the [n] cells from the cursor on, move the
    cursor by [n] and take [n] off the count. *)
Lemma serialReadBytes_spec (n : nat) (s : Pawn float) :
  serialReadBytes n s
  = (map (fun i => buffer_at (_serverBuffer s)
                             (_serverByteIndex s + Z.of_nat i)) (seq 0 n),
     if n is O then s
     else set_serial (_serverAvailableBytes s - Z.of_nat n)
                     (_serverByteIndex s + Z.of_nat n) (_serverBuffer s) s).
Proof.
  revert s. induction n as [|n IH]; intros s; [reflexivity|].
  cbn [serialReadBytes]. unfold serialReadByte. rewrite IH.
  cbn [seq map]. rewrite <- seq_shift, map_map.
  replace (_serverByteIndex s + Z.of_nat 0) with (_serverByteIndex s) by lia.
  f_equal.
  - f_equal. apply map_ext. intros i. cbn. f_equal. lia.
  - destruct n as [|n].
    + cbn. f_equal; lia.
    + rewrite set_serial_set_serial. cbn [_serverAvailableBytes _serverByteIndex
        _serverBuffer set_serial]. f_equal; lia.
Qed.

(** C3: with [N > 0] unread bytes, a call of [serialReadByte] returns the
    byte at the read cursor, moves the cursor one up and takes one off the
    count; [N] calls in a row return the [N] bytes from the cursor on and
    bring the count to 0. *)
Theorem serialReadByte_drains (s : Pawn float) :
  let N := _serverAvailableBytes s in
  let index := _serverByteIndex s in
  let buf := _serverBuffer s in
  0 < N ->
  serialReadByte s
  = (buffer_at buf index, set_serial (N - 1) (index + 1) buf s)
  /\ fst (serialReadBytes (Z.to_nat N) s)
     = map (fun i => buffer_at buf (index + Z.of_nat i)) (seq 0 (Z.to_nat N))
  /\ _serverAvailableBytes (snd (serialReadBytes (Z.to_nat N) s)) = 0
  /\ _serverByteIndex (snd (serialReadBytes (Z.to_nat N) s)) = index + N
  /\ _serverBuffer (snd (serialReadBytes (Z.to_nat N) s)) = buf.
Proof.
  intros N index buf HN. split; [reflexivity|].
  rewrite serialReadBytes_spec. fold N index buf.
  destruct (Z.to_nat N) as [|n] eqn:En; [lia|].
  rewrite <- En. cbn [fst snd set_serial _serverAvailableBytes
    _serverByteIndex _serverBuffer].
  repeat split; lia.
Qed.

End Serial.

(** C2, as stated, fails.  When the receive delivers 300 bytes, the call
    does not return the received count, and with these 300 bytes unread
    the next call does not return the internal count either.  And with the
    count at -1, where a read without an unread byte leaves it, the call
    performs a receive although the count is not zero. *)
Lemma serialAvailableBytes_not_the_count :
  (let '(n, srv', s') :=
     serialAvailableBytes (server_delivering 300 (replicate 300 x00))
                          (pawn_with_serial 0 0 [] : Pawn spec_float) in
   n <> 300
   /\ 0 < _serverAvailableBytes s'
   /\ fst (fst (serialAvailableBytes srv' s')) <> _serverAvailableBytes s')
  /\ (let s := snd (serialReadByte
                      (pawn_with_serial 0 0 [] : Pawn spec_float)) in
      let srv := server_delivering 2 [x01; x02] in
      _serverAvailableBytes s = -1
      /\ srv_receives (snd (fst (serialAvailableBytes srv s)))
         = S (srv_receives srv)).
Proof. vm_compute. repeat split; discriminate. Qed.

Lemma serialAvailableBytes_cases_witness :
  fst (fst (serialAvailableBytes server_idle
              (pawn_with_serial 3 0 [x01; x02; x03] : Pawn spec_float))) = 3
  /\ _serverAvailableBytes
       (snd (serialAvailableBytes (server_delivering (-1) [])
               (pawn_with_serial 0 7 [] : Pawn spec_float))) = 0
  /\ fst (fst (serialAvailableBytes server_idle
                 (pawn_with_serial 0 0 [] : Pawn spec_float))) = 0.
Proof.
  split; [|split].
  - refine (proj1 (proj2 (proj1 (proj2
      (serialAvailableBytes_cases server_idle
         (pawn_with_serial 3 0 [x01; x02; x03] : Pawn spec_float))) _)) _);
      reflexivity.
  - refine (proj1 (proj2 (proj1 (proj2 (proj2
      (serialAvailableBytes_cases (server_delivering (-1) [])
         (pawn_with_serial 0 7 [] : Pawn spec_float)))) _ _)));
      [discriminate | reflexivity].
  - refine (proj1 (proj2 (proj2 (proj2
      (serialAvailableBytes_cases server_idle
         (pawn_with_serial 0 0 [] : Pawn spec_float)))) _ _));
      [discriminate | reflexivity].
Defined.

Lemma serialReadByte_drains_witness :
  fst (serialReadBytes 3
         (pawn_with_serial 3 1 [x0a; x0b; x0c; x0d; x0e] : Pawn spec_float))
  = [x0b; x0c; x0d]
  /\ _serverAvailableBytes
       (snd (serialReadBytes 3
               (pawn_with_serial 3 1 [x0a; x0b; x0c; x0d; x0e]
                : Pawn spec_float)))
     = 0.
Proof.
  pose proof (serialReadByte_drains
                (pawn_with_serial 3 1 [x0a; x0b; x0c; x0d; x0e]
                 : Pawn spec_float) eq_refl)
    as (_ & Hbytes & Hcount & _).
  split; [exact Hbytes | exact Hcount].
Defined.

(** ** Auxiliary switch of the RealFlight InterLink *)

Section AuxSwitch.
Context {float : Type} `{FloatOps float}.

Lemma store_AU1_lookup (axes : list float) (v : float) :
  length axes = 6%nat ->
  JoystickLinux.store axes JoystickLinux.AX_AU1 v !! 4%nat = Some v.
Proof.
  intros Hlen. unfold JoystickLinux.store, JoystickLinux.AX_AU1.
  change (Z.to_nat 4) with 4%nat. cbn [Z.ltb Z.compare].
  apply list_lookup_insert_eq. rewrite Hlen. lia.
Qed.

Lemma store_AU1_others (axes : list float) (v : float) (k : nat) :
  k <> 4%nat ->
  JoystickLinux.store axes JoystickLinux.AX_AU1 v !! k = axes !! k.
Proof.
  intros Hk. unfold JoystickLinux.store, JoystickLinux.AX_AU1.
  change (Z.to_nat 4) with 4%nat. cbn [Z.ltb Z.compare].
  apply list_lookup_insert_ne. congruence.
Qed.

(** The function writes the aux channel only. *)
Lemma handleRealflightInterlinkButtons_others (number value : Z)
    (axes : list float) (k : nat) :
  k <> 4%nat ->
  JoystickLinux.handleRealflightInterlinkButtons number value axes !! k
  = axes !! k.
Proof.
  intros Hk. unfold JoystickLinux.handleRealflightInterlinkButtons.
  repeat match goal with
         | |- context [if ?b then _ else _] => destruct b
         end;
    rewrite ?store_AU1_others by exact Hk; reflexivity.
Qed.

(** C7: a button event that asserts button 3 sets the aux channel to 0.0,
    one that asserts button 4 sets it to 1.0, and the release of either
    sets it to 0.5.  The function handles one event at a time; it has no
    case for both buttons at once. *)
Theorem handleRealflightInterlinkButtons_aux (axes : list float) :
  length axes = 6%nat ->
  JoystickLinux.handleRealflightInterlinkButtons 3 1 axes !! 4%nat
  = Some (of_literal 0 1)
  /\ JoystickLinux.handleRealflightInterlinkButtons 4 1 axes !! 4%nat
     = Some (of_literal 1 1)
  /\ JoystickLinux.handleRealflightInterlinkButtons 3 0 axes !! 4%nat
     = Some (of_literal 1 2)
  /\ JoystickLinux.handleRealflightInterlinkButtons 4 0 axes !! 4%nat
     = Some (of_literal 1 2).
Proof.
  intros Hlen. unfold JoystickLinux.handleRealflightInterlinkButtons. cbn.
  repeat split; apply store_AU1_lookup; exact Hlen.
Qed.

(** Through [poll]: on an opened InterLink a button event goes to
    [handleRealflightInterlinkButtons], and the caller's aux channel is the
    one that function leaves in the static array. *)
Lemma poll_interlink_button (F310 SPEKTRUM XBOX360_WIRELESS INTERLINK : Z)
    (j : JoystickLinux.Joystick) (js : JoystickLinux.js_event)
    (statics axes : list float) :
  0 < JoystickLinux._joystickId j ->
  JoystickLinux._productId j = INTERLINK ->
  JoystickLinux.js_type js = JoystickLinux.JS_EVENT_BUTTON ->
  length statics = 6%nat -> length axes = 6%nat ->
  let statics' :=
    JoystickLinux.handleRealflightInterlinkButtons
      (JoystickLinux.js_number js) (JoystickLinux.js_value js) statics in
  exists axes',
    JoystickLinux.poll F310 SPEKTRUM XBOX360_WIRELESS INTERLINK j js statics axes
    = (JoystickLinux.ERROR_NOERROR, statics', axes')
    /\ axes' !! 4%nat = statics' !! 4%nat.
Proof.
  intros Hid Hprod Htype Hs Ha statics'.
  assert (Hlen : length statics' = 6%nat).
  { subst statics'. unfold JoystickLinux.handleRealflightInterlinkButtons,
      JoystickLinux.store.
    repeat match goal with |- context [if ?b then _ else _] => destruct b end;
      rewrite ?length_insert; exact Hs. }
  unfold JoystickLinux.poll. rewrite Htype, Hprod.
  destruct (Z.leb_spec (JoystickLinux._joystickId j) 0); [lia|].
  change (Z.land JoystickLinux.JS_EVENT_BUTTON JoystickLinux.JS_EVENT_INIT =? 0)
    with true.
  change (JoystickLinux.JS_EVENT_BUTTON =? JoystickLinux.JS_EVENT_AXIS)
    with false.
  change (JoystickLinux.JS_EVENT_BUTTON =? JoystickLinux.JS_EVENT_BUTTON)
    with true.
  rewrite Z.eqb_refl. cbn [negb orb].
  fold statics'.
  assert (Hcopy : alter fneg 2%nat
                    (alter fneg 0%nat (JoystickLinux.copy_axes statics' axes))
                  !! 4%nat = statics' !! 4%nat).
  { rewrite !list_lookup_alter_ne by lia.
    unfold JoystickLinux.copy_axes. cbn [seq foldl].
    rewrite list_lookup_insert_ne by lia.
    rewrite list_lookup_insert_eq by (rewrite !length_insert; lia).
    destruct (lookup_lt_is_Some_2 statics' 4%nat ltac:(lia)) as [x Hx].
    rewrite Hx. reflexivity. }
  repeat match goal with
         | |- context [if ?a =? ?b then _ else _] => destruct (a =? b)
         end;
    eexists; (split; [reflexivity | exact Hcopy]).
Qed.

End AuxSwitch.

Lemma handleRealflightInterlinkButtons_aux_witness :
  let axes : list spec_float := replicate 6 (of_int 0) in
  JoystickLinux.handleRealflightInterlinkButtons 3 1 axes !! 4%nat
  = Some (of_literal 0 1)
  /\ JoystickLinux.handleRealflightInterlinkButtons 4 1 axes !! 4%nat
     = Some (of_literal 1 1)
  /\ JoystickLinux.handleRealflightInterlinkButtons 3 0 axes !! 4%nat
     = Some (of_literal 1 2)
  /\ JoystickLinux.handleRealflightInterlinkButtons 4 0 axes !! 4%nat
     = Some (of_literal 1 2).
Proof.
  apply (handleRealflightInterlinkButtons_aux
           (replicate 6 (of_int 0) : list spec_float)).
  reflexivity.
Defined.

(** The three literals are binary32 values: storing them rounds nothing. *)
Lemma aux_positions_binary32 :
  (of_literal 0 1 : spec_float) = S754_zero false
  /\ (of_literal 1 2 : spec_float) = S754_finite false 8388608 (-24)
  /\ (of_literal 1 1 : spec_float) = S754_finite false 8388608 (-23).
Proof. repeat split. Qed.

(** ** Joystick identification *)

Lemma first_joystick_none (caps : Z -> option (Z * Z)) (n : nat) (joyid : Z) :
  (forall id, joyid <= id < joyid + Z.of_nat n -> caps id = None) ->
  first_joystick caps joyid n = (joyid + Z.of_nat n, None).
Proof.
  revert joyid. induction n as [|n IH]; intros joyid Hnone.
  - cbn. f_equal. lia.
  - cbn [first_joystick]. rewrite Hnone by lia. rewrite IH.
    + f_equal. lia.
    + intros id Hid. apply Hnone. lia.
Qed.

(** C8, as stated, fails: with no joystick attached and a stack that holds
    other values than zero where the two arrays are placed, neither map of
    the receiver is all zero. *)
Lemma joystickInit_maps_not_zeroed :
  let receiver :=
    snd (joystickInit 1 2 3 4 5 6 7 no_joystick
           [7; 7; 7; 7; 7] [9; 9; 9; 9; 9]) in
  axismap receiver <> [0; 0; 0; 0; 0]
  /\ buttonmap receiver <> [0; 0; 0; 0; 0].
Proof. vm_compute. split; discriminate. Qed.

(** C8, amended: when no input device is found, [joystickInit] leaves
    [_joyid] at 16 and still constructs the receiver, with
    [reversedVerticals], [springyThrottle] and [useButtonForAux] all false;
    it assigns no cell of the axis and button maps, which reach the
    receiver as the arrays were found. *)
Theorem joystickInit_no_device
    (VENDOR_STM PRODUCT_TARANIS PRODUCT_PS3_CLONE PRODUCT_PS4 : Z)
    (PRODUCT_XBOX360_CLONE PRODUCT_EXTREMEPRO3D PRODUCT_F310 : Z)
    (joyGetDevCaps : Z -> option (Z * Z)) (axismap0 buttonmap0 : list Z) :
  (forall id, 0 <= id < 16 -> joyGetDevCaps id = None) ->
  joystickInit VENDOR_STM PRODUCT_TARANIS PRODUCT_PS3_CLONE PRODUCT_PS4
    PRODUCT_XBOX360_CLONE PRODUCT_EXTREMEPRO3D PRODUCT_F310
    joyGetDevCaps axismap0 buttonmap0
  = (16, mkSimReceiver axismap0 buttonmap0 false false false).
Proof.
  intros Hnone. unfold joystickInit.
  rewrite first_joystick_none by (intros id Hid; apply Hnone; lia).
  reflexivity.
Qed.

Lemma joystickInit_no_device_witness :
  joystickInit 1 2 3 4 5 6 7 no_joystick [7; 7; 7; 7; 7] [9; 9; 9; 9; 9]
  = (16, mkSimReceiver [7; 7; 7; 7; 7] [9; 9; 9; 9; 9] false false false).
Proof.
  apply (joystickInit_no_device 1 2 3 4 5 6 7 no_joystick).
  intros id _. reflexivity.
Defined.

(** * Further properties *)

(** ** The serial port and the motors over a run *)

Section SerialRuns.
Context {float : Type} `{FloatOps float}.

Lemma buffer_cells_take (buf : list byte) (n : nat) :
  (n <= length buf)%nat ->
  map (fun i => buffer_at buf (0 + Z.of_nat i)) (seq 0 n) = take n buf.
Proof.
  intros Hn. apply list_eq. intros i.
  rewrite list_lookup_fmap.
  destruct (decide (i < n)%nat) as [Hi | Hi].
  - rewrite lookup_seq_lt by exact Hi. rewrite lookup_take_lt by exact Hi.
    cbn. unfold buffer_at.
    destruct (Z.ltb_spec (0 + Z.of_nat i) 0); [lia|].
    replace (Z.to_nat (0 + Z.of_nat i)) with i by lia.
    destruct (lookup_lt_is_Some_2 buf i ltac:(lia)) as [b Hb].
    rewrite Hb. reflexivity.
  - rewrite lookup_seq_ge by lia. rewrite lookup_take_ge by lia. reflexivity.
Qed.

Lemma board_calls_app (cs1 cs2 : list (BoardCall float))
    (w : Server * Pawn float) :
  board_calls (cs1 ++ cs2) w
  = (fst (board_calls cs1 w) ++ fst (board_calls cs2 (snd (board_calls cs1 w))),
     snd (board_calls cs2 (snd (board_calls cs1 w)))).
Proof.
  revert w. induction cs1 as [|c cs1 IH]; intros w; cbn [board_calls app].
  - cbn. destruct (board_calls cs2 w). reflexivity.
  - destruct (board_call c w) as [r w1]. rewrite IH.
    destruct (board_calls cs1 w1) as [rs w2]. cbn [fst snd].
    reflexivity.
Qed.

Lemma board_calls_reads (n : nat) (srv : Server) (s : Pawn float) :
  board_calls (replicate n SerialReadByte) (srv, s)
  = (map RetByte (fst (serialReadBytes n s)), (srv, snd (serialReadBytes n s))).
Proof.
  revert s. induction n as [|n IH]; intros s; [reflexivity|].
  cbn [replicate board_calls board_call serialReadBytes].
  destruct (serialReadByte s) as [b s1]. rewrite IH.
  destruct (serialReadBytes n s1) as [bs s2]. reflexivity.
Qed.

Lemma board_calls_polls (n : nat) (srv : Server) (s : Pawn float) :
  0 < _serverAvailableBytes s ->
  board_calls (replicate n SerialAvailableBytes) (srv, s)
  = (replicate n (RetCount (_serverAvailableBytes s mod 256)), (srv, s)).
Proof.
  intros Hc. induction n as [|n IH]; [reflexivity|].
  cbn [replicate board_calls board_call].
  rewrite serialAvailableBytes_unread by exact Hc. rewrite IH. reflexivity.
Qed.

(** X1: a receive followed by the reads it announces hands the firmware
    the bytes received.  With no unread bytes and a client connected whose
    next receive returns [r] bytes, [0 < r < 256], at the start of the
    buffer, [serialAvailableBytes] returns [r], the next [r] calls of
    [serialReadByte] return these [r] bytes in order, no byte is left, and
    the socket was read once. *)
Theorem serial_receive_then_read (srv : Server) (s : Pawn float) (r : Z)
    (buf : list byte) :
  _serverAvailableBytes s <= 0 ->
  srv_connected srv = true ->
  srv_incoming srv (srv_receives srv) = (r, buf) ->
  0 < r < 256 -> (Z.to_nat r <= length buf)%nat ->
  let run := board_calls
               (SerialAvailableBytes :: replicate (Z.to_nat r) SerialReadByte)
               (srv, s) in
  fst run = RetCount r :: map RetByte (take (Z.to_nat r) buf)
  /\ _serverAvailableBytes (snd (snd run)) = 0
  /\ srv_receives (fst (snd run)) = S (srv_receives srv).
Proof.
  intros Hc Hconn Hin Hr Hlen run. subst run.
  cbn [board_calls board_call].
  rewrite serialAvailableBytes_receive by assumption. rewrite Hin.
  rewrite Z.max_l by lia. rewrite (Z.mod_small r) by lia.
  rewrite board_calls_reads, serialReadBytes_spec.
  cbn [fst snd _serverBuffer _serverByteIndex _serverAvailableBytes set_serial].
  rewrite buffer_cells_take by exact Hlen.
  destruct (Z.to_nat r) as [|n] eqn:En; [lia|]. rewrite <- En.
  cbn [fst snd _serverAvailableBytes set_serial srv_receives].
  repeat split. lia.
Qed.

(** X2: asking again does not touch the socket.  While unread bytes
    remain, any number of successive calls of [serialAvailableBytes] return
    the same value and leave the socket and the pawn as they were. *)
Theorem serialAvailableBytes_polling (n : nat) (srv : Server)
    (s : Pawn float) :
  0 < _serverAvailableBytes s ->
  board_calls (replicate n SerialAvailableBytes) (srv, s)
  = (replicate n (RetCount (_serverAvailableBytes s mod 256)), (srv, s)).
Proof. apply board_calls_polls. Qed.

(** X3: a receive of a positive multiple of 256 bytes is never seen.  The
    count is stored as received, but as an unsigned byte it reads 0: the
    call that makes the receive returns 0, and so does every later call,
    none of which reads the socket again. *)
Theorem serialAvailableBytes_wedged (n : nat) (srv : Server)
    (s : Pawn float) (r : Z) (buf : list byte) :
  _serverAvailableBytes s <= 0 ->
  srv_connected srv = true ->
  srv_incoming srv (srv_receives srv) = (r, buf) ->
  0 < r -> r mod 256 = 0 ->
  let run := board_calls (replicate (S n) SerialAvailableBytes) (srv, s) in
  fst run = replicate (S n) (RetCount 0)
  /\ srv_receives (fst (snd run)) = S (srv_receives srv)
  /\ _serverAvailableBytes (snd (snd run)) = r.
Proof.
  intros Hc Hconn Hin Hr Hmod run. subst run.
  cbn [replicate board_calls board_call].
  rewrite serialAvailableBytes_receive by assumption. rewrite Hin.
  rewrite Z.max_l by lia. rewrite Hmod.
  rewrite board_calls_polls
    by (cbn [_serverAvailableBytes set_serial]; lia).
  cbn [fst snd _serverAvailableBytes set_serial srv_receives].
  rewrite Hmod. repeat split.
Qed.

Lemma board_call_sent (c : BoardCall float) (srv : Server) (s : Pawn float) :
  let srv' := fst (snd (board_call c (srv, s))) in
  srv_connected srv' = srv_connected srv
  /\ srv_sent srv'
     = srv_sent srv
       ++ (if srv_connected srv then written_bytes [c] else []).
Proof.
  assert (Hnil : forall b : bool,
            srv_sent srv = srv_sent srv ++ (if b then [] else []))
    by (intros []; rewrite app_nil_r; reflexivity).
  destruct c; cbn [board_call written_bytes].
  - unfold getQuaternion. destruct (addNoise _ _). cbn [fst snd].
    split; [reflexivity|apply Hnil].
  - cbn [fst snd]. split; [reflexivity|apply Hnil].
  - cbn [fst snd]. split; [reflexivity|apply Hnil].
  - cbn [fst snd]. split; [reflexivity|apply Hnil].
  - unfold serialAvailableBytes.
    destruct (0 <? _serverAvailableBytes s); cbn [fst snd];
      [split; [reflexivity|apply Hnil]|].
    unfold ThreadedSocketServer.connected, ThreadedSocketServer.receiveBuffer.
    destruct (srv_connected srv) eqn:Hc.
    + destruct (srv_incoming srv (srv_receives srv)). cbn.
      rewrite app_nil_r. split; reflexivity.
    + cbn [fst snd]. rewrite Hc, app_nil_r. split; reflexivity.
  - cbn [fst snd]. split; [reflexivity|apply Hnil].
  - unfold serialWriteByte, ThreadedSocketServer.connected,
      ThreadedSocketServer.sendBuffer.
    destruct (srv_connected srv) eqn:Hc; cbn; rewrite ?Hc, ?app_nil_r;
      split; reflexivity.
Qed.

Lemma written_bytes_app (cs1 cs2 : list (BoardCall float)) :
  written_bytes (cs1 ++ cs2) = written_bytes cs1 ++ written_bytes cs2.
Proof.
  induction cs1 as [|c cs1 IH]; [reflexivity|].
  destruct c; cbn [app written_bytes]; rewrite IH; reflexivity.
Qed.

Lemma board_calls_sent (cs : list (BoardCall float)) (srv : Server)
    (s : Pawn float) :
  let srv' := fst (snd (board_calls cs (srv, s))) in
  srv_connected srv' = srv_connected srv
  /\ srv_sent srv'
     = srv_sent srv ++ (if srv_connected srv then written_bytes cs else []).
Proof.
  revert srv s. induction cs as [|c cs IH]; intros srv s.
  - cbn [board_calls fst snd written_bytes]. split; [reflexivity|].
    destruct (srv_connected srv); rewrite app_nil_r; reflexivity.
  - cbn [board_calls].
    pose proof (board_call_sent c srv s) as [Hc Hs].
    destruct (board_call c (srv, s)) as [r [srv1 s1]]. cbn [fst snd] in Hc, Hs.
    specialize (IH srv1 s1).
    destruct (board_calls cs (srv1, s1)) as [rs [srv2 s2]].
    cbn [fst snd] in IH |- *. destruct IH as [IHc IHs].
    split; [congruence|]. rewrite IHs, Hs, Hc.
    change (c :: cs) with ([c] ++ cs). rewrite written_bytes_app.
    destruct (srv_connected srv); rewrite <- ?app_assoc; reflexivity.
Qed.

Lemma session_calls_cons (u : list (BoardCall float)) (h : Host float)
    (dt : float) (frames : list (Frame float)) :
  session_calls ((u, h, dt) :: frames) = u ++ session_calls frames.
Proof. reflexivity. Qed.

Lemma Tick_server (u : list (BoardCall float)) (h : Host float) (dt : float)
    (w : Server * Pawn float) :
  fst (snd (Tick u h dt w)) = fst (snd (board_calls u w)).
Proof.
  unfold Tick. destruct (snd (board_calls u w)) as [srv s]. reflexivity.
Qed.

Lemma Tick_motorvals (u : list (BoardCall float)) (h : Host float) (dt : float)
    (w : Server * Pawn float) :
  _motorvals (snd (snd (Tick u h dt w)))
  = _motorvals (snd (snd (board_calls u w))).
Proof.
  unfold Tick. destruct (snd (board_calls u w)) as [srv s]. reflexivity.
Qed.

Lemma Tick_state (u : list (BoardCall float)) (h : Host float) (dt : float)
    (w : Server * Pawn float) :
  snd (Tick u h dt w) = snd (Tick [] h dt (snd (board_calls u w))).
Proof.
  unfold Tick. cbn [board_calls snd].
  destruct (snd (board_calls u w)) as [srv s]. reflexivity.
Qed.

Lemma session_events_app (evs1 evs2 : list (SessionEvent float))
    (w : Server * Pawn float) :
  session_events (evs1 ++ evs2) w
  = session_events evs2 (session_events evs1 w).
Proof.
  revert w. induction evs1 as [|ev evs1 IH]; intros w; [reflexivity|].
  cbn [app session_events]. apply IH.
Qed.

Lemma session_events_calls (cs : list (BoardCall float))
    (w : Server * Pawn float) :
  session_events (map Call cs) w = snd (board_calls cs w).
Proof.
  revert w. induction cs as [|c cs IH]; intros w; [reflexivity|].
  cbn [map session_events session_event board_calls].
  destruct (board_call c w) as [r w1]. cbn [snd]. rewrite IH.
  destruct (board_calls cs w1). reflexivity.
Qed.

Lemma session_events_frames (frames : list (Frame float))
    (w : Server * Pawn float) :
  session_events (events_of_frames frames) w = snd (session frames w).
Proof.
  revert w. induction frames as [|[[u h] dt] frames IH]; intros w;
    [reflexivity|].
  unfold events_of_frames. cbn [flat_map fst snd].
  fold (events_of_frames frames).
  rewrite !session_events_app, session_events_calls.
  cbn [session_events session_event]. rewrite IH, <- Tick_state.
  cbn [session]. destruct (session frames (snd (Tick u h dt w))).
  reflexivity.
Qed.

Lemma written_while_connected_frames (frames : list (Frame float))
    (connected : bool) :
  written_while_connected (events_of_frames frames) connected
  = if connected then written_bytes (session_calls frames) else [].
Proof.
  assert (Hcalls : forall (cs : list (BoardCall float))
                          (rest : list (SessionEvent float)),
            written_while_connected (map Call cs ++ rest) connected
            = (if connected then written_bytes cs else [])
              ++ written_while_connected rest connected).
  { induction cs as [|c cs IHc]; intros rest.
    - cbn. destruct connected; reflexivity.
    - destruct c; cbn [map app written_while_connected written_bytes];
        rewrite IHc; destruct connected; reflexivity. }
  induction frames as [|[[u h] dt] frames IH].
  - destruct connected; reflexivity.
  - unfold events_of_frames. cbn [flat_map fst snd].
    fold (events_of_frames frames).
    rewrite <- app_assoc, Hcalls.
    cbn [app written_while_connected]. rewrite IH.
    destruct connected; [|reflexivity].
    unfold session_calls. cbn [flat_map fst].
    rewrite written_bytes_app. reflexivity.
Qed.

Lemma session_event_sent (ev : SessionEvent float) (srv : Server)
    (s : Pawn float) :
  let srv' := fst (session_event ev (srv, s)) in
  srv_sent srv'
  = srv_sent srv ++ written_while_connected [ev] (srv_connected srv)
  /\ srv_connected srv'
     = match ev with
       | ClientAccepted => true
       | ClientDropped => false
       | _ => srv_connected srv
       end.
Proof.
  destruct ev as [c | h dt | |]; cbn [session_event].
  - pose proof (board_call_sent c srv s) as [Hc Hs]. cbv zeta in Hc, Hs.
    split; [|exact Hc]. rewrite Hs.
    destruct c; cbn [written_bytes written_while_connected];
      destruct (srv_connected srv); rewrite ?app_nil_r; reflexivity.
  - rewrite Tick_server. cbn. rewrite app_nil_r. split; reflexivity.
  - cbn. rewrite app_nil_r. split; reflexivity.
  - cbn. rewrite app_nil_r. split; reflexivity.
Qed.

Lemma written_while_connected_cons (ev : SessionEvent float)
    (evs : list (SessionEvent float)) (connected : bool) :
  written_while_connected (ev :: evs) connected
  = written_while_connected [ev] connected
    ++ written_while_connected evs
         match ev with
         | ClientAccepted => true
         | ClientDropped => false
         | _ => connected
         end.
Proof.
  destruct ev as [c | h dt | |]; cbn [written_while_connected];
    try reflexivity.
  destruct c; cbn [written_while_connected]; rewrite ?app_nil_r;
    reflexivity.
Qed.

(** X4: what the socket is sent.  Over the events of any session, board
    calls, ticks, a client accepted and the client dropped in any order,
    the bytes handed to the socket are the arguments of the
    [serialWriteByte] calls that the firmware made while a client was
    connected, in the order of the calls; a byte written while no client
    is connected is dropped.  No other board method and no [Tick] sends.
    In particular, over the frames of a session in which no client comes or
    goes, all the bytes written are sent when a client is connected and
    none when none is. *)
Theorem session_sent (evs : list (SessionEvent float)) (srv : Server)
    (s : Pawn float) :
  srv_sent (fst (session_events evs (srv, s)))
  = srv_sent srv ++ written_while_connected evs (srv_connected srv)
  /\ forall frames : list (Frame float),
       session_events (events_of_frames frames) (srv, s)
       = snd (session frames (srv, s))
       /\ srv_sent (fst (snd (session frames (srv, s))))
          = srv_sent srv
            ++ (if srv_connected srv
                then written_bytes (session_calls frames) else []).
Proof.
  assert (Hall : forall (evs : list (SessionEvent float)) (srv : Server)
                        (s : Pawn float),
            srv_sent (fst (session_events evs (srv, s)))
            = srv_sent srv
              ++ written_while_connected evs (srv_connected srv)).
  { clear evs srv s. induction evs as [|ev evs IH]; intros srv s.
    - cbn. rewrite app_nil_r. reflexivity.
    - cbn [session_events].
      pose proof (session_event_sent ev srv s) as [Hs Hc].
      cbv zeta in Hs, Hc.
      destruct (session_event ev (srv, s)) as [srv1 s1]. cbn [fst] in Hs, Hc.
      rewrite IH, Hs, Hc, (written_while_connected_cons ev evs).
      rewrite app_assoc. reflexivity. }
  split; [apply Hall|].
  intros frames. split; [apply session_events_frames|].
  rewrite <- session_events_frames, Hall, written_while_connected_frames.
  reflexivity.
Qed.

Lemma board_calls_motorvals (cs : list (BoardCall float))
    (w : Server * Pawn float) :
  _motorvals (snd (snd (board_calls cs w)))
  = motor_writes cs (_motorvals (snd w)).
Proof.
  revert w. induction cs as [|c cs IH]; intros [srv s]; [reflexivity|].
  cbn [board_calls].
  assert (Hc : _motorvals (snd (snd (board_call c (srv, s))))
               = motor_writes [c] (_motorvals s)).
  { destruct c; cbn [board_call motor_writes]; try reflexivity.
    unfold serialAvailableBytes.
    destruct (0 <? _serverAvailableBytes s); [reflexivity|].
    destruct (ThreadedSocketServer.connected srv); [|reflexivity].
    unfold ThreadedSocketServer.receiveBuffer.
    destruct (srv_incoming srv (srv_receives srv)). reflexivity. }
  destruct (board_call c (srv, s)) as [r w1]. specialize (IH w1).
  destruct (board_calls cs w1) as [rs w2]. cbn [fst snd] in *.
  rewrite IH, Hc. destruct c; reflexivity.
Qed.

Lemma motor_writes_app (cs1 cs2 : list (BoardCall float)) (m : list float) :
  motor_writes (cs1 ++ cs2) m = motor_writes cs2 (motor_writes cs1 m).
Proof.
  revert m. induction cs1 as [|c cs1 IH]; intros m; [reflexivity|].
  destruct c; cbn [app motor_writes]; apply IH.
Qed.

(** X5: the motor values are what [writeMotor] made them.  Over the
    frames of any session the motor vector at the end is the one at the
    start with the [writeMotor] calls of the firmware applied in order;
    no other board method and no [Tick] changes it. *)
Theorem session_motorvals (frames : list (Frame float))
    (w : Server * Pawn float) :
  _motorvals (snd (snd (session frames w)))
  = motor_writes (session_calls frames) (_motorvals (snd w)).
Proof.
  revert w. induction frames as [|[[u h] dt] frames IH]; intros w;
    [reflexivity|].
  cbn [session].
  specialize (IH (snd (Tick u h dt w))).
  destruct (session frames (snd (Tick u h dt w))) as [rs' w'].
  cbn [fst snd] in *. rewrite IH, Tick_motorvals, board_calls_motorvals.
  rewrite session_calls_cons, motor_writes_app. reflexivity.
Qed.

(** X6: a motor value written is the one read back.  On the four-cell
    motor vector, after [writeMotor] at an index from 0 to 3 that cell
    holds the value written and the other three cells are as before. *)
Theorem writeMotor_motorval (m : list float) (index k : Z) (value : float) :
  length m = 4%nat -> 0 <= index < 4 -> 0 <= k < 4 ->
  length (writeMotor index value m) = 4%nat
  /\ motorval (writeMotor index value m) k
     = (if k =? index then value else motorval m k).
Proof.
  intros Hlen Hi Hk. unfold writeMotor, motorval.
  rewrite Z.mod_small by lia. rewrite length_insert. split; [exact Hlen|].
  destruct (Z.ltb_spec k 0); [lia|].
  destruct (Z.eqb_spec k index) as [-> | Hne].
  - rewrite list_lookup_insert_eq by lia. reflexivity.
  - rewrite list_lookup_insert_ne by lia. reflexivity.
Qed.

End SerialRuns.

Lemma serial_receive_then_read_witness :
  fst (board_calls (SerialAvailableBytes :: replicate 3 SerialReadByte)
         (server_delivering 3 [x0a; x0b; x0c; x0d],
          (pawn_at_rest : Pawn spec_float)))
  = [RetCount 3; RetByte x0a; RetByte x0b; RetByte x0c].
Proof.
  refine (proj1 (serial_receive_then_read
                   (server_delivering 3 [x0a; x0b; x0c; x0d])
                   (pawn_at_rest : Pawn spec_float) 3 [x0a; x0b; x0c; x0d]
                   _ eq_refl eq_refl _ _)).
  - cbn. lia.
  - lia.
  - cbn. lia.
Defined.

Lemma serialAvailableBytes_polling_witness :
  fst (board_calls (replicate 3 SerialAvailableBytes)
         (server_delivering 9 [],
          (pawn_with_serial 2 0 [x01; x02] : Pawn spec_float)))
  = [RetCount 2; RetCount 2; RetCount 2].
Proof.
  refine (f_equal fst
            (serialAvailableBytes_polling 3 (server_delivering 9 [])
               (pawn_with_serial 2 0 [x01; x02] : Pawn spec_float) _)).
  reflexivity.
Defined.

Lemma serialAvailableBytes_wedged_witness :
  let run := board_calls (replicate 3 SerialAvailableBytes)
               (server_delivering 256 [],
                (pawn_at_rest : Pawn spec_float)) in
  fst run = [RetCount 0; RetCount 0; RetCount 0]
  /\ srv_receives (fst (snd run)) = 1%nat
  /\ _serverAvailableBytes (snd (snd run)) = 256.
Proof.
  refine (serialAvailableBytes_wedged 2 (server_delivering 256 [])
            (pawn_at_rest : Pawn spec_float) 256 [] _ eq_refl eq_refl _ _).
  - cbn. lia.
  - lia.
  - reflexivity.
Defined.

Lemma session_sent_witness :
  srv_sent
    (fst (session_events
            [ Call (SerialWriteByte x01); ClientAccepted;
              Call (SerialWriteByte x02);
              EndOfTick (host_climbing (of_int 0)) (of_int 1);
              Call (SerialWriteByte x03); ClientDropped;
              Call (SerialWriteByte x04) ]
            (server_idle, (pawn_at_rest : Pawn spec_float))))
  = [x02; x03].
Proof.
  exact (proj1 (session_sent _ server_idle (pawn_at_rest : Pawn spec_float))).
Defined.

Lemma writeMotor_motorval_witness :
  motorval (writeMotor 2 (of_int 7) (motors_init : list spec_float)) 2
  = of_int 7
  /\ motorval (writeMotor 2 (of_int 7) (motors_init : list spec_float)) 3
     = of_int 0.
Proof.
  split.
  - refine (proj2 (writeMotor_motorval (motors_init : list spec_float) 2 2
                     (of_int 7) eq_refl _ _)); lia.
  - refine (proj2 (writeMotor_motorval (motors_init : list spec_float) 2 3
                     (of_int 7) eq_refl _ _)); lia.
Defined.

(** ** What a tick computes *)

Lemma Tick_actuation {float : Type} `{FloatOps float}
    (u : list (BoardCall float)) (h : Host float) (dt : float)
    (w : Server * Pawn float) :
  let m := _motorvals (snd (snd (board_calls u w))) in
  fst (Tick u h dt w)
  = mkActuation [ motorsToAngularForce m 2 3 0 1;
                  motorsToAngularForce m 1 3 0 2;
                  motorsToAngularForce m 1 2 0 3 ]
                (of_int 0 + motorval m 0 + motorval m 1 + motorval m 2
                 + motorval m 3)%F.
Proof.
  unfold Tick. destruct (snd (board_calls u w)) as [srv s]. reflexivity.
Qed.

(** X7: equal motor values turn nothing.  When the four motor values that
    the firmware update leaves are equal, the three angular forces of the
    tick are zero.  In exact arithmetic this holds for every value and the
    motor sum is four times the value; in binary32 it holds for every value
    whose double is finite, and the zeros are positive. *)
Theorem Tick_forces_hover :
  (forall (u : list (BoardCall Qc)) (h : Host Qc) (dt : Qc)
          (w : Server * Pawn Qc) (v : Qc),
     _motorvals (snd (snd (board_calls u w))) = [v; v; v; v] ->
     forces (fst (Tick u h dt w)) = [0%Qc; 0%Qc; 0%Qc]
     /\ motorSum (fst (Tick u h dt w)) = (v + v + v + v)%Qc)
  /\ (forall (u : list (BoardCall spec_float)) (h : Host spec_float)
             (dt : spec_float) (w : Server * Pawn spec_float)
             (v : spec_float),
        _motorvals (snd (snd (board_calls u w))) = [v; v; v; v] ->
        Binary32.is_finite (v + v)%F = true ->
        forces (fst (Tick u h dt w))
        = [S754_zero false; S754_zero false; S754_zero false]).
Proof.
  split.
  - intros u h dt w v Hm. rewrite Tick_actuation. cbv zeta. rewrite Hm.
    cbn [forces motorSum]. rewrite !motorsToAngularForce_exact.
    unfold signed_difference.
    change (motorval [v; v; v; v] 0) with v.
    change (motorval [v; v; v; v] 1) with v.
    change (motorval [v; v; v; v] 2) with v.
    change (motorval [v; v; v; v] 3) with v.
    exact_arith. rewrite Qc_of_Z_0.
    assert (Hz : (v + v - (v + v))%Qc = 0%Qc) by ring.
    rewrite !Hz. split; [reflexivity | ring].
  - intros u h dt w v Hm Hfin. rewrite Tick_actuation. cbv zeta. rewrite Hm.
    cbn [forces]. unfold motorsToAngularForce.
    change (motorval [v; v; v; v] 0) with v.
    change (motorval [v; v; v; v] 1) with v.
    change (motorval [v; v; v; v] 2) with v.
    change (motorval [v; v; v; v] 3) with v.
    rewrite (binary32_sub_diag _ Hfin). reflexivity.
Qed.

(** X8: the angular forces see differences only.  In exact arithmetic,
    raising the four motor values by one and the same amount leaves the
    three angular forces of the tick as they are and raises the motor sum
    by four times the amount. *)
Theorem Tick_forces_common_mode (u u' : list (BoardCall Qc))
    (h h' : Host Qc) (dt dt' : Qc) (w w' : Server * Pawn Qc)
    (m0 m1 m2 m3 delta : Qc) :
  _motorvals (snd (snd (board_calls u w))) = [m0; m1; m2; m3] ->
  _motorvals (snd (snd (board_calls u' w')))
  = [(m0 + delta)%Qc; (m1 + delta)%Qc; (m2 + delta)%Qc; (m3 + delta)%Qc] ->
  forces (fst (Tick u' h' dt' w')) = forces (fst (Tick u h dt w))
  /\ motorSum (fst (Tick u' h' dt' w'))
     = (motorSum (fst (Tick u h dt w))
        + (delta + delta + delta + delta))%Qc.
Proof.
  intros Hm Hm'. rewrite !Tick_actuation. cbv zeta. rewrite Hm, Hm'.
  cbn [forces motorSum]. rewrite !motorsToAngularForce_exact.
  unfold signed_difference.
  repeat match goal with
         | |- context [motorval [?a; ?b; ?c; ?d] 0] =>
             change (motorval [a; b; c; d] 0) with a
         | |- context [motorval [?a; ?b; ?c; ?d] 1] =>
             change (motorval [a; b; c; d] 1) with b
         | |- context [motorval [?a; ?b; ?c; ?d] 2] =>
             change (motorval [a; b; c; d] 2) with c
         | |- context [motorval [?a; ?b; ?c; ?d] 3] =>
             change (motorval [a; b; c; d] 3) with d
         end.
  exact_arith. split; [|ring].
  f_equal; [ring|]. f_equal; [ring|]. f_equal. ring.
Qed.

Lemma binary32_sub_zero (x : spec_float) : (x - of_int 0)%F = x.
Proof. destruct x as [[]|[]| |s m e]; reflexivity. Qed.

Lemma exact_sub_zero (x : Qc) : (x - of_int 0)%F = x.
Proof. exact_arith. rewrite Qc_of_Z_0. ring. Qed.

Lemma Tick_after_BeginPlay_any {float : Type} `{FloatOps float}
    (sub_zero : forall x : float, (x - of_int 0)%F = x)
    (started : bool) (s0 : Pawn float) (srv : Server)
    (u : list (BoardCall float)) (h : Host float) (dt : float) :
  let s' := snd (snd (Tick u h dt (srv, BeginPlay started s0))) in
  _gyro s' = FVector.div (eulerAngles h) dt
  /\ _accelZ s' = (velocityZ h / of_int 100 / dt)%F.
Proof.
  intros s'.
  destruct (Tick_sensors u h dt (srv, BeginPlay started s0))
    as (Hg & _ & Ha & _).
  fold s' in Hg, Ha. rewrite Hg, Ha.
  cbn [snd BeginPlay _eulerPrev _varioPrev].
  unfold FVector.sub, FVector.zero, FVector.div.
  cbn [FVector.X FVector.Y FVector.Z]. rewrite !sub_zero.
  split; reflexivity.
Qed.

(** X9: the first tick has no history to subtract.  [BeginPlay] zeroes
    the previous Euler angles and the previous vertical speed, and no board
    call touches them, so after the first [Tick] of a session, whatever the
    firmware did in it, the gyrometer vector is the Euler angles over the
    frame time and the vertical acceleration is the vertical speed in m/s
    over the frame time.  This holds in exact arithmetic and in
    binary32. *)
Theorem Tick_after_BeginPlay :
  (forall (started : bool) (s0 : Pawn Qc) (srv : Server)
          (u : list (BoardCall Qc)) (h : Host Qc) (dt : Qc),
     let s' := snd (snd (Tick u h dt (srv, BeginPlay started s0))) in
     _gyro s' = FVector.div (eulerAngles h) dt
     /\ _accelZ s' = (velocityZ h / of_int 100 / dt)%F)
  /\ (forall (started : bool) (s0 : Pawn spec_float) (srv : Server)
             (u : list (BoardCall spec_float)) (h : Host spec_float)
             (dt : spec_float),
        let s' := snd (snd (Tick u h dt (srv, BeginPlay started s0))) in
        _gyro s' = FVector.div (eulerAngles h) dt
        /\ _accelZ s' = (velocityZ h / of_int 100 / dt)%F).
Proof.
  split; intros started s0 srv u h dt.
  - apply Tick_after_BeginPlay_any. exact exact_sub_zero.
  - apply Tick_after_BeginPlay_any. exact binary32_sub_zero.
Qed.

Section Noise.
Context {float : Type} `{FloatOps float}.

Lemma addNoise_loop_lookup (dist : nat -> float) (n g k : nat)
    (vals : list float) (i : nat) :
  addNoise_loop dist g k n vals !! i
  = if bool_decide (k <= i < k + n)%nat
    then (fun x => (x + dist (g + (i - k))%nat)%F) <$> vals !! i
    else vals !! i.
Proof.
  revert g k vals. induction n as [|n IH]; intros g k vals.
  - cbn [addNoise_loop]. rewrite bool_decide_eq_false_2 by lia. reflexivity.
  - cbn [addNoise_loop]. rewrite IH.
    destruct (decide (i = k)) as [-> | Hne].
    + rewrite bool_decide_eq_false_2 by lia.
      rewrite bool_decide_eq_true_2 by lia.
      rewrite list_lookup_alter_eq. rewrite Nat.sub_diag, Nat.add_0_r.
      reflexivity.
    + rewrite list_lookup_alter_ne by congruence.
      destruct (decide (S k <= i < S k + n)%nat) as [Hin | Hout].
      * rewrite !bool_decide_eq_true_2 by lia.
        replace (S g + (i - S k))%nat with (g + (i - k))%nat by lia.
        reflexivity.
      * rewrite !bool_decide_eq_false_2 by lia. reflexivity.
Qed.

Lemma addNoise_loop_length (dist : nat -> float) (n g k : nat)
    (vals : list float) :
  length (addNoise_loop dist g k n vals) = length vals.
Proof.
  revert g k vals. induction n as [|n IH]; intros g k vals; [reflexivity|].
  cbn [addNoise_loop]. rewrite IH. apply length_alter.
Qed.

(** X10: what [addNoise] does to an array.  For an array of any length,
    the call leaves the length as it is, adds to each of the first [_size]
    cells the sample of that position in the draw and leaves the cells
    from [_size] on as they were; the generator has then moved on by
    [_size] samples. *)
Theorem addNoise_cells (gn : GaussianNoise float) (vals : list float) :
  length (fst (addNoise gn vals)) = length vals
  /\ (forall i : nat,
        fst (addNoise gn vals) !! i = add_sample gn i <$> vals !! i)
  /\ snd (addNoise gn vals) = noise_after gn 1.
Proof.
  unfold addNoise. cbn [fst snd]. split; [apply addNoise_loop_length|].
  split.
  - intros i. rewrite addNoise_loop_lookup. unfold add_sample.
    pose proof (Z.mod_pos_bound (_size gn) 256 eq_refl) as Hs.
    destruct (Z.ltb_spec (Z.of_nat i) (_size gn mod 256)).
    + rewrite bool_decide_eq_true_2 by lia.
      rewrite Nat.sub_0_r. reflexivity.
    + rewrite bool_decide_eq_false_2 by lia.
      destruct (vals !! i); reflexivity.
  - unfold noise_after. rewrite Nat.mul_1_l. reflexivity.
Qed.

Lemma getQuaternion_reading (s : Pawn float) :
  getQuaternion s
  = (true, board_reading (_quatNoise s) (_quat s),
     set_quatNoise (noise_after (_quatNoise s) 1) s).
Proof.
  rewrite getQuaternion_unfold. unfold board_reading, noise_after.
  rewrite Nat.mul_1_l. reflexivity.
Qed.

Lemma getQuaternion_run_from (n j0 : nat) (gn : GaussianNoise float)
    (srv : Server) (s : Pawn float) :
  _quatNoise s = noise_after gn j0 ->
  let run := board_calls (replicate n GetQuaternion) (srv, s) in
  fst run
  = map (fun j => RetQuaternion true
                    (board_reading (noise_after gn j) (_quat s)))
        (seq j0 n)
  /\ _quatNoise (snd (snd run)) = noise_after gn (j0 + n)
  /\ _quat (snd (snd run)) = _quat s.
Proof.
  revert j0 s. induction n as [|n IH]; intros j0 s Hgn run; subst run.
  - cbn. rewrite Nat.add_0_r. repeat split. exact Hgn.
  - cbn [replicate board_calls board_call].
    rewrite getQuaternion_reading.
    specialize (IH (S j0) (set_quatNoise (noise_after (_quatNoise s) 1) s)).
    cbv zeta in IH.
    destruct (board_calls (replicate n GetQuaternion)
                (srv, set_quatNoise (noise_after (_quatNoise s) 1) s))
      as [rs w2].
    cbn [fst snd seq map] in *.
    destruct IH as (Hrs & Hn & Hq).
    { cbn [_quatNoise set_quatNoise]. rewrite Hgn. unfold noise_after.
      cbn [_size _noise _dist _generator]. f_equal. lia. }
    rewrite Hrs, Hn, Hq, Hgn. cbn [_quat set_quatNoise].
    repeat split. f_equal. lia.
Qed.

(** X11: no sample is used twice.  Over any number of successive calls
    of [getQuaternion] on an unchanged vehicle quaternion, the call number
    [j] (from 0) returns the board frame with the samples that follow the
    [j * _size] samples the earlier calls drew, and after [n] calls the
    generator has moved on by [n * _size] samples. *)
Theorem getQuaternion_run (n : nat) (srv : Server) (s : Pawn float) :
  let gn := _quatNoise s in
  let run := board_calls (replicate n GetQuaternion) (srv, s) in
  fst run
  = map (fun j => RetQuaternion true
                    (board_reading (noise_after gn j) (_quat s)))
        (seq 0 n)
  /\ _generator (_quatNoise (snd (snd run)))
     = (_generator gn + n * Z.to_nat (_size gn mod 256))%nat.
Proof.
  intros gn run.
  destruct (getQuaternion_run_from n 0 gn srv s) as (Hrs & Hn & _).
  - unfold noise_after. rewrite Nat.mul_0_l, Nat.add_0_r.
    subst gn. destruct (_quatNoise s). reflexivity.
  - fold run in Hrs, Hn. split; [exact Hrs|]. rewrite Hn. reflexivity.
Qed.

(** X12: a noise object of size zero adds nothing.  With [_size] zero
    [getQuaternion] reports success, hands out exactly (W, -X, -Y, Z) and
    leaves the pawn, the generator included, as it was. *)
Theorem getQuaternion_size_zero (s : Pawn float) :
  _size (_quatNoise s) mod 256 = 0 ->
  getQuaternion s = (true, board_frame (_quat s), s).
Proof.
  intros H0. rewrite getQuaternion_unfold. cbv zeta.
  unfold add_sample, board_frame. rewrite H0.
  change (Z.of_nat 0 <? 0) with false. change (Z.of_nat 1 <? 0) with false.
  change (Z.of_nat 2 <? 0) with false. change (Z.of_nat 3 <? 0) with false.
  change (Z.to_nat 0) with 0%nat. rewrite Nat.add_0_r.
  destruct s as [m q ep g vp az et [sz nz ds gen] run av ix buf].
  reflexivity.
Qed.

End Noise.

Lemma Tick_forces_hover_witness :
  forces (fst (Tick [WriteMotor 0 (of_int 3); WriteMotor 1 (of_int 3);
                     WriteMotor 2 (of_int 3); WriteMotor 3 (of_int 3)]
                 (host_climbing (of_int 0)) (of_int 1)
                 (server_idle, (pawn_at_rest : Pawn spec_float))))
  = [S754_zero false; S754_zero false; S754_zero false].
Proof.
  refine (proj2 Tick_forces_hover _ _ _ _ (of_int 3) _ _); reflexivity.
Defined.

Lemma Tick_forces_common_mode_witness :
  let w : Server * Pawn Qc :=
    (server_idle,
     set_motorvals [Q2Qc 1; Q2Qc 2; Q2Qc 3; Q2Qc 4] pawn_at_rest) in
  let w' : Server * Pawn Qc :=
    (server_idle,
     set_motorvals [(Q2Qc 1 + Q2Qc 5)%Qc; (Q2Qc 2 + Q2Qc 5)%Qc;
                    (Q2Qc 3 + Q2Qc 5)%Qc; (Q2Qc 4 + Q2Qc 5)%Qc]
                   pawn_at_rest) in
  forces (fst (Tick [] (host_climbing 0%Qc) 1%Qc w'))
  = forces (fst (Tick [] (host_climbing 0%Qc) 1%Qc w)).
Proof.
  refine (proj1 (Tick_forces_common_mode [] [] _ _ _ _ _ _
                   (Q2Qc 1) (Q2Qc 2) (Q2Qc 3) (Q2Qc 4) (Q2Qc 5) _ _));
    reflexivity.
Defined.

Lemma getQuaternion_size_zero_witness :
  getQuaternion (pawn_at_rest : Pawn spec_float)
  = (true, board_frame (_quat (pawn_at_rest : Pawn spec_float)),
     pawn_at_rest).
Proof.
  refine (getQuaternion_size_zero (pawn_at_rest : Pawn spec_float) _).
  reflexivity.
Defined.

(** ** The choice of a joystick *)

Lemma first_joystick_search (caps : Z -> option (Z * Z)) (n : nat)
    (start : Z) :
  let joyid := fst (first_joystick caps start n) in
  let found := snd (first_joystick caps start n) in
  start <= joyid <= start + Z.of_nat n
  /\ (forall id, start <= id < joyid -> caps id = None)
  /\ match found with
     | Some c => joyid < start + Z.of_nat n /\ caps joyid = Some c
     | None => joyid = start + Z.of_nat n
     end.
Proof.
  revert start. induction n as [|n IH]; intros start.
  - cbn. repeat split; lia.
  - cbn [first_joystick]. destruct (caps start) as [c|] eqn:Hc.
    + cbn [fst snd]. repeat split; try lia. exact Hc.
    + specialize (IH (start + 1)). cbv zeta in IH.
      destruct (first_joystick caps (start + 1) n) as [j f].
      cbn [fst snd] in *. destruct IH as (Hr & Hn & Hf).
      split; [lia|]. split.
      * intros id Hid. destruct (Z.eq_dec id start) as [-> | Hne];
          [exact Hc | apply Hn; lia].
      * destruct f; [split; [lia|apply Hf]|lia].
Qed.

Section JoystickInitProperties.
Variables VENDOR_STM PRODUCT_TARANIS : Z.
Variables PRODUCT_PS3_CLONE PRODUCT_PS4 PRODUCT_XBOX360_CLONE : Z.
Variables PRODUCT_EXTREMEPRO3D PRODUCT_F310 : Z.

(** X13: the joystick chosen is the first that answers.  [_joyid] ends
    between 0 and 16; no identifier below it answered [joyGetDevCaps]; if
    it is below 16 the device of that identifier answered, and it is 16
    exactly when none of the sixteen did. *)
Theorem joystickInit_first_device (joyGetDevCaps : Z -> option (Z * Z))
    (axismap0 buttonmap0 : list Z) :
  let joyid :=
    fst (joystickInit VENDOR_STM PRODUCT_TARANIS PRODUCT_PS3_CLONE
           PRODUCT_PS4 PRODUCT_XBOX360_CLONE PRODUCT_EXTREMEPRO3D
           PRODUCT_F310 joyGetDevCaps axismap0 buttonmap0) in
  0 <= joyid <= 16
  /\ (forall id, 0 <= id < joyid -> joyGetDevCaps id = None)
  /\ (joyid < 16 -> exists caps, joyGetDevCaps joyid = Some caps)
  /\ (joyid = 16 <-> forall id, 0 <= id < 16 -> joyGetDevCaps id = None).
Proof.
  unfold joystickInit.
  pose proof (first_joystick_search joyGetDevCaps 16 0) as Hs.
  cbv zeta in Hs.
  destruct (first_joystick joyGetDevCaps 0 16) as [joyid found].
  cbn [fst snd] in *. destruct Hs as (Hr & Hn & Hf).
  split; [lia|]. split; [exact Hn|]. split; [|split].
  - intros Hlt. destruct found as [c|]; [|lia]. exists c. apply Hf.
  - intros ->. exact Hn.
  - intros Hall. destruct found as [c|]; [|lia].
    destruct Hf as [Hlt Hc]. rewrite Hall in Hc by lia. discriminate.
Qed.

Lemma first_joystick_found_lt (caps : Z -> option (Z * Z)) (joyid : Z)
    (c : Z * Z) :
  first_joystick caps 0 16 = (joyid, Some c) -> (joyid <? 16) = true.
Proof.
  intros Hf. pose proof (first_joystick_search caps 16 0) as Hs.
  cbv zeta in Hs. rewrite Hf in Hs. cbn [fst snd] in Hs.
  apply Z.ltb_lt. lia.
Qed.

(** X14: how the three flags hang together.  [reversedVerticals] is set
    exactly when a device was found whose vendor is not the transmitter
    vendor; a springy throttle comes only with a button for the aux
    channel, and a button for the aux channel only with reversed
    verticals. *)
Theorem joystickInit_flags (joyGetDevCaps : Z -> option (Z * Z))
    (axismap0 buttonmap0 : list Z) :
  let r :=
    snd (joystickInit VENDOR_STM PRODUCT_TARANIS PRODUCT_PS3_CLONE
           PRODUCT_PS4 PRODUCT_XBOX360_CLONE PRODUCT_EXTREMEPRO3D
           PRODUCT_F310 joyGetDevCaps axismap0 buttonmap0) in
  reversedVerticals r
  = match snd (first_joystick joyGetDevCaps 0 16) with
    | Some (vendorId, _) => negb (vendorId =? VENDOR_STM)
    | None => false
    end
  /\ (springyThrottle r = true -> useButtonForAux r = true)
  /\ (useButtonForAux r = true -> reversedVerticals r = true).
Proof.
  unfold joystickInit.
  destruct (first_joystick joyGetDevCaps 0 16) as [joyid [[v p]|]] eqn:Hf;
    cbn [fst snd]; [|repeat split; discriminate].
  rewrite (first_joystick_found_lt _ _ _ Hf).
  destruct (v =? VENDOR_STM); [destruct (p =? PRODUCT_TARANIS)|];
    cbn [negb reversedVerticals springyThrottle useButtonForAux];
    [repeat split; discriminate..|].
  destruct ((p =? PRODUCT_PS3_CLONE) || (p =? PRODUCT_PS4));
    [repeat split|].
  destruct (p =? PRODUCT_XBOX360_CLONE); [repeat split|].
  destruct (p =? PRODUCT_EXTREMEPRO3D); [repeat split; discriminate|].
  destruct (p =? PRODUCT_F310); repeat split; discriminate.
Qed.

(** X15: a recognised device reads four different axes.  For a device
    that is a transmitter of the known vendor or one of the five known
    game controllers, the first four cells of the axis map are four
    different fields of the joystick state, each from 0 to 5; for a
    transmitter this holds of all five cells. *)
Theorem joystickInit_axes (joyGetDevCaps : Z -> option (Z * Z))
    (axismap0 buttonmap0 : list Z) (vendorId productId : Z) :
  length axismap0 = 5%nat ->
  snd (first_joystick joyGetDevCaps 0 16) = Some (vendorId, productId) ->
  vendorId = VENDOR_STM
  \/ In productId [PRODUCT_PS3_CLONE; PRODUCT_PS4; PRODUCT_XBOX360_CLONE;
                   PRODUCT_EXTREMEPRO3D; PRODUCT_F310] ->
  let r :=
    snd (joystickInit VENDOR_STM PRODUCT_TARANIS PRODUCT_PS3_CLONE
           PRODUCT_PS4 PRODUCT_XBOX360_CLONE PRODUCT_EXTREMEPRO3D
           PRODUCT_F310 joyGetDevCaps axismap0 buttonmap0) in
  NoDup (take 4 (axismap r))
  /\ Forall (fun c => 0 <= c <= 5) (take 4 (axismap r))
  /\ length (axismap r) = 5%nat
  /\ (vendorId = VENDOR_STM ->
      NoDup (axismap r) /\ Forall (fun c => 0 <= c <= 5) (axismap r)).
Proof.
  intros Hlen Hfound Hknown.
  destruct axismap0 as [|a0 [|a1 [|a2 [|a3 [|a4 [|]]]]]]; try discriminate.
  unfold joystickInit.
  destruct (first_joystick joyGetDevCaps 0 16) as [joyid found] eqn:Hf.
  cbn [snd] in Hfound. subst found.
  rewrite (first_joystick_found_lt _ _ _ Hf). cbn [fst snd].
  assert (Hnd4 : forall a b c d : Z,
            a <> b -> a <> c -> a <> d -> b <> c -> b <> d -> c <> d ->
            NoDup [a; b; c; d]).
  { intros a b c d ? ? ? ? ? ?.
    repeat (apply NoDup_cons_2;
            [rewrite ?not_elem_of_cons; repeat split; try assumption;
             apply not_elem_of_nil|]).
    apply NoDup_nil_2. }
  assert (Hnd5 : forall a b c d e : Z,
            NoDup [b; c; d; e] -> a <> b -> a <> c -> a <> d -> a <> e ->
            NoDup [a; b; c; d; e]).
  { intros a b c d e Hn ? ? ? ?. apply NoDup_cons_2; [|exact Hn].
    rewrite !not_elem_of_cons. repeat split; try assumption.
    apply not_elem_of_nil. }
  destruct (Z.eqb_spec vendorId VENDOR_STM) as [Hv | Hv].
  - destruct (productId =? PRODUCT_TARANIS);
      cbn [axismap insert list_insert take];
      (split; [apply Hnd4; lia|]);
      (split; [repeat constructor; lia|]);
      (split; [reflexivity|]); intros _;
      (split; [apply Hnd5; [apply Hnd4|..]; lia | repeat constructor; lia]).
  - destruct Hknown as [Hk | Hk]; [contradiction|].
    cbn [In] in Hk.
    destruct (Z.eqb_spec productId PRODUCT_PS3_CLONE);
      destruct (Z.eqb_spec productId PRODUCT_PS4); cbn [orb];
      try (cbn [axismap insert list_insert take];
           (split; [apply Hnd4; lia|]);
           (split; [repeat constructor; lia|]);
           (split; [reflexivity|]); intros; contradiction).
    destruct (Z.eqb_spec productId PRODUCT_XBOX360_CLONE);
      try (cbn [axismap insert list_insert take];
           (split; [apply Hnd4; lia|]);
           (split; [repeat constructor; lia|]);
           (split; [reflexivity|]); intros; contradiction).
    destruct (Z.eqb_spec productId PRODUCT_EXTREMEPRO3D);
      try (cbn [axismap insert list_insert take];
           (split; [apply Hnd4; lia|]);
           (split; [repeat constructor; lia|]);
           (split; [reflexivity|]); intros; contradiction).
    destruct (Z.eqb_spec productId PRODUCT_F310);
      try (cbn [axismap insert list_insert take];
           (split; [apply Hnd4; lia|]);
           (split; [repeat constructor; lia|]);
           (split; [reflexivity|]); intros; contradiction).
Qed.

(** X16: the cells that no branch assigns.  For a device that is not a
    transmitter of the known vendor, cell 4 of the axis map and cells 3 and
    4 of the button map are never assigned, and for a product that is none
    of the five known game controllers no cell of either map is, while the
    verticals are reported reversed; for a transmitter no cell of the
    button map is assigned.  These cells reach the receiver as the stack
    had them. *)
Theorem joystickInit_unassigned (joyGetDevCaps : Z -> option (Z * Z))
    (axismap0 buttonmap0 : list Z) (vendorId productId : Z) :
  snd (first_joystick joyGetDevCaps 0 16) = Some (vendorId, productId) ->
  let r :=
    snd (joystickInit VENDOR_STM PRODUCT_TARANIS PRODUCT_PS3_CLONE
           PRODUCT_PS4 PRODUCT_XBOX360_CLONE PRODUCT_EXTREMEPRO3D
           PRODUCT_F310 joyGetDevCaps axismap0 buttonmap0) in
  (vendorId = VENDOR_STM -> buttonmap r = buttonmap0)
  /\ (vendorId <> VENDOR_STM ->
      axismap r !! 4%nat = axismap0 !! 4%nat
      /\ buttonmap r !! 3%nat = buttonmap0 !! 3%nat
      /\ buttonmap r !! 4%nat = buttonmap0 !! 4%nat)
  /\ (vendorId <> VENDOR_STM ->
      ~ In productId [PRODUCT_PS3_CLONE; PRODUCT_PS4; PRODUCT_XBOX360_CLONE;
                      PRODUCT_EXTREMEPRO3D; PRODUCT_F310] ->
      r = mkSimReceiver axismap0 buttonmap0 true false false).
Proof.
  intros Hfound. unfold joystickInit.
  destruct (first_joystick joyGetDevCaps 0 16) as [joyid found] eqn:Hf.
  cbn [snd] in Hfound. subst found.
  rewrite (first_joystick_found_lt _ _ _ Hf). cbn [fst snd].
  destruct (Z.eqb_spec vendorId VENDOR_STM) as [Hv | Hv].
  - split; [|split; intros; contradiction].
    intros _. destruct (productId =? PRODUCT_TARANIS); reflexivity.
  - split; [intros; contradiction|].
    cbn [In].
    destruct (Z.eqb_spec productId PRODUCT_PS3_CLONE);
      destruct (Z.eqb_spec productId PRODUCT_PS4); cbn [orb];
      try (split; [intros _; cbn [axismap buttonmap];
                   rewrite !list_lookup_insert_ne by lia; repeat split
                  |intros _ Hn; exfalso; intuition congruence]).
    destruct (Z.eqb_spec productId PRODUCT_XBOX360_CLONE);
      try (split; [intros _; cbn [axismap buttonmap];
                   rewrite !list_lookup_insert_ne by lia; repeat split
                  |intros _ Hn; exfalso; intuition congruence]).
    destruct (Z.eqb_spec productId PRODUCT_EXTREMEPRO3D);
      try (split; [intros _; cbn [axismap buttonmap];
                   rewrite !list_lookup_insert_ne by lia; repeat split
                  |intros _ Hn; exfalso; intuition congruence]).
    destruct (Z.eqb_spec productId PRODUCT_F310);
      try (split; [intros _; cbn [axismap buttonmap];
                   rewrite !list_lookup_insert_ne by lia; repeat split
                  |intros _ Hn; exfalso; intuition congruence]).
    split; [intros _; repeat split | intros _ _; reflexivity].
Qed.

End JoystickInitProperties.

Lemma joystickInit_axes_witness :
  let r :=
    snd (joystickInit 1 2 3 4 5 6 7
           (fun id => if id =? 3 then Some (1, 2) else None)
           [9; 9; 9; 9; 9] [8; 8; 8; 8; 8]) in
  axismap r = [0; 1; 2; 5; 3] /\ NoDup (axismap r).
Proof.
  split; [reflexivity|].
  refine (proj1 (proj2 (proj2 (proj2
            (joystickInit_axes 1 2 3 4 5 6 7
               (fun id => if id =? 3 then Some (1, 2) else None)
               [9; 9; 9; 9; 9] [8; 8; 8; 8; 8] 1 2 eq_refl eq_refl
               (or_introl eq_refl)))) eq_refl)).
Defined.

Lemma joystickInit_unassigned_witness :
  snd (joystickInit 1 2 3 4 5 6 7
         (fun id => if id =? 0 then Some (40, 50) else None)
         [9; 9; 9; 9; 9] [8; 8; 8; 8; 8])
  = mkSimReceiver [9; 9; 9; 9; 9] [8; 8; 8; 8; 8] true false false.
Proof.
  refine (proj2 (proj2
            (joystickInit_unassigned 1 2 3 4 5 6 7
               (fun id => if id =? 0 then Some (40, 50) else None)
               [9; 9; 9; 9; 9] [8; 8; 8; 8; 8] 40 50 eq_refl)) _ _).
  - discriminate.
  - cbn. intros [H|[H|[H|[H|[H|[]]]]]]; discriminate H.
Defined.

(** ** Joystick events *)

Section PollProperties.
Context {float : Type} `{FloatOps float}.
Variables PRODUCT_F310 PRODUCT_SPEKTRUM : Z.
Variables PRODUCT_XBOX360_WIRELESS PRODUCT_REALFLIGHT_INTERLINK : Z.

Local Abbreviation poll' :=
  (JoystickLinux.poll PRODUCT_F310 PRODUCT_SPEKTRUM PRODUCT_XBOX360_WIRELESS
     PRODUCT_REALFLIGHT_INTERLINK).
Local Abbreviation axisMap_of' :=
  (axisMap_of PRODUCT_SPEKTRUM PRODUCT_REALFLIGHT_INTERLINK PRODUCT_F310
     PRODUCT_XBOX360_WIRELESS).

Lemma poll_unfold (j : JoystickLinux.Joystick) (js : JoystickLinux.js_event)
    (_axes axes : list float) :
  poll' j js _axes axes
  = if JoystickLinux._joystickId j <=? 0
    then (JoystickLinux.ERROR_PRODUCT, _axes, axes)
    else if negb (Z.land (JoystickLinux.js_type js)
                         JoystickLinux.JS_EVENT_INIT =? 0)
    then (JoystickLinux.ERROR_NOERROR, _axes, axes)
    else
      match axisMap_of' (JoystickLinux._productId j) with
      | None => (JoystickLinux.ERROR_PRODUCT, _axes, axes)
      | Some axisMap =>
          let _axes' :=
            if JoystickLinux.js_type js =? JoystickLinux.JS_EVENT_AXIS then
              JoystickLinux.store _axes
                (default JoystickLinux.AX_NIL
                   (axisMap !! Z.to_nat (JoystickLinux.js_number js)))
                (of_int (JoystickLinux.js_value js) / of_int 32768)%F
            else if JoystickLinux.js_type js
                    =? JoystickLinux.JS_EVENT_BUTTON then
              if JoystickLinux._productId j =? PRODUCT_REALFLIGHT_INTERLINK
              then JoystickLinux.handleRealflightInterlinkButtons
                     (JoystickLinux.js_number js)
                     (JoystickLinux.js_value js) _axes
              else _axes
            else _axes in
          (JoystickLinux.ERROR_NOERROR, _axes',
           if (JoystickLinux._productId j =? PRODUCT_REALFLIGHT_INTERLINK)
              || negb (JoystickLinux._isRcTransmitter j)
           then invert_verticals (JoystickLinux.copy_axes _axes' axes)
           else JoystickLinux.copy_axes _axes' axes)
      end.
Proof.
  unfold JoystickLinux.poll, axisMap_of, invert_verticals.
  destruct (JoystickLinux._joystickId j <=? 0); [reflexivity|].
  destruct (negb _); [reflexivity|].
  destruct (JoystickLinux._productId j =? PRODUCT_F310); [reflexivity|].
  destruct (JoystickLinux._productId j =? PRODUCT_SPEKTRUM); [reflexivity|].
  destruct (JoystickLinux._productId j =? PRODUCT_XBOX360_WIRELESS);
    [reflexivity|].
  destruct (JoystickLinux._productId j =? PRODUCT_REALFLIGHT_INTERLINK);
    reflexivity.
Qed.

Lemma axisMap_of_None (productId : Z) :
  axisMap_of' productId = None
  <-> ~ In productId [PRODUCT_F310; PRODUCT_SPEKTRUM;
                      PRODUCT_XBOX360_WIRELESS; PRODUCT_REALFLIGHT_INTERLINK].
Proof.
  unfold axisMap_of. cbn [In].
  destruct (Z.eqb_spec productId PRODUCT_F310);
    [split; [discriminate|intros Hn; exfalso; apply Hn; auto]|].
  destruct (Z.eqb_spec productId PRODUCT_SPEKTRUM);
    [split; [discriminate|intros Hn; exfalso; apply Hn; auto]|].
  destruct (Z.eqb_spec productId PRODUCT_XBOX360_WIRELESS);
    [split; [discriminate|intros Hn; exfalso; apply Hn; auto]|].
  destruct (Z.eqb_spec productId PRODUCT_REALFLIGHT_INTERLINK);
    [split; [discriminate|intros Hn; exfalso; apply Hn; auto]|].
  split; [intros _ Hin; intuition congruence | reflexivity].
Qed.

(** X17: when [poll] fails, and what it leaves alone.  [poll] returns
    [ERROR_PRODUCT] exactly when the device was not opened, or the event is
    not an init event and the product is none of the four that have an axis
    map; an init event of an opened device is answered with
    [ERROR_NOERROR] before the product is looked at.  In all these cases
    neither the static array nor the caller's array is written. *)
Theorem poll_error_code (j : JoystickLinux.Joystick)
    (js : JoystickLinux.js_event) (_axes axes : list float) :
  let opened := 0 < JoystickLinux._joystickId j in
  let init := Z.land (JoystickLinux.js_type js) JoystickLinux.JS_EVENT_INIT
              <> 0 in
  let mapped := In (JoystickLinux._productId j)
                   [PRODUCT_F310; PRODUCT_SPEKTRUM; PRODUCT_XBOX360_WIRELESS;
                    PRODUCT_REALFLIGHT_INTERLINK] in
  let err := fst (fst (poll' j js _axes axes)) in
  (err = JoystickLinux.ERROR_PRODUCT <-> ~ opened \/ (~ init /\ ~ mapped))
  /\ (err = JoystickLinux.ERROR_PRODUCT \/ (opened /\ init) ->
      poll' j js _axes axes = (err, _axes, axes)).
Proof.
  intros opened init mapped err. subst opened init mapped err.
  rewrite poll_unfold.
  pose proof (axisMap_of_None (JoystickLinux._productId j)) as Hmap.
  destruct (Z.leb_spec (JoystickLinux._joystickId j) 0) as [Hid | Hid].
  { cbn [fst]. split; [split; [intros _; left; lia | reflexivity]|].
    reflexivity. }
  destruct (Z.eqb_spec (Z.land (JoystickLinux.js_type js)
                               JoystickLinux.JS_EVENT_INIT) 0) as [Hi | Hi];
    cbn [negb].
  - destruct (axisMap_of' (JoystickLinux._productId j)) as [axisMap|] eqn:Hm.
    + cbn [fst]. split.
      * split; [discriminate|].
        intros [Hno | [_ Hnm]]; [lia|].
        apply Hmap in Hnm. discriminate.
      * intros [Herr | [_ Hin]]; [discriminate | contradiction].
    + cbn [fst]. split; [|reflexivity].
      split; [intros _; right; split; [tauto | apply Hmap; reflexivity]
             |reflexivity].
  - cbn [fst]. split; [|reflexivity].
    split; [discriminate|]. intros [Hno | [Hni _]]; [lia | tauto].
Qed.

Lemma copy_axes_full (src dst : list float) :
  length src = 6%nat -> length dst = 6%nat ->
  JoystickLinux.copy_axes src dst = src.
Proof.
  intros Hs Hd.
  destruct src as [|s0 [|s1 [|s2 [|s3 [|s4 [|s5 [|]]]]]]]; try discriminate.
  destruct dst as [|d0 [|d1 [|d2 [|d3 [|d4 [|d5 [|]]]]]]]; try discriminate.
  reflexivity.
Qed.

Lemma store_length (axes : list float) (k : Z) (v : float) :
  length (JoystickLinux.store axes k v) = length axes.
Proof.
  unfold JoystickLinux.store. destruct (k <? 0); [reflexivity|].
  apply length_insert.
Qed.

Lemma handleRealflightInterlinkButtons_length (number value : Z)
    (axes : list float) :
  length (JoystickLinux.handleRealflightInterlinkButtons number value axes)
  = length axes.
Proof.
  unfold JoystickLinux.handleRealflightInterlinkButtons.
  repeat match goal with
         | |- context [if ?b then _ else _] => destruct b
         end;
    rewrite ?store_length; reflexivity.
Qed.

(** X18: the caller gets the static array.  For an opened device with an
    axis map and an event that is not an init event, [poll] succeeds and
    overwrites the caller's six cells with the six cells of the static array
    as the event left it, axes 0 and 2 with their sign changed when the
    device is an InterLink or no transmitter; what the caller's array held
    before plays no part. *)
Theorem poll_reports_static (j : JoystickLinux.Joystick)
    (js : JoystickLinux.js_event) (_axes axes : list float) :
  0 < JoystickLinux._joystickId j ->
  Z.land (JoystickLinux.js_type js) JoystickLinux.JS_EVENT_INIT = 0 ->
  In (JoystickLinux._productId j)
     [PRODUCT_F310; PRODUCT_SPEKTRUM; PRODUCT_XBOX360_WIRELESS;
      PRODUCT_REALFLIGHT_INTERLINK] ->
  length _axes = 6%nat -> length axes = 6%nat ->
  let err := fst (fst (poll' j js _axes axes)) in
  let _axes' := snd (fst (poll' j js _axes axes)) in
  let axes' := snd (poll' j js _axes axes) in
  err = JoystickLinux.ERROR_NOERROR
  /\ length _axes' = 6%nat
  /\ axes' = (if (JoystickLinux._productId j =? PRODUCT_REALFLIGHT_INTERLINK)
                 || negb (JoystickLinux._isRcTransmitter j)
              then invert_verticals _axes' else _axes').
Proof.
  intros Hid Hinit Hin Hs Ha. cbv zeta. rewrite poll_unfold.
  destruct (Z.leb_spec (JoystickLinux._joystickId j) 0); [lia|].
  rewrite Hinit. cbn [Z.eqb negb].
  destruct (axisMap_of' (JoystickLinux._productId j)) as [axisMap|] eqn:Hm;
    [|apply axisMap_of_None in Hm; contradiction].
  cbv zeta. cbn [fst snd].
  match goal with
  | |- context [JoystickLinux.copy_axes ?x axes] => set (st := x)
  end.
  assert (Hlen : length st = 6%nat).
  { subst st.
    repeat match goal with
           | |- context [if ?b then _ else _] => destruct b
           end;
      rewrite ?store_length, ?handleRealflightInterlinkButtons_length;
      exact Hs. }
  rewrite (copy_axes_full st axes Hlen Ha).
  repeat split. exact Hlen.
Qed.

(** X19: what an event does to the static array.  For an opened device
    with an axis map: an axis event whose number the map sends to one of the
    six axes puts the value over 32768 into that cell and leaves the other
    five alone; a button event of a device that is no InterLink, and an
    event that is neither an axis nor a button event, leave all six
    alone. *)
Theorem poll_axis_event (j : JoystickLinux.Joystick)
    (js : JoystickLinux.js_event) (_axes axes : list float)
    (axisMap : list Z) (k : Z) :
  0 < JoystickLinux._joystickId j ->
  Z.land (JoystickLinux.js_type js) JoystickLinux.JS_EVENT_INIT = 0 ->
  axisMap_of' (JoystickLinux._productId j) = Some axisMap ->
  length _axes = 6%nat ->
  let _axes' := snd (fst (poll' j js _axes axes)) in
  (JoystickLinux.js_type js = JoystickLinux.JS_EVENT_AXIS ->
   0 <= JoystickLinux.js_number js ->
   axisMap !! Z.to_nat (JoystickLinux.js_number js) = Some k ->
   0 <= k < 6 ->
   _axes' = <[Z.to_nat k :=
                (of_int (JoystickLinux.js_value js) / of_int 32768)%F]> _axes
   /\ _axes' !! Z.to_nat k
      = Some (of_int (JoystickLinux.js_value js) / of_int 32768)%F)
  /\ (JoystickLinux.js_type js = JoystickLinux.JS_EVENT_BUTTON ->
      JoystickLinux._productId j <> PRODUCT_REALFLIGHT_INTERLINK ->
      _axes' = _axes)
  /\ (JoystickLinux.js_type js <> JoystickLinux.JS_EVENT_AXIS ->
      JoystickLinux.js_type js <> JoystickLinux.JS_EVENT_BUTTON ->
      _axes' = _axes).
Proof.
  intros Hid Hinit Hm Hs. cbv zeta. rewrite poll_unfold.
  destruct (Z.leb_spec (JoystickLinux._joystickId j) 0); [lia|].
  rewrite Hinit, Hm. cbn [Z.eqb negb]. cbv zeta. cbn [fst snd].
  split; [|split].
  - intros Htype Hnum Hk Hrange. rewrite Htype, Z.eqb_refl, Hk.
    change (default JoystickLinux.AX_NIL (Some k)) with k.
    unfold JoystickLinux.store.
    destruct (Z.ltb_spec k 0); [lia|]. split; [reflexivity|].
    apply list_lookup_insert_eq. rewrite Hs. lia.
  - intros Htype Hprod. rewrite Htype.
    change (JoystickLinux.JS_EVENT_BUTTON =? JoystickLinux.JS_EVENT_AXIS)
      with false.
    rewrite Z.eqb_refl.
    destruct (Z.eqb_spec (JoystickLinux._productId j)
                PRODUCT_REALFLIGHT_INTERLINK); [contradiction|reflexivity].
  - intros Hna Hnb.
    destruct (Z.eqb_spec (JoystickLinux.js_type js)
                JoystickLinux.JS_EVENT_AXIS); [contradiction|].
    destruct (Z.eqb_spec (JoystickLinux.js_type js)
                JoystickLinux.JS_EVENT_BUTTON); [contradiction|reflexivity].
Qed.

End PollProperties.

Lemma all_from_spec (f : Z -> bool) (n : nat) (start v : Z) :
  all_from f start n = true -> start <= v < start + Z.of_nat n ->
  f v = true.
Proof.
  revert start. induction n as [|n IH]; intros start Hall Hv; [lia|].
  cbn [all_from] in Hall. apply andb_prop in Hall as [Hs Hrest].
  destruct (Z.eq_dec v start) as [-> | Hne]; [exact Hs|].
  apply (IH (start + 1)); [exact Hrest | lia].
Qed.

Lemma int16_axis_values_exact :
  all_from axis_value_exact (-32768) (Z.to_nat 65536) = true.
Proof. vm_compute. reflexivity. Qed.

Lemma binary32_to_Q_scaled (s : bool) (m : positive) (e v : Z) :
  e <= -15 -> Z.pos m = Z.abs v * 2 ^ (- (e + 15)) -> s = (v <? 0) ->
  (Binary32.to_Q (S754_finite s m e) == v # 32768)%Q.
Proof.
  intros He Hm Hs. unfold Binary32.to_Q.
  set (n := - (e + 15)) in *.
  assert (Hn : 0 <= n) by lia.
  assert (Hsign : cond_Zopp s (Z.pos m) = v * 2 ^ n).
  { rewrite Hm, Hs. destruct (Z.ltb_spec v 0); cbn [cond_Zopp]; lia. }
  rewrite Hsign. replace e with (- (n + 15)) by lia.
  rewrite Qpower_opp.
  change 2%Q with (inject_Z 2). rewrite <- Zpower_Qpower by lia.
  rewrite Z.pow_add_r by lia. change (2 ^ 15) with 32768.
  rewrite !inject_Z_mult. rewrite (Qmake_Qdiv v 32768).
  assert (Hp : ~ (inject_Z (2 ^ n) == 0)%Q).
  { intros Hz. unfold Qeq in Hz. cbn in Hz.
    assert (0 < 2 ^ n) by (apply Z.pow_pos_nonneg; lia). lia. }
  change (inject_Z (Z.pos 32768)) with (inject_Z 32768).
  field. exact Hp.
Qed.

(** X20: an axis value is the 16-bit value over 32768, and stays below
    one.  For every value of an [int16_t] the quotient that an axis event
    stores is at least -1 and below 1 in exact arithmetic, and binary32
    forms it without rounding: the binary32 quotient is a finite number
    that denotes the same rational value. *)
Theorem axis_value_normalised (v : Z) :
  -32768 <= v <= 32767 ->
  ((- (1) <= (of_int v / of_int 32768)%F)%Qc
   /\ ((of_int v / of_int 32768)%F < 1)%Qc)
  /\ Binary32.is_finite (of_int v / of_int 32768)%F = true
  /\ (Binary32.to_Q (of_int v / of_int 32768)%F == v # 32768)%Q.
Proof.
  intros Hv. split; [|].
  - exact_arith.
    assert (Hq : (Q2Qc (inject_Z v) / Q2Qc (inject_Z 32768))%Qc
                 = Q2Qc (v # 32768)).
    { apply Qc_is_canon. cbn [Qcdiv Qcmult Qcinv this Q2Qc].
      rewrite !Qred_correct. rewrite (Qmake_Qdiv v 32768).
      reflexivity. }
    rewrite Hq. split.
    + unfold Qcle. cbn [this Qcopp Q2Qc]. rewrite !Qred_correct.
      unfold Qle. cbn. lia.
    + unfold Qclt. cbn [this Q2Qc]. rewrite !Qred_correct.
      unfold Qlt. cbn. lia.
  - pose proof (all_from_spec axis_value_exact (Z.to_nat 65536) (-32768) v
                  int16_axis_values_exact ltac:(lia)) as Hx.
    unfold axis_value_exact in Hx.
    destruct (of_int v / of_int 32768 : spec_float)%F
      as [[] | | | s m e] eqn:Hq; try discriminate.
    + apply Z.eqb_eq in Hx. subst v. split; reflexivity.
    + apply andb_prop in Hx as [Hx Hs]. apply andb_prop in Hx as [He Hm].
      apply Z.leb_le in He. apply Z.eqb_eq in Hm.
      apply Bool.eqb_prop in Hs.
      split; [reflexivity|]. apply binary32_to_Q_scaled; assumption.
Qed.

(** X21: what the button handler leaves alone.  For every button number
    and value and every array, [handleRealflightInterlinkButtons] keeps the
    length of the array and every cell other than the aux channel, and it
    leaves the whole array as it is unless the button is 3 or 4 and the
    value 0 or 1. *)
Theorem handleRealflightInterlinkButtons_frame {float : Type}
    `{FloatOps float} (number value : Z) (axes : list float) :
  let axes' :=
    JoystickLinux.handleRealflightInterlinkButtons number value axes in
  length axes' = length axes
  /\ (forall k : nat, k <> 4%nat -> axes' !! k = axes !! k)
  /\ (~ (In number [3; 4] /\ In value [0; 1]) -> axes' = axes).
Proof.
  intros axes'. subst axes'.
  split; [apply handleRealflightInterlinkButtons_length|].
  split; [intros k Hk; apply handleRealflightInterlinkButtons_others;
          exact Hk|].
  intros Hn. unfold JoystickLinux.handleRealflightInterlinkButtons.
  cbn [In] in Hn.
  destruct (Z.eqb_spec number 3), (Z.eqb_spec number 4),
    (Z.eqb_spec value 0), (Z.eqb_spec value 1); cbn [andb];
    try reflexivity; exfalso; apply Hn; auto.
Qed.

Section IdentifyProperties.
Context {float : Type} `{FloatOps float}.
Local Open Scope string_scope.
Variables PRODUCT_TARANIS PRODUCT_SPEKTRUM PRODUCT_REALFLIGHT_INTERLINK : Z.
Variables PRODUCT_EXTREMEPRO3D PRODUCT_XBOX360_CLONE PRODUCT_F310 : Z.
Variables PRODUCT_XBOX360_WIRELESS : Z.

Local Abbreviation Joystick_new' :=
  (Joystick_new PRODUCT_TARANIS PRODUCT_SPEKTRUM PRODUCT_REALFLIGHT_INTERLINK
     PRODUCT_EXTREMEPRO3D PRODUCT_XBOX360_CLONE PRODUCT_F310
     PRODUCT_XBOX360_WIRELESS).
Local Abbreviation poll' :=
  (JoystickLinux.poll PRODUCT_F310 PRODUCT_SPEKTRUM PRODUCT_XBOX360_WIRELESS
     PRODUCT_REALFLIGHT_INTERLINK).

Lemma Joystick_new_joystickId (fd : Z) (productName : option String.string)
    (j0 : JoystickLinux.Joystick) :
  JoystickLinux._joystickId (Joystick_new' fd productName j0) = fd.
Proof.
  unfold Joystick_new. cbv zeta.
  destruct (0 <? fd); [|reflexivity].
  destruct productName as [n|]; [|reflexivity].
  repeat match goal with
         | |- context [if ?b then _ else _] => destruct b
         end; reflexivity.
Qed.

(** X22: a device that could not be opened never delivers anything.  When
    [open] returns no descriptor above zero, the constructor leaves product
    and transmitter flag as they were, and every later [poll], whatever the
    event, returns [ERROR_PRODUCT] and writes neither array. *)
Theorem Joystick_not_opened (fd : Z) (productName : option String.string)
    (j0 : JoystickLinux.Joystick) (js : JoystickLinux.js_event)
    (_axes axes : list float) :
  fd <= 0 ->
  Joystick_new' fd productName j0
  = JoystickLinux.mkJoystick fd (JoystickLinux._productId j0)
      (JoystickLinux._isRcTransmitter j0)
  /\ poll' (Joystick_new' fd productName j0) js _axes axes
     = (JoystickLinux.ERROR_PRODUCT, _axes, axes).
Proof.
  intros Hfd. split.
  - unfold Joystick_new. cbv zeta.
    destruct (Z.ltb_spec 0 fd); [lia|reflexivity].
  - unfold JoystickLinux.poll. rewrite Joystick_new_joystickId.
    destruct (Z.leb_spec fd 0); [reflexivity|lia].
Qed.

(** X23: three devices are recognised and then refused.  A device whose
    name holds "Taranis", one whose name holds "Extreme 3D" and one whose
    name holds "Generic X-Box pad" (each with no earlier name of the chain
    in it) is given its product identifier by the constructor, but [poll]
    has no axis map for it: when the identifier differs from the four that
    have a map, every event of such an opened device that is not an init
    event is answered with [ERROR_PRODUCT] and nothing is written. *)
Theorem Joystick_recognised_without_map (fd : Z)
    (productName : String.string) (j0 : JoystickLinux.Joystick)
    (js : JoystickLinux.js_event) (_axes axes : list float) :
  0 < fd ->
  Z.land (JoystickLinux.js_type js) JoystickLinux.JS_EVENT_INIT = 0 ->
  let j := Joystick_new' fd (Some productName) j0 in
  let refused :=
    poll' j js _axes axes = (JoystickLinux.ERROR_PRODUCT, _axes, axes) in
  let unmapped p :=
    ~ In p [PRODUCT_F310; PRODUCT_SPEKTRUM; PRODUCT_XBOX360_WIRELESS;
            PRODUCT_REALFLIGHT_INTERLINK] in
  let transmitter :=
    strstr productName "Taranis"
    || strstr productName "DeviationTx Deviation GamePad"
    || strstr productName "Horizon Hobby SPEKTRUM"
    || strstr productName "GREAT PLANES InterLink Elite" in
  (strstr productName "Taranis" = true ->
   (JoystickLinux._productId j = PRODUCT_TARANIS
    /\ JoystickLinux._isRcTransmitter j = true)
   /\ (unmapped PRODUCT_TARANIS -> refused))
  /\ (transmitter = false -> strstr productName "Extreme 3D" = true ->
      JoystickLinux._productId j = PRODUCT_EXTREMEPRO3D
      /\ (unmapped PRODUCT_EXTREMEPRO3D -> refused))
  /\ (transmitter = false -> strstr productName "Extreme 3D" = false ->
      strstr productName "Generic X-Box pad" = true ->
      JoystickLinux._productId j = PRODUCT_XBOX360_CLONE
      /\ (unmapped PRODUCT_XBOX360_CLONE -> refused)).
Proof.
  intros Hfd Hinit j refused unmapped transmitter.
  assert (Hpoll : unmapped (JoystickLinux._productId j) -> refused).
  { intros Hun. subst refused.
    pose proof (poll_error_code PRODUCT_F310 PRODUCT_SPEKTRUM
                  PRODUCT_XBOX360_WIRELESS PRODUCT_REALFLIGHT_INTERLINK
                  j js _axes axes) as [Herr Hkeep].
    cbv zeta in Herr, Hkeep.
    assert (He : fst (fst (poll' j js _axes axes))
                 = JoystickLinux.ERROR_PRODUCT).
    { apply Herr. right. split; [intros Hi; apply Hi; exact Hinit|exact Hun]. }
    rewrite Hkeep by (left; exact He). rewrite He. reflexivity. }
  assert (Hopen : (0 <? fd) = true) by (apply Z.ltb_lt; exact Hfd).
  split; [|split].
  - intros Hname.
    assert (Hj : j = JoystickLinux.mkJoystick fd PRODUCT_TARANIS true).
    { subst j. unfold Joystick_new. cbv zeta. rewrite Hopen, Hname.
      reflexivity. }
    split; [rewrite Hj; split; reflexivity|].
    intros Hun. apply Hpoll. rewrite Hj. exact Hun.
  - subst transmitter. intros Htx Hname.
    apply orb_false_elim in Htx as [Htx Hi].
    apply orb_false_elim in Htx as [Htx Hs].
    assert (Hj : j = JoystickLinux.mkJoystick fd PRODUCT_EXTREMEPRO3D
                       (JoystickLinux._isRcTransmitter j0)).
    { subst j. unfold Joystick_new. cbv zeta.
      rewrite Hopen, Htx, Hs, Hi, Hname. reflexivity. }
    split; [rewrite Hj; reflexivity|].
    intros Hun. apply Hpoll. rewrite Hj. exact Hun.
  - subst transmitter. intros Htx Hne Hname.
    apply orb_false_elim in Htx as [Htx Hi].
    apply orb_false_elim in Htx as [Htx Hs].
    assert (Hj : j = JoystickLinux.mkJoystick fd PRODUCT_XBOX360_CLONE
                       (JoystickLinux._isRcTransmitter j0)).
    { subst j. unfold Joystick_new. cbv zeta.
      rewrite Hopen, Htx, Hs, Hi, Hne, Hname. reflexivity. }
    split; [rewrite Hj; reflexivity|].
    intros Hun. apply Hpoll. rewrite Hj. exact Hun.
Qed.

End IdentifyProperties.

Lemma poll_reports_static_witness :
  let out :=
    JoystickLinux.poll 10 11 12 13 (JoystickLinux.mkJoystick 5 10 false)
      (JoystickLinux.mk_js_event JoystickLinux.JS_EVENT_AXIS 1 16384)
      (replicate 6 (of_int 0 : spec_float))
      (replicate 6 (of_int 9 : spec_float)) in
  fst (fst out) = JoystickLinux.ERROR_NOERROR
  /\ snd out = invert_verticals (snd (fst out)).
Proof.
  pose proof (poll_reports_static 10 11 12 13
                (JoystickLinux.mkJoystick 5 10 false)
                (JoystickLinux.mk_js_event JoystickLinux.JS_EVENT_AXIS 1 16384)
                (replicate 6 (of_int 0 : spec_float))
                (replicate 6 (of_int 9 : spec_float))
                eq_refl eq_refl (or_introl eq_refl) eq_refl eq_refl)
    as (Herr & _ & Hout).
  split; [exact Herr | exact Hout].
Defined.

Lemma poll_axis_event_witness :
  snd (fst (JoystickLinux.poll 10 11 12 13
              (JoystickLinux.mkJoystick 5 10 false)
              (JoystickLinux.mk_js_event JoystickLinux.JS_EVENT_AXIS 1 16384)
              (replicate 6 (of_int 0 : spec_float))
              (replicate 6 (of_int 9 : spec_float))))
  !! 0%nat
  = Some (of_int 16384 / of_int 32768)%F.
Proof.
  refine (proj2 (proj1
            (poll_axis_event 10 11 12 13
               (JoystickLinux.mkJoystick 5 10 false)
               (JoystickLinux.mk_js_event JoystickLinux.JS_EVENT_AXIS 1 16384)
               (replicate 6 (of_int 0 : spec_float))
               (replicate 6 (of_int 9 : spec_float))
               JoystickLinux.F310_MAP 0 eq_refl eq_refl eq_refl eq_refl)
            eq_refl _ eq_refl _)).
  - cbn. lia.
  - lia.
Defined.

Lemma axis_value_normalised_witness :
  Binary32.is_finite (of_int (-32768) / of_int 32768)%F = true
  /\ (Binary32.to_Q (of_int (-32768) / of_int 32768)%F == -32768 # 32768)%Q.
Proof.
  refine (proj2 (axis_value_normalised (-32768) _)). lia.
Defined.

Lemma Joystick_not_opened_witness :
  JoystickLinux.poll 10 11 12 13
    (Joystick_new 20 11 13 21 22 10 12 (-1) None
       (JoystickLinux.mkJoystick 0 0 false))
    (JoystickLinux.mk_js_event JoystickLinux.JS_EVENT_AXIS 1 16384)
    (replicate 6 (of_int 0 : spec_float))
    (replicate 6 (of_int 9 : spec_float))
  = (JoystickLinux.ERROR_PRODUCT, replicate 6 (of_int 0),
     replicate 6 (of_int 9)).
Proof.
  refine (proj2 (Joystick_not_opened 20 11 13 21 22 10 12 (-1) None
                   (JoystickLinux.mkJoystick 0 0 false)
                   (JoystickLinux.mk_js_event JoystickLinux.JS_EVENT_AXIS
                      1 16384)
                   (replicate 6 (of_int 0 : spec_float))
                   (replicate 6 (of_int 9 : spec_float)) _)).
  lia.
Defined.

Local Open Scope string_scope.

Lemma Joystick_recognised_without_map_witness :
  let j := Joystick_new 20 11 13 21 22 10 12 4
             (Some "FrSky Taranis Joystick")
             (JoystickLinux.mkJoystick 0 0 false) in
  JoystickLinux._productId j = 20
  /\ JoystickLinux.poll 10 11 12 13 j
       (JoystickLinux.mk_js_event JoystickLinux.JS_EVENT_AXIS 1 16384)
       (replicate 6 (of_int 0 : spec_float))
       (replicate 6 (of_int 9 : spec_float))
     = (JoystickLinux.ERROR_PRODUCT, replicate 6 (of_int 0),
        replicate 6 (of_int 9)).
Proof.
  pose proof (proj1
    (Joystick_recognised_without_map 20 11 13 21 22 10 12 4
       "FrSky Taranis Joystick" (JoystickLinux.mkJoystick 0 0 false)
       (JoystickLinux.mk_js_event JoystickLinux.JS_EVENT_AXIS 1 16384)
       (replicate 6 (of_int 0 : spec_float))
       (replicate 6 (of_int 9 : spec_float)) eq_refl eq_refl) eq_refl)
    as [[Hp _] Hrefused].
  split; [exact Hp|]. apply Hrefused.
  cbn. intros [H|[H|[H|[H|[]]]]]; discriminate H.
Defined.

Local Close Scope string_scope.

(** ** The joystick state, the actuation and a restart *)

(** X24: the receiver sees eight buttons.  [joystickPoll] passes on the
    six positions in the order X, Y, Z, R, U, V, unchanged when they are
    below 2^31, and of the button mask the bits 0 to 7 only: a button from
    the ninth on is never reported.  When [joyGetPosEx] delivers nothing
    the values passed are those the stack held. *)
Theorem joystickPoll_buttons (joyGetPosEx : option JOYINFOEX)
    (stack : JOYINFOEX) :
  let joyState := default stack joyGetPosEx in
  let axes := fst (joystickPoll joyGetPosEx stack) in
  let buttons := snd (joystickPoll joyGetPosEx stack) in
  (forall i : Z, 0 <= i ->
     Z.testbit buttons i = (i <? 8) && Z.testbit (dwButtons joyState) i)
  /\ 0 <= buttons < 256
  /\ (Forall (fun p => 0 <= p < 2 ^ 31)
        [dwXpos joyState; dwYpos joyState; dwZpos joyState;
         dwRpos joyState; dwUpos joyState; dwVpos joyState] ->
      axes = [dwXpos joyState; dwYpos joyState; dwZpos joyState;
              dwRpos joyState; dwUpos joyState; dwVpos joyState]).
Proof.
  intros joyState axes buttons. subst axes buttons. unfold joystickPoll.
  fold joyState. cbn [fst snd]. split; [|split].
  - intros i Hi. change 256 with (2 ^ 8).
    destruct (Z.ltb_spec i 8).
    + rewrite Z.mod_pow2_bits_low by lia. reflexivity.
    + rewrite Z.mod_pow2_bits_high by lia. reflexivity.
  - apply Z.mod_pos_bound. lia.
  - intros Hall.
    assert (Hid : forall p, 0 <= p < 2 ^ 31 -> to_int32 p = p).
    { intros p Hp. unfold to_int32. rewrite Z.mod_small; lia. }
    repeat match goal with
           | H : Forall _ (_ :: _) |- _ =>
               apply Forall_cons_1 in H; destruct H as [? H]
           end.
    rewrite !Hid by assumption. reflexivity.
Qed.

Section Restart.
Context {float : Type} `{FloatOps float}.

(** X25: the forces of a tick come from the motors alone.  The values of
    the locals [forces] and [motorSum] that a tick computes are determined
    by the motor values at its start and the board calls of the firmware
    update: two ticks that start from the same motor values and run the
    same update compute the same three forces and the same sum, whatever
    the host reports, the frame time, the socket and the rest of the pawn
    are.  (The rotation and the thrust that [Tick] goes on to hand to the
    engine scale these values by the frame time and turn them by the Euler
    angles; they are not part of the model.) *)
Theorem Tick_forces_from_motors (u : list (BoardCall float))
    (h h' : Host float) (dt dt' : float) (srv srv' : Server)
    (s s' : Pawn float) :
  _motorvals s = _motorvals s' ->
  forces (fst (Tick u h dt (srv, s)))
  = forces (fst (Tick u h' dt' (srv', s')))
  /\ motorSum (fst (Tick u h dt (srv, s)))
     = motorSum (fst (Tick u h' dt' (srv', s'))).
Proof.
  intros Hm. rewrite !Tick_actuation. cbv zeta.
  rewrite !board_calls_motorvals. cbn [snd forces motorSum]. rewrite Hm.
  split; reflexivity.
Qed.

(** X26: a new session starts with a fresh receive.  [BeginPlay] zeroes
    the count of unread bytes, so that with a client connected the first
    [serialAvailableBytes] of the session reads the socket, whatever the
    serial members held before: the count becomes the receive result,
    negative results as zero, the cursor zero and the buffer the one
    received. *)
Theorem BeginPlay_then_serialAvailableBytes (started : bool)
    (s0 : Pawn float) (srv : Server) :
  srv_connected srv = true ->
  let r := fst (srv_incoming srv (srv_receives srv)) in
  let buf := snd (srv_incoming srv (srv_receives srv)) in
  let out := serialAvailableBytes srv (BeginPlay started s0) in
  fst (fst out) = Z.max r 0 mod 256
  /\ srv_receives (snd (fst out)) = S (srv_receives srv)
  /\ _serverAvailableBytes (snd out) = Z.max r 0
  /\ _serverByteIndex (snd out) = 0
  /\ _serverBuffer (snd out) = buf.
Proof.
  intros Hconn r buf out. subst r buf out.
  rewrite serialAvailableBytes_receive
    by first [exact Hconn | cbn [BeginPlay _serverAvailableBytes]; lia].
  destruct (srv_incoming srv (srv_receives srv)) as [r buf].
  cbn [fst snd srv_receives _serverAvailableBytes _serverByteIndex
       _serverBuffer set_serial].
  repeat split.
Qed.

End Restart.

Lemma Tick_forces_from_motors_witness :
  forces (fst (Tick [WriteMotor 0 (of_int 1)] (host_climbing (of_int 0))
                 (of_int 1)
                 (server_idle, (pawn_at_rest : Pawn spec_float))))
  = forces (fst (Tick [WriteMotor 0 (of_int 1)] (host_climbing (of_int 5))
                   (of_int 2)
                   (server_delivering 3 [],
                    (pawn_at_time (of_int 7) : Pawn spec_float)))).
Proof.
  refine (proj1 (Tick_forces_from_motors _ _ _ _ _ _ _ _ _ _)). reflexivity.
Defined.

Lemma BeginPlay_then_serialAvailableBytes_witness :
  let out := serialAvailableBytes (server_delivering 2 [x01; x02])
               (BeginPlay true
                  (pawn_with_serial 5 9 [x07] : Pawn spec_float)) in
  fst (fst out) = 2 /\ _serverByteIndex (snd out) = 0
  /\ _serverBuffer (snd out) = [x01; x02].
Proof.
  pose proof (BeginPlay_then_serialAvailableBytes true
                (pawn_with_serial 5 9 [x07] : Pawn spec_float)
                (server_delivering 2 [x01; x02]) eq_refl)
    as (Hn & _ & _ & Hi & Hb).
  split; [exact Hn|]. split; [exact Hi | exact Hb].
Defined.

(** ** The threaded worker *)

Section Worker.
Context {time : Type}.
Variable minus : time -> time -> time.

Import FThreadedWorker.

Lemma run_app (evs1 evs2 : list (step_t time)) (w : t time) :
  run minus (evs1 ++ evs2) w
  = match run minus evs1 w with
    | Some w' => run minus evs2 w'
    | None => None
    end.
Proof.
  revert w. induction evs1 as [|ev evs1 IH]; intros w; [reflexivity|].
  cbn [app run]. destruct (step minus ev w); [apply IH|reflexivity].
Qed.

(** X27: the count is the number of tasks performed.  Over every schedule
    that the worker can follow, the calls of [performTask] are made with
    the clock values of the loop bodies less the start time, in order,
    [_count] goes up by the number of these calls, modulo 2^32, and the
    start time is not changed. *)
Theorem Run_count (evs : list (step_t time)) (w w' : t time) :
  run minus evs w = Some w' ->
  performed w'
  = performed w ++ map (fun now => minus now (_startTime w)) (clock_of evs)
  /\ _count w' mod 2 ^ 32
     = (_count w + Z.of_nat (length (clock_of evs))) mod 2 ^ 32
  /\ _startTime w' = _startTime w.
Proof.
  revert w. induction evs as [|ev evs IH]; intros w Hrun.
  - cbn in Hrun. injection Hrun as <-. cbn [clock_of map length].
    rewrite app_nil_r, Z.add_0_r. repeat split.
  - cbn [run] in Hrun. destruct (step minus ev w) as [w1|] eqn:Hstep;
      [|discriminate].
    destruct (IH w1 Hrun) as (Hp & Hc & Hs).
    destruct ev; cbn [clock_of]; unfold step in Hstep;
      destruct (at_point w); try discriminate;
      injection Hstep as <-; cbn [performed _count _startTime] in *;
      try (repeat split; assumption).
    rewrite Hp, Hc, Hs. cbn [map length]. rewrite <- app_assoc.
    repeat split. rewrite Nat2Z.inj_succ.
    rewrite Z.add_mod_idemp_l by lia. f_equal. lia.
Qed.

Lemma step_Stop (w : t time) :
  step minus CallStop w
  = Some (mk false (_startTime w) (_count w) (at_point w) (performed w)).
Proof. reflexivity. Qed.

Lemma run_rounds (nows : list time) (w : t time) :
  at_point w = AtWhile -> _running w = true ->
  exists c,
    run minus (rounds nows) w
    = Some (mk true (_startTime w) c AtWhile
               (performed w
                ++ map (fun now => minus now (_startTime w)) nows)).
Proof.
  revert w. induction nows as [|now nows IH]; intros w Hp Hr.
  - exists (_count w). cbn. rewrite app_nil_r. destruct w. cbn in *.
    subst. reflexivity.
  - change (rounds (now :: nows)) with (WhileTest :: RunBody now :: rounds nows).
    cbn [run]. unfold step. rewrite Hp, Hr.
    cbn [at_point _running _startTime _count performed].
    destruct (IH (mk true (_startTime w) ((_count w + 1) mod 2 ^ 32)
                     AtWhile (performed w ++ [minus now (_startTime w)]))
                eq_refl eq_refl) as [c Hc].
    exists c. fold (step minus). rewrite Hc.
    cbn [_startTime performed map]. rewrite <- app_assoc. reflexivity.
Qed.

(** X28: a stop during the initial wait is lost.  [Run] sets [_running]
    after its initial wait whatever [_running] was: when [Stop] is called
    while the worker's thread is still in that wait, the loop starts all
    the same and goes round as often as one likes, calling [performTask]
    each time, with [_running] still set. *)
Theorem Stop_in_initial_wait_is_lost (nows : list time) (w : t time) :
  at_point w = InitialWait ->
  exists w',
    run minus (CallStop :: EndOfWait :: rounds nows) w = Some w'
    /\ _running w' = true
    /\ at_point w' = AtWhile
    /\ performed w'
       = performed w ++ map (fun now => minus now (_startTime w)) nows.
Proof.
  intros Hp.
  destruct (run_rounds nows
              (mk true (_startTime w) (_count w) AtWhile (performed w))
              eq_refl eq_refl) as [c Hc].
  cbn [_startTime performed] in Hc.
  eexists. split.
  - cbn [run]. rewrite step_Stop. unfold step.
    cbn [at_point _startTime _count performed]. rewrite Hp.
    fold (step minus). exact Hc.
  - cbn. repeat split.
Qed.

Lemma run_stopped (evs : list (step_t time)) (w w' : t time) :
  _running w = false -> at_point w <> InitialWait ->
  run minus evs w = Some w' ->
  _running w' = false
  /\ (length (performed w')
      <= length (performed w)
         + (if at_point w is InBody then 1 else 0))%nat.
Proof.
  revert w. induction evs as [|ev evs IH]; intros w Hr Hp Hrun.
  - cbn in Hrun. injection Hrun as <-. split; [exact Hr|].
    destruct (at_point w); lia.
  - cbn [run] in Hrun. destruct (step minus ev w) as [w1|] eqn:Hstep;
      [|discriminate].
    unfold step in Hstep.
    destruct ev, (at_point w) eqn:Hat; try discriminate; try contradiction;
      injection Hstep as <-; rewrite ?Hr in Hrun;
      (apply IH in Hrun;
       [|cbn [_running]; first [reflexivity | exact Hr]
        |cbn [at_point]; discriminate]);
      destruct Hrun as [Hr' Hlen];
      cbn [performed at_point] in Hlen; rewrite ?length_app in Hlen;
      cbn [length] in Hlen; (split; [exact Hr' | lia]).
Qed.

(** X29: a stop in the loop ends it after one more task at most.  When
    [Stop] is called once the worker's thread has left the initial wait,
    then over every schedule that follows [_running] stays off and
    [performTask] is called once more if the thread had already passed the
    test of the loop, and not at all otherwise. *)
Theorem Stop_in_loop_ends_it (evs : list (step_t time)) (w w' : t time) :
  at_point w <> InitialWait ->
  run minus (CallStop :: evs) w = Some w' ->
  _running w' = false
  /\ (length (performed w')
      <= length (performed w)
         + (if at_point w is InBody then 1 else 0))%nat.
Proof.
  intros Hp Hrun. cbn [run] in Hrun. rewrite step_Stop in Hrun.
  apply run_stopped in Hrun; [exact Hrun | reflexivity | exact Hp].
Qed.

End Worker.

Lemma Run_count_witness :
  let w := FThreadedWorker.Init
             (FThreadedWorker.mk true 3 0 FThreadedWorker.Returned []) in
  let w' := FThreadedWorker.mk true 3 2 FThreadedWorker.AtWhile [7; 17] in
  FThreadedWorker.run Z.sub
    [FThreadedWorker.EndOfWait; FThreadedWorker.WhileTest;
     FThreadedWorker.RunBody 10; FThreadedWorker.WhileTest;
     FThreadedWorker.RunBody 20] w = Some w'
  /\ FThreadedWorker.performed w' = [7; 17]
  /\ FThreadedWorker._count w' mod 2 ^ 32 = 2.
Proof.
  split; [reflexivity|].
  pose proof (Run_count Z.sub
                [FThreadedWorker.EndOfWait; FThreadedWorker.WhileTest;
                 FThreadedWorker.RunBody 10; FThreadedWorker.WhileTest;
                 FThreadedWorker.RunBody 20]
                (FThreadedWorker.Init
                   (FThreadedWorker.mk true 3 0 FThreadedWorker.Returned []))
                (FThreadedWorker.mk true 3 2 FThreadedWorker.AtWhile [7; 17])
                eq_refl) as (Hp & Hc & _).
  split; [exact Hp | exact Hc].
Defined.

Lemma Stop_in_initial_wait_is_lost_witness :
  exists w',
    FThreadedWorker.run Z.sub
      (FThreadedWorker.CallStop :: FThreadedWorker.EndOfWait
       :: FThreadedWorker.rounds [10; 20])
      (FThreadedWorker.mk false 3 0 FThreadedWorker.InitialWait []) = Some w'
    /\ FThreadedWorker._running w' = true
    /\ FThreadedWorker.at_point w' = FThreadedWorker.AtWhile
    /\ FThreadedWorker.performed w' = [7; 17].
Proof.
  exact (Stop_in_initial_wait_is_lost Z.sub [10; 20]
           (FThreadedWorker.mk false 3 0 FThreadedWorker.InitialWait [])
           eq_refl).
Defined.

Lemma Stop_in_loop_ends_it_witness :
  let w := FThreadedWorker.mk true 3 0 FThreadedWorker.InBody [] in
  let w' := FThreadedWorker.mk false 3 1 FThreadedWorker.Returned [7] in
  FThreadedWorker.run Z.sub
    [FThreadedWorker.CallStop; FThreadedWorker.RunBody 10;
     FThreadedWorker.WhileTest] w = Some w'
  /\ FThreadedWorker._running w' = false
  /\ (length (FThreadedWorker.performed w') <= 1)%nat.
Proof.
  split; [reflexivity|].
  exact (Stop_in_loop_ends_it Z.sub
           [FThreadedWorker.RunBody 10; FThreadedWorker.WhileTest]
           (FThreadedWorker.mk true 3 0 FThreadedWorker.InBody [])
           (FThreadedWorker.mk false 3 1 FThreadedWorker.Returned [7])
           ltac:(discriminate) eq_refl).
Defined.
